(** * The M3U playlist parser of script.js

    A shallow embedding of the two [parseM3U] declarations of
    [src/script.js] (lines 33-111 and lines 533-616), together with the
    JavaScript string and regular-expression operations they call, and the
    properties the specification states about the parser.

    JavaScript strings are sequences of UTF-16 code units; a code unit is
    modelled as a number of type [N], a string as a list of them.  The
    functions below never look at a code unit other than through equality
    and range tests, so no bound on the code units is needed. *)

From Stdlib Require Import String Ascii NArith Lia.
From stdpp Require Import base list option numbers countable gmap sorting.

Local Open Scope N_scope.
Local Open Scope nat_scope.

(** ** Strings *)

Abbreviation char16 := N (only parsing).
Abbreviation jsstring := (list N) (only parsing).

(** A string literal of the source, as a list of code units. *)
Definition str (s : string) : jsstring :=
  List.map N_of_ascii (list_ascii_of_string s).

Arguments str : simpl never.

Definition LF : char16 := 10%N.
Definition CR : char16 := 13%N.
Definition quote : char16 := 34%N.
Definition comma : char16 := 44%N.

(** ECMAScript LineTerminator: LF, CR, U+2028, U+2029. *)
Definition isLineTerminator (c : char16) : bool :=
  (c =? 10)%N || (c =? 13)%N || (c =? 0x2028)%N || (c =? 0x2029)%N.

(** ECMAScript WhiteSpace: TAB, VT, FF, SP, NBSP, ZWNBSP and the Unicode
    space separators. *)
Definition isWhiteSpace (c : char16) : bool :=
  (c =? 9)%N || (c =? 11)%N || (c =? 12)%N || (c =? 32)%N || (c =? 160)%N
  || (c =? 0x1680)%N || ((0x2000 <=? c)%N && (c <=? 0x200A)%N)
  || (c =? 0x202F)%N || (c =? 0x205F)%N || (c =? 0x3000)%N
  || (c =? 0xFEFF)%N.

(** What [String.prototype.trim] strips and what [\s] matches. *)
Definition isSpace (c : char16) : bool := isWhiteSpace c || isLineTerminator c.

Fixpoint trimStart (s : jsstring) : jsstring :=
  match s with
  | [] => []
  | c :: s' => if isSpace c then trimStart s' else s
  end.

Definition trimEnd (s : jsstring) : jsstring := rev (trimStart (rev s)).

(** [s.trim()] *)
Definition trim (s : jsstring) : jsstring := trimEnd (trimStart s).

(** [s.startsWith(p)] *)
Fixpoint startsWith (s p : jsstring) {struct p} : bool :=
  match p with
  | [] => true
  | a :: p' =>
      match s with
      | [] => false
      | b :: s' => (a =? b)%N && startsWith s' p'
      end
  end.

(** [s.split(sep)] for a separator of one code unit; the empty string
    gives one empty piece. *)
Fixpoint split (sep : char16) (s : jsstring) : list jsstring :=
  match s with
  | [] => [[]]
  | c :: s' =>
      if (c =? sep)%N then [] :: split sep s'
      else match split sep s' with
           | [] => [[c]]
           | l :: ls => (c :: l) :: ls
           end
  end.

(** [\d], [\w] and the classes the patterns of the source use. *)
Definition isDigit (c : char16) : bool := (48 <=? c)%N && (c <=? 57)%N.
Definition isUpper (c : char16) : bool := (65 <=? c)%N && (c <=? 90)%N.
Definition isLower (c : char16) : bool := (97 <=? c)%N && (c <=? 122)%N.
Definition isWord (c : char16) : bool :=
  isUpper c || isLower c || isDigit c || (c =? 95)%N.
Definition isChar (a : char16) (c : char16) : bool := (c =? a)%N.
Definition isNot (a : char16) (c : char16) : bool := negb (c =? a)%N.
(** [.] without the [s] flag: anything but a line terminator. *)
Definition isDot (c : char16) : bool := negb (isLineTerminator c).
(** [[\w-]] *)
Definition isWordOrDash (c : char16) : bool := isWord c || (c =? 45)%N.

(** [s.toLowerCase()].  The source calls it only on a match of [[\w-]+],
    where it maps [A-Z] to [a-z] and leaves every other code unit alone;
    that is what is modelled. *)
Definition lowerChar (c : char16) : char16 :=
  if isUpper c then (c + 32)%N else c.
Definition toLowerCase (s : jsstring) : jsstring := List.map lowerChar s.

(** ** Values

    What a property of a channel object or a capture of a match can hold:
    [undefined], [null] or a string. *)
Inductive value : Type :=
| undefined
| null
| Str (s : jsstring).

(** ToBoolean *)
Definition truthy (v : value) : bool :=
  match v with
  | Str (_ :: _) => true
  | _ => false
  end.

(** ToString *)
Definition toString (v : value) : jsstring :=
  match v with
  | undefined => str "undefined"
  | null => str "null"
  | Str s => s
  end.

Global Instance value_eq_dec : EqDecision value.
Proof. solve_decision. Defined.

(** ** Outcomes

    A call either returns, throws a [TypeError] (a method called on
    [undefined] or [null]), or runs out of the fuel that bounds a loop of
    the model. *)
Inductive outcome (A : Type) : Type :=
| Ok (a : A)
| TypeError
| OutOfFuel.
Arguments Ok {A} a.
Arguments TypeError {A}.
Arguments OutOfFuel {A}.

Definition bind {A B : Type} (m : outcome A) (f : A -> outcome B) : outcome B :=
  match m with
  | Ok a => f a
  | TypeError => TypeError
  | OutOfFuel => OutOfFuel
  end.

Notation "'do' x <- m ; k" := (bind m (fun x => k))
  (at level 10, x name, m at level 100, k at level 200).

(** [v.trim()], [v.toLowerCase()], [v.startsWith(p)] on a value. *)
Definition trimOf (v : value) : outcome value :=
  match v with
  | Str s => Ok (Str (trim s))
  | _ => TypeError
  end.

Definition toLowerCaseOf (v : value) : outcome jsstring :=
  match v with
  | Str s => Ok (toLowerCase s)
  | _ => TypeError
  end.

Definition startsWithOf (v : value) (p : jsstring) : outcome bool :=
  match v with
  | Str s => Ok (startsWith s p)
  | _ => TypeError
  end.

(** ** Regular expressions

    The patterns of the source are built from character classes,
    concatenation, capturing groups, a quantifier on a character class
    ([c*], [c+], [c?], greedy or lazy) and the optional group [(?:r)?].
    [rmatch] is the backtracking matcher of ECMAScript for them, written
    with a continuation as in the language specification: it returns the
    first complete match in priority order. *)

Inductive regex : Type :=
| Empty
| Class (p : char16 -> bool)
| Seq (r1 r2 : regex)
| Rep (greedy : bool) (min : nat) (max : option nat) (p : char16 -> bool)
| Opt (r : regex)
| Group (n : nat) (r : regex).

Notation "r1 ⋅ r2" := (Seq r1 r2) (at level 41, right associativity).

(** The matcher's state: what is left of the input, the index reached, and
    the captures made so far. *)
Record mstate : Type := MState {
  rest : jsstring;
  endIndex : nat;
  captures : list value
}.

Definition orElse {A : Type} (a : option A) (b : unit -> option A) : option A :=
  match a with
  | Some x => Some x
  | None => b tt
  end.

(** A quantified character class: [min] to [max] code units of class [p],
    as many as possible first when [greedy], as few as possible first
    otherwise. *)
Fixpoint rep (greedy : bool) (p : char16 -> bool) (min : nat) (max : option nat)
    (s : jsstring) (i : nat) (caps : list value)
    (k : mstate -> option mstate) {struct s} : option mstate :=
  let more (_ : unit) :=
    match max with
    | Some 0 => None
    | _ =>
        match s with
        | c :: s' =>
            if p c then rep greedy p (pred min) (pred <$> max) s' (S i) caps k
            else None
        | [] => None
        end
    end in
  let stop (_ : unit) :=
    match min with
    | 0 => k (MState s i caps)
    | S _ => None
    end in
  if greedy then orElse (more tt) stop else orElse (stop tt) more.

(** Leaving group [n], entered at [st] and left at [st']: the capture is
    the piece of input in between. *)
Definition capture (n : nat) (st st' : mstate) : mstate :=
  MState (rest st') (endIndex st')
    (<[n := Str (take (endIndex st' - endIndex st) (rest st))]> (captures st')).

Fixpoint rmatch (r : regex) (st : mstate) (k : mstate -> option mstate)
    : option mstate :=
  match r with
  | Empty => k st
  | Class p =>
      match rest st with
      | c :: s' => if p c then k (MState s' (S (endIndex st)) (captures st)) else None
      | [] => None
      end
  | Seq r1 r2 => rmatch r1 st (fun st' => rmatch r2 st' k)
  | Rep greedy min max p => rep greedy p min max (rest st) (endIndex st) (captures st) k
  | Opt r0 =>
      orElse
        (rmatch r0 st (fun st' =>
           if endIndex st' =? endIndex st then None else k st'))
        (fun _ => k st)
  | Group n r0 => rmatch r0 st (fun st' => k (capture n st st'))
  end.

(** A literal piece of a pattern. *)
Fixpoint lit (s : jsstring) : regex :=
  match s with
  | [] => Empty
  | c :: s' => Class (isChar c) ⋅ lit s'
  end.

(** A RegExp object: its pattern, the number of its capturing groups and
    its [g] flag.  Its [lastIndex] is threaded by the caller. *)
Record RegExp : Type := {
  pattern : regex;
  groups : nat;
  global : bool
}.

(** The first index from [i] on at which the pattern matches; [s] is the
    input from [i] on.  The end of the input is tried too. *)
Fixpoint search (r : RegExp) (s : jsstring) (i : nat) : option (nat * jsstring * mstate) :=
  match rmatch (pattern r) (MState s i (replicate (S (groups r)) undefined)) Some with
  | Some st => Some (i, s, st)
  | None =>
      match s with
      | [] => None
      | _ :: s' => search r s' (S i)
      end
  end.

(** [re.exec(s)] with the object's [lastIndex] before the call: the match
    array (element 0 the whole match, element [n] group [n]) or [None] for
    [null], and the [lastIndex] after the call. *)
Definition exec (re : RegExp) (lastIndex : nat) (s : jsstring)
    : option (list value) * nat :=
  let start := if global re then lastIndex else 0 in
  if length s <? start then (None, if global re then 0 else lastIndex)
  else
    match search re (drop start s) start with
    | None => (None, if global re then 0 else lastIndex)
    | Some (i, si, st) =>
        (Some (<[0 := Str (take (endIndex st - i) si)]> (captures st)),
         if global re then endIndex st else lastIndex)
    end.

(** [s.match(re)] for a pattern without the [g] flag. *)
Definition matchRegExp (s : jsstring) (re : RegExp) : option (list value) :=
  fst (exec re 0 s).

(** [m[n]]: an index past the end of an array reads [undefined]. *)
Definition at_ (m : list value) (n : nat) : value := default undefined (m !! n).

(** *** The patterns of the source *)

Definition star (p : char16 -> bool) : regex := Rep true 0 None p.
Definition plus (p : char16 -> bool) : regex := Rep true 1 None p.
Definition opt (p : char16 -> bool) : regex := Rep true 0 (Some 1) p.
Definition lazyStar (p : char16 -> bool) : regex := Rep false 0 None p.

Definition dash : char16 := 45%N.
Definition space : char16 := 32%N.
Definition equals : char16 := 61%N.
Definition hash : char16 := 35%N.

(** [attributeRegex] of line 41: the literal [#EXTINF:], then [-?], [\d+],
    an optional space, the optional group [(?:([^,]+))?], [,?] and a last
    group that captures [.] repeated with a star. *)
Definition attributeRegex : RegExp := {|
  pattern :=
    lit (str "#EXTINF:") ⋅ opt (isChar dash) ⋅ plus isDigit ⋅ opt (isChar space)
    ⋅ Opt (Group 1 (plus (isNot comma))) ⋅ opt (isChar comma)
    ⋅ Group 2 (star isDot);
  groups := 2;
  global := false
|}.

(** The pattern of line 90: the literal [#EXTINF:], then [-?], [\d+], [,?]
    and one group that captures [.] repeated with a star. *)
Definition titleRegex : RegExp := {|
  pattern :=
    lit (str "#EXTINF:") ⋅ opt (isChar dash) ⋅ plus isDigit ⋅ opt (isChar comma)
    ⋅ Group 1 (star isDot);
  groups := 1;
  global := false
|}.

(** [extinfRegex] of line 541: the literal [#EXTINF:], then [-?], [\d+],
    an optional non-capturing group of [\s+] and a first group that
    captures [.] repeated with a lazy star, then a comma and a second
    group that captures [.] repeated with a greedy star. *)
Definition extinfRegex : RegExp := {|
  pattern :=
    lit (str "#EXTINF:") ⋅ opt (isChar dash) ⋅ plus isDigit
    ⋅ Opt (plus isSpace ⋅ Group 1 (lazyStar isDot)) ⋅ Class (isChar comma)
    ⋅ Group 2 (star isDot);
  groups := 2;
  global := false
|}.

(** [attributeValueRegex] of lines 42 and 543, with the [g] flag: a first
    group [[\w-]+], then [\s*], [=], [\s*], a double quote, a second group
    of any code units but the double quote, and a double quote. *)
Definition attributeValueRegex : RegExp := {|
  pattern :=
    Group 1 (plus isWordOrDash) ⋅ star isSpace ⋅ Class (isChar equals)
    ⋅ star isSpace ⋅ Class (isChar quote) ⋅ Group 2 (star (isNot quote))
    ⋅ Class (isChar quote);
  groups := 2;
  global := true
|}.

(** ** Channels *)

(** The object literal of lines 50-57 and 552-559.  [rawAttributes] is a
    JavaScript object used as a map from attribute keys to values. *)
Record Channel : Type := {
  title : value;
  streamUrl : value;
  logo : value;
  groupTitle : value;
  tvgId : value;
  rawAttributes : gmap jsstring value
}.

Definition newChannel : Channel := {|
  title := Str [];
  streamUrl := Str [];
  logo := null;
  groupTitle := Str (str "Uncategorized");
  tvgId := null;
  rawAttributes := ∅
|}.

Definition setTitle (v : value) (c : Channel) : Channel :=
  {| title := v; streamUrl := streamUrl c; logo := logo c;
     groupTitle := groupTitle c; tvgId := tvgId c;
     rawAttributes := rawAttributes c |}.
Definition setStreamUrl (v : value) (c : Channel) : Channel :=
  {| title := title c; streamUrl := v; logo := logo c;
     groupTitle := groupTitle c; tvgId := tvgId c;
     rawAttributes := rawAttributes c |}.
Definition setLogo (v : value) (c : Channel) : Channel :=
  {| title := title c; streamUrl := streamUrl c; logo := v;
     groupTitle := groupTitle c; tvgId := tvgId c;
     rawAttributes := rawAttributes c |}.
Definition setGroupTitle (v : value) (c : Channel) : Channel :=
  {| title := title c; streamUrl := streamUrl c; logo := logo c;
     groupTitle := v; tvgId := tvgId c;
     rawAttributes := rawAttributes c |}.
Definition setTvgId (v : value) (c : Channel) : Channel :=
  {| title := title c; streamUrl := streamUrl c; logo := logo c;
     groupTitle := groupTitle c; tvgId := v;
     rawAttributes := rawAttributes c |}.

(** [o[key] = v] on an ordinary object whose prototype is
    [Object.prototype]: the key [__proto__] is the accessor of the
    prototype, whose setter ignores a value that is not an object; every
    other key becomes (or stays) an own property. *)
Definition setProperty (key : jsstring) (v : value) (o : gmap jsstring value)
    : gmap jsstring value :=
  if decide (key = str "__proto__") then o else <[key := v]> o.

Definition setRawAttribute (key : jsstring) (v : value) (c : Channel) : Channel :=
  {| title := title c; streamUrl := streamUrl c; logo := logo c;
     groupTitle := groupTitle c; tvgId := tvgId c;
     rawAttributes := setProperty key v (rawAttributes c) |}.

(** [if (key === k) c.field = v] *)
Definition whenKey (key k : jsstring) (f : Channel -> Channel) (c : Channel) : Channel :=
  if decide (key = k) then f c else c.

(** The body of the [while] loop of lines 66-83 and of lines 568-585 (the
    two are the same text) for one match [attrMatch]. *)
Definition attributeStep (attrMatch : list value) (c : Channel) : outcome Channel :=
  do key <- toLowerCaseOf (at_ attrMatch 1);
  let v := at_ attrMatch 2 in
  let c := setRawAttribute key v c in
  let c := whenKey key (str "tvg-id") (setTvgId v) c in
  let c := whenKey key (str "tvg-name") (setTitle v) c in
  let c := whenKey key (str "tvg-logo") (setLogo v) c in
  let c := whenKey key (str "group-title") (setGroupTitle v) c in
  Ok c.

(** [while ((attrMatch = attributeValueRegex.exec(attributesString)) !== null)]:
    the loop runs on the [lastIndex] of the pattern object and returns the
    channel and the [lastIndex] it leaves behind. *)
Fixpoint attributeLoop (fuel : nat) (lastIndex : nat) (attributesString : jsstring)
    (c : Channel) : outcome (Channel * nat) :=
  match fuel with
  | 0 => OutOfFuel
  | S fuel' =>
      match exec attributeValueRegex lastIndex attributesString with
      | (None, lastIndex') => Ok (c, lastIndex')
      | (Some attrMatch, lastIndex') =>
          do c' <- attributeStep attrMatch c;
          attributeLoop fuel' lastIndex' attributesString c'
      end
  end.

(** [attributeValueRegex.exec(v)] converts its argument to a string; every
    match consumes at least one code unit, so the loop makes at most as many
    rounds as the string is long, and one more that finds nothing. *)
Definition parseAttributes (lastIndex : nat) (attributesString : value)
    (c : Channel) : outcome (Channel * nat) :=
  let s := toString attributesString in
  attributeLoop (S (length s)) lastIndex s c.

(** The variables of one call: the array [channels], [currentChannel]
    ([None] for [null]), the [lastIndex] of the call's
    [attributeValueRegex] object, and what [console.warn] has printed. *)
Record pstate : Type := PState {
  channels : list Channel;
  currentChannel : option Channel;
  lastIndex : nat;
  console : list jsstring
}.

Definition initial : pstate := PState [] None 0 [].

(** [for (const x of l) body] *)
Fixpoint forOf {S A : Type} (body : S -> A -> outcome S) (l : list A) (st : S)
    : outcome S :=
  match l with
  | [] => Ok st
  | x :: l' => do st' <- body st x; forOf body l' st'
  end.

(** The template literal of lines 105 and 610. *)
Definition invalidUrlMessage (c : Channel) : jsstring :=
  str "Skipping invalid stream URL for channel " ++ [quote]
  ++ toString (title c) ++ [quote] ++ str ": " ++ toString (streamUrl c).

(** Lines 97-107 and 603-612: the URL line completes the pending channel. *)
Definition completeChannel (url : jsstring) (c : Channel) (st : pstate)
    : outcome pstate :=
  let c := setStreamUrl (Str url) c in
  do h <- startsWithOf (streamUrl c) (str "http://");
  do hs <- startsWithOf (streamUrl c) (str "https://");
  if truthy (streamUrl c) && (h || hs)
  then Ok (PState (channels st ++ [c]) None (lastIndex st) (console st))
  else Ok (PState (channels st) None (lastIndex st)
             (console st ++ [invalidUrlMessage c])).

(** [if (!c.title) c.title = v] *)
Definition titleFallback (v : value) (c : Channel) : Channel :=
  if truthy (title c) then c else setTitle v c.

(** [m[n] ? m[n].trim() : ''] *)
Definition trimmedGroup (m : list value) (n : nat) : outcome value :=
  if truthy (at_ m n) then trimOf (at_ m n) else Ok (Str []).

(** *** The first declaration, lines 33-111 *)
Module First.

(** Lines 59-94: the metadata line fills a new channel. *)
Definition parseExtinf (line : jsstring) (li : nat) : outcome (Channel * nat) :=
  let currentChannel := newChannel in
  match matchRegExp line attributeRegex with
  | Some extinfMatch =>
      let attributesString := at_ extinfMatch 1 in
      do titleString <- trimmedGroup extinfMatch 2;
      do r <- parseAttributes li attributesString currentChannel;
      Ok (titleFallback titleString (fst r), snd r)
  | None =>
      match matchRegExp line titleRegex with
      | Some titleMatch =>
          if truthy (at_ titleMatch 1)
          then do t <- trimOf (at_ titleMatch 1);
               Ok (setTitle t currentChannel, li)
          else Ok (currentChannel, li)
      | None => Ok (currentChannel, li)
      end
  end.

(** The body of the [for] loop, lines 45-108. *)
Definition lineStep (st : pstate) (line : jsstring) : outcome pstate :=
  if decide (trim line = []) then Ok st
  else if startsWith line (str "#EXTM3U") then Ok st
  else if startsWith line (str "#EXTINF") then
    do r <- parseExtinf line (lastIndex st);
    Ok (PState (channels st) (Some (fst r)) (snd r) (console st))
  else
    match currentChannel st with
    | Some c =>
        if startsWith line (str "http") then completeChannel (trim line) c st
        else Ok st
    | None => Ok st
    end.

Definition run (m3uText : jsstring) : outcome pstate :=
  forOf lineStep (split LF m3uText) initial.

Definition parseM3U (m3uText : jsstring) : outcome (list Channel) :=
  do st <- run m3uText; Ok (channels st).

End First.

(** *** The second declaration, lines 533-616 *)
Module Second.

Definition malformedMessage (trimmedLine : jsstring) : jsstring :=
  str "Skipping malformed #EXTINF line: " ++ trimmedLine.

(** [extinfMatch[1] || ''] *)
Definition orEmpty (v : value) : value := if truthy v then v else Str [].

(** Lines 561-593, for a line that [extinfRegex] matches. *)
Definition parseExtinf (extinfMatch : list value) (li : nat)
    : outcome (Channel * nat) :=
  let currentChannel := newChannel in
  let attributesString := orEmpty (at_ extinfMatch 1) in
  do titleString <- trimmedGroup extinfMatch 2;
  do r <- parseAttributes li attributesString currentChannel;
  let c := titleFallback titleString (fst r) in
  let c := titleFallback (Str (str "Untitled Channel")) c in
  Ok (c, snd r).

(** The body of the [for] loop, lines 546-613. *)
Definition lineStep (st : pstate) (line : jsstring) : outcome pstate :=
  let trimmedLine := trim line in
  if negb (truthy (Str trimmedLine)) then Ok st
  else if startsWith trimmedLine (str "#EXTM3U") then Ok st
  else if startsWith trimmedLine (str "#EXTINF") then
    match matchRegExp trimmedLine extinfRegex with
    | Some extinfMatch =>
        do r <- parseExtinf extinfMatch (lastIndex st);
        Ok (PState (channels st) (Some (fst r)) (snd r) (console st))
    | None =>
        Ok (PState (channels st) None (lastIndex st)
              (console st ++ [malformedMessage trimmedLine]))
    end
  else
    match currentChannel st with
    | Some c =>
        if startsWith trimmedLine (str "http") then completeChannel trimmedLine c st
        else Ok st
    | None => Ok st
    end.

Definition run (m3uText : jsstring) : outcome pstate :=
  forOf lineStep (split LF m3uText) initial.

Definition parseM3U (m3uText : jsstring) : outcome (list Channel) :=
  do st <- run m3uText; Ok (channels st).

End Second.

(** The file holds two versions of the script, one after the other (the
    second begins at line 471).  [parseM3U] stands for the declaration of
    the later version, lines 533-616, and [First.parseM3U] for that of
    the earlier one, lines 33-111; what holds of one only is stated of that
    one. *)
Definition parseM3U : jsstring -> outcome (list Channel) := Second.parseM3U.

(** ** Inputs *)

(** [s] between double quotes. *)
Definition quoted (s : string) : jsstring := quote :: str s ++ [quote].

(** Lines joined by line feeds. *)
Fixpoint unlines (ls : list jsstring) : jsstring :=
  match ls with
  | [] => []
  | [l] => l
  | l :: ls' => l ++ LF :: unlines ls'
  end.

(** A string that holds no line feed, so that it is one line of an input. *)
Definition singleLine (l : jsstring) : bool := forallb (isNot LF) l.

(** The part of a metadata line that holds the attributes: nothing, or a
    space and the attributes. *)
Definition attributesPart (attrs : jsstring) : jsstring :=
  match attrs with
  | [] => []
  | _ => space :: attrs
  end.

(** The metadata line [#EXTINF:<duration><attributes>,<title>], the
    duration being digits after a minus sign when [neg]. *)
Definition metadataLine (neg : bool) (d attrs t : jsstring) : jsstring :=
  str "#EXTINF:" ++ (if neg then [dash] else []) ++ d
  ++ attributesPart attrs ++ comma :: t.

Definition headNotSpace (l : jsstring) : bool :=
  match l with
  | [] => true
  | c :: _ => negb (isSpace c)
  end.

(** The duration is digits, at least one; the attributes hold no comma and
    no line terminator and do not begin with white space. *)
Definition plainParts (d attrs : jsstring) : bool :=
  negb (bool_decide (d = [])) && forallb isDigit d
  && forallb (fun c => isNot comma c && isDot c) attrs && headNotSpace attrs.

(** The title begins with a code unit that is not white space. *)
Definition titled (t : jsstring) : bool :=
  match t with
  | [] => false
  | c :: _ => negb (isSpace c)
  end.

(** The lines of a plain playlist: a blank line; a line that does not begin
    with white space and is not a metadata line (a header, a URL, a
    comment); or a plain metadata line with a title. *)
Definition plainLine (l : jsstring) : Prop :=
  trim l = []
  \/ (headNotSpace l = true /\ startsWith l (str "#EXTINF") = false)
  \/ (exists (neg : bool) (d attrs t : jsstring),
        l = metadataLine neg d attrs t /\ plainParts d attrs = true
        /\ titled t = true).

(** The captures that the two patterns for metadata lines make on the
    attributes and the title of a plain line, and the match array. *)
Definition plainCaptures (attrs w : jsstring) (caps : list value) : list value :=
  <[2 := Str w]> (match attrs with [] => caps | _ => <[1 := Str attrs]> caps end).

Definition plainMatch (whole attrs w : jsstring) : list value :=
  [Str whole; match attrs with [] => undefined | _ => Str attrs end; Str w].

(** A piece of a metadata line begins with a duration: digits, after an
    optional minus sign. *)
Definition hasDuration (r : jsstring) : bool :=
  match r with
  | [] => false
  | c :: r' =>
      isDigit c
      || ((c =? dash)%N && match r' with
                           | [] => false
                           | c' :: _ => isDigit c'
                           end)
  end.

(** *** The shape of a metadata line

    [#EXTINF:<duration><optional-attributes>,<title-text>], as the pattern
    of line 541 spells it out: the marker with its colon; the duration, one
    or more digits after an optional minus sign; optionally white space
    followed by text without a line terminator; a comma; the title text. *)
Definition optionalAttributes (a : jsstring) : Prop :=
  a = []
  \/ exists ws b, a = ws ++ b /\ ws <> []
       /\ Forall (fun c => isSpace c = true) ws /\ Forall (fun c => isDot c = true) b.

Definition metadataShape (l : jsstring) : Prop :=
  exists (neg : bool) (d a t : jsstring),
    l = str "#EXTINF:" ++ (if neg then [dash] else []) ++ d ++ a ++ comma :: t
    /\ d <> [] /\ Forall (fun c => isDigit c = true) d /\ optionalAttributes a.

(** Text of the shape begins at some position of [l], the first or a later
    one. *)
Definition holdsShape (l : jsstring) : Prop :=
  exists pre r, l = pre ++ r /\ metadataShape r.

(** A line that is not of the shape and holds it further on, and a URL. *)
Definition shapeFurtherOn : jsstring := str "#EXTINFO junk #EXTINF:-1,T".

(** The input of the specification's first scenario: a header line, one
    metadata line with three attributes, its URL line, and a final line
    feed; and the channel it stands for. *)
Definition scenario1 : jsstring :=
  unlines [
    str "#EXTM3U";
    str "#EXTINF:-1 tvg-id=" ++ quoted "c1" ++ str " tvg-logo="
      ++ quoted "http://x/l.png" ++ str " group-title=" ++ quoted "News"
      ++ str ",Channel One";
    str "http://x/stream1.m3u8";
    []
  ].

Definition channelOne : Channel := {|
  title := Str (str "Channel One");
  streamUrl := Str (str "http://x/stream1.m3u8");
  logo := Str (str "http://x/l.png");
  groupTitle := Str (str "News");
  tvgId := Str (str "c1");
  rawAttributes :=
    <[str "tvg-id" := Str (str "c1")]>
      (<[str "tvg-logo" := Str (str "http://x/l.png")]>
         (<[str "group-title" := Str (str "News")]> ∅))
|}.

(** A metadata line whose [tvg-name] value holds a comma, and its URL. *)
Definition commaInAttribute : jsstring :=
  unlines [
    str "#EXTINF:-1 tvg-name=" ++ quoted "News, World" ++ str ",Title";
    str "http://x/s"
  ].

(** A metadata line with a duration, one without, and a URL. *)
Definition secondWithoutDuration : list jsstring :=
  [str "#EXTINF:-1,First"; str "#EXTINF:,Second"; str "http://x/s"].

(** A metadata line without a duration, and a URL. *)
Definition withoutDuration : jsstring :=
  unlines [str "#EXTINF:,Title"; str "http://x/s"].

(** A metadata line without a title, and a URL. *)
Definition withoutTitle : jsstring :=
  unlines [str "#EXTINF:-1,"; str "http://x/s"].

(** ** Properties of channels and of runs *)

(** The test of lines 101 and 607 on a stream URL. *)
Definition validUrl (u : jsstring) : bool :=
  startsWith u (str "http://") || startsWith u (str "https://").

(** A channel as the specification wants it: its title is a string that is
    not empty and its stream URL a string that begins with [http://] or
    [https://]. *)
Definition wellFormed (c : Channel) : Prop :=
  exists t u, title c = Str t /\ t <> [] /\ streamUrl c = Str u
    /\ (startsWith u (str "http://") = true \/ startsWith u (str "https://") = true).

(** A channel of the earlier declaration: its title is a string, which may
    be empty, and its stream URL a string that begins with [http://] or
    [https://]. *)
Definition urlFormed (c : Channel) : Prop :=
  exists t u, title c = Str t /\ streamUrl c = Str u
    /\ (startsWith u (str "http://") = true \/ startsWith u (str "https://") = true).

(** The pending entry that a line opens: what [currentChannel] holds after
    the loop body of the second declaration has run on the line alone. *)
Definition pendingOf (line : jsstring) : option Channel :=
  match Second.lineStep initial line with
  | Ok st => currentChannel st
  | _ => None
  end.



(** Through the attribute loop the title is the value last stored under
    [tvg-name], and empty as long as there is none. *)
Definition titleTracksName (c : Channel) : Prop :=
  title c = default (Str []) (rawAttributes c !! str "tvg-name").

(** *** The title, in the words of the specification

    Title resolution order: the value of [tvg-name] if present and not
    empty; else the trimmed title text; else a fixed placeholder. *)
Definition placeholder : jsstring := str "Untitled Channel".

Definition resolveTitle (tvgName : option value) (titleText : jsstring) : value :=
  let fallback :=
    match trim titleText with
    | [] => Str placeholder
    | t => Str t
    end in
  match tvgName with
  | Some v => if truthy v then v else fallback
  | None => fallback
  end.

(** The text of a capture, empty when the group did not take part. *)
Definition textOf (v : value) : jsstring :=
  match v with
  | Str s => s
  | _ => []
  end.

(** The title that the specification's words give the line of
    [commaInAttribute]: its [tvg-name] is [News, World] and the text after
    its final comma is [Title]. *)
Definition expectedTitle : value :=
  resolveTitle (Some (Str (str "News, World"))) (str "Title").

(** ** What a match is

    [Matches r st st'] says that pattern [r] can take the matcher from state
    [st] to state [st']: the declarative reading of a pattern, against which
    the backtracking matcher is proved sound. *)
Inductive Matches : regex -> mstate -> mstate -> Prop :=
| MatchesEmpty st : Matches Empty st st
| MatchesClass p c s i caps :
    p c = true -> Matches (Class p) (MState (c :: s) i caps) (MState s (S i) caps)
| MatchesSeq r1 r2 st1 st2 st3 :
    Matches r1 st1 st2 -> Matches r2 st2 st3 -> Matches (r1 ⋅ r2) st1 st3
| MatchesRep g min max p w s i caps :
    Forall (fun c => p c = true) w -> min <= length w ->
    (forall m, max = Some m -> length w <= m) ->
    Matches (Rep g min max p) (MState (w ++ s) i caps) (MState s (i + length w) caps)
| MatchesSkip r st : Matches (Opt r) st st
| MatchesOpt r st st' :
    Matches r st st' -> endIndex st' <> endIndex st -> Matches (Opt r) st st'
| MatchesGroup n r st st' :
    Matches r st st' -> Matches (Group n r) st (capture n st st').

(** * More of the parser

    What the further properties of the two declarations are stated with. *)

(** ** Inputs *)

(** The text with every line feed preceded by a carriage return. *)
Definition crlf (s : jsstring) : jsstring :=
  flat_map (fun c => if (c =? LF)%N then [CR; LF] else [c]) s.

(** A line that the second declaration of [parseM3U] does not skip: trimmed,
    it starts with [#EXTINF] or with [http]. *)
Definition relevant (line : jsstring) : bool :=
  startsWith (trim line) (str "#EXTINF") || startsWith (trim line) (str "http").

(** ** What the parser stores

    A key of [rawAttributes] is what the first group of
    [attributeValueRegex] captured, in lower case, and is not [__proto__];
    a value is what the second group captured. *)
Definition attributeKey (k : jsstring) : Prop :=
  k <> [] /\ Forall (fun c => isWordOrDash c = true /\ isUpper c = false) k
  /\ k <> str "__proto__".

Definition attributeValue (v : value) : Prop :=
  exists s, v = Str s /\ Forall (fun c => c <> quote) s.

Definition attributesShaped (c : Channel) : Prop :=
  forall k v, rawAttributes c !! k = Some v -> attributeKey k /\ attributeValue v.

(** The typed fields are the values last stored under their keys, and the
    values of the object literal where there is none. *)
Definition fieldsMirrorAttributes (c : Channel) : Prop :=
  tvgId c = default null (rawAttributes c !! str "tvg-id")
  /\ logo c = default null (rawAttributes c !! str "tvg-logo")
  /\ groupTitle c
     = default (Str (str "Uncategorized")) (rawAttributes c !! str "group-title").


(** * The rest of the script

    The functions around the parser, in their later version (lines
    507-898): the playlist check of [fetchM3UData], the category list, the
    search filter, the favourites and the three sections of the page.

    What the script does not define is taken as given: [toLowerCase] on
    arbitrary text, the HTML parser behind [innerHTML], [localStorage] and
    the Clappr player. *)

(** ** Strings and arrays *)

(** [s.includes(sub)] *)
Fixpoint includes (s sub : jsstring) : bool :=
  startsWith s sub
  || match s with
     | [] => false
     | _ :: s' => includes s' sub
     end.

(** [s.substring(0, n)] *)
Definition substring0 (n : nat) (s : jsstring) : jsstring := take n s.

(** A non-negative integer in a template literal: its decimal digits. *)
Fixpoint digits (fuel n : nat) (acc : jsstring) : jsstring :=
  match fuel with
  | 0 => acc
  | S fuel' =>
      let acc' := N.of_nat (48 + n mod 10) :: acc in
      if n / 10 =? 0 then acc' else digits fuel' (n / 10) acc'
  end.

Definition numberToString (n : nat) : jsstring := digits (S n) n [].

(** [arr.includes(v)]; on [undefined], [null] and strings SameValueZero is
    equality. *)
Definition arrayIncludes (v : value) (arr : list value) : bool :=
  bool_decide (v ∈ arr).

(** [arr.indexOf(v)], [None] for -1. *)
Fixpoint indexOf (v : value) (arr : list value) : option nat :=
  match arr with
  | [] => None
  | x :: arr' => if decide (x = v) then Some 0 else S <$> indexOf v arr'
  end.

(** The test of lines 131 and 640 on the text of a response. *)
Definition looksLikePlaylist (m3uText : jsstring) : bool :=
  startsWith m3uText (str "#EXTM3U") || includes m3uText (str "#EXTINF").

(** ** Favourites *)

(** Lines 817-824 (and 320-327): the array [favorites] after
    [toggleFavorite(channelTitle)]. *)
Definition toggleFavoriteIn (channelTitle : value) (favorites : list value)
    : list value :=
  match indexOf channelTitle favorites with
  | None => favorites ++ [channelTitle]
  | Some index => delete index favorites
  end.

(** Line 860 (and 363): [favoriteChannelsData]. *)
Definition favoriteChannelsData (allChannels : list Channel) (favorites : list value)
    : list Channel :=
  filter (fun channel => arrayIncludes (title channel) favorites = true) allChannels.

(** ** Categories *)

(** [set.add(x)] on a [Set] kept in insertion order. *)
Definition setAdd (x : jsstring) (s : list jsstring) : list jsstring :=
  if decide (x ∈ s) then s else s ++ [x].

(** The comparison of [Array.prototype.sort] without a comparator, on
    strings: by code units, a proper prefix first. *)
Fixpoint codeUnitLe (x y : jsstring) : bool :=
  match x, y with
  | [], _ => true
  | _ :: _, [] => false
  | a :: x', b :: y' => (a <? b)%N || ((a =? b)%N && codeUnitLe x' y')
  end.

Definition sortLe : relation (list N) := fun x y => codeUnitLe x y = true.

Global Instance sortLe_dec : RelDecision sortLe.
Proof. intros x y. unfold sortLe. apply _. Defined.

(** [Array.from(categories).sort()].  The elements of a [Set] of strings
    are pairwise different, so every sorting algorithm returns the same
    array; merge sort stands for the one of the engine. *)
Definition sortStrings (l : list jsstring) : list jsstring := merge_sort sortLe l.

(** Lines 737-742: the [Set] of categories, from the group titles that are
    truthy and are not [Uncategorized]. *)
Definition addCategory (categories : list jsstring) (channel : Channel)
    : list jsstring :=
  match groupTitle channel with
  | Str (a :: g) =>
      if decide (a :: g = str "Uncategorized") then categories
      else setAdd (a :: g) categories
  | _ => categories
  end.

Definition categoriesOf (allChannels : list Channel) : list jsstring :=
  sortStrings (fold_left addCategory allChannels [str "All Categories"]).

(** Lines 234-239, the earlier version: every truthy group title. *)
Definition addCategoryFirst (categories : list jsstring) (channel : Channel)
    : list jsstring :=
  match groupTitle channel with
  | Str (a :: g) => setAdd (a :: g) categories
  | _ => categories
  end.

Definition categoriesOfFirst (allChannels : list Channel) : list jsstring :=
  sortStrings (fold_left addCategoryFirst allChannels [str "All Categories"]).

(** An [option] element: its [value] and its text. *)
Record optionElement : Type := OptionElement {
  optionValue : jsstring;
  optionText : jsstring
}.

(** Lines 746-752: one option per category, its value and its text both the
    category. *)
Definition categoryOptions (allChannels : list Channel) : list optionElement :=
  (fun category => OptionElement category category) <$> categoriesOf allChannels.

(** Line 626: the one option to which [fetchM3UData] resets the list. *)
Definition resetOptions : list optionElement :=
  [OptionElement (str "all") (str "All Categories")].

(** ** What the script takes from outside *)

(** [toLowerCase] on arbitrary text; whether the markup that
    [renderChannels] writes for a channel and its favourite state parses
    into a card with an element of class [favorite-btn] (a title or a logo
    that holds markup can swallow it); and the message of the [TypeError]
    that the engine throws for a member of [null] or [undefined]. *)
Record externals : Type := {
  lowerCase : jsstring -> jsstring;
  hasFavoriteButton : Channel -> bool -> bool;
  typeErrorMessage : jsstring
}.

(** What surrounds one run of a handler: the values of the search box and
    of the category list, and whether [localStorage.setItem] and the Clappr
    player throw, with the message of the error. *)
Record surroundings : Type := {
  searchValue : jsstring;
  categoryValue : jsstring;
  setItemError : option jsstring;
  clapprError : option jsstring
}.

(** ** The search filter *)

(** Lines 846-850 for one channel; [title.toLowerCase()] throws when the
    title is not a string. *)
Definition matchesFilters (E : externals) (searchTerm selectedCategory : jsstring)
    (channel : Channel) : outcome bool :=
  match title channel with
  | Str t =>
      let matchesSearch := includes (lowerCase E t) searchTerm in
      let matchesCategory :=
        bool_decide (selectedCategory = str "all")
        || bool_decide (groupTitle channel = Str selectedCategory) in
      Ok (matchesSearch && matchesCategory)
  | _ => TypeError
  end.

(** [arr.filter(f)] for a callback that may throw. *)
Fixpoint filterArray {A : Type} (f : A -> outcome bool) (arr : list A)
    : outcome (list A) :=
  match arr with
  | [] => Ok []
  | x :: arr' =>
      do keep <- f x;
      do kept <- filterArray f arr';
      Ok (if keep then x :: kept else kept)
  end.

(** Lines 842-850: what [applyFilters] assigns to [filteredChannels]. *)
Definition filterChannels (E : externals) (d : surroundings) (allChannels : list Channel)
    : outcome (list Channel) :=
  let searchTerm := lowerCase E (searchValue d) in
  let selectedCategory := categoryValue d in
  filterArray (matchesFilters E searchTerm selectedCategory) allChannels.

(** A group title that [populateCategoryFilter] lists: a string that is
    not empty and is not [Uncategorized]. *)
Definition listed (c : jsstring) : Prop := c <> [] /\ c <> str "Uncategorized".


(** ** The page *)

(** Whether each of the three sections has the class [d-none]. *)
Record sections : Type := Sections {
  channelsHidden : bool;
  favoritesHidden : bool;
  playerHidden : bool
}.

(** [pageMessageContainer]: its text, the type in its class
    [alert alert-<type> text-center mb-4], and whether its [display] is
    [block] rather than [none]. *)
Record pageMessage : Type := PageMessage {
  messageText : jsstring;
  messageType : jsstring;
  messageDisplayed : bool
}.

(** The variables of lines 478-483 and what the script writes to the
    document, the contents of the two grids and of the player container
    apart.  The elements that lines 486-494 and 502 look up are taken to
    exist.
    [clapprPlayer] tells whether the variable holds a player. *)
Record page : Type := Page {
  allChannels : list Channel;
  filteredChannels : list Channel;
  favorites : list value;
  clapprPlayer : bool;
  currentStreamUrl : value;
  hidden : sections;
  message : pageMessage;
  showFavoritesBtnText : jsstring;
  options : list optionElement
}.

Definition setAllChannels (v : list Channel) (p : page) : page :=
  Page v (filteredChannels p) (favorites p) (clapprPlayer p) (currentStreamUrl p)
       (hidden p) (message p) (showFavoritesBtnText p) (options p).

Definition setFilteredChannels (v : list Channel) (p : page) : page :=
  Page (allChannels p) v (favorites p) (clapprPlayer p) (currentStreamUrl p)
       (hidden p) (message p) (showFavoritesBtnText p) (options p).

Definition setFavorites (v : list value) (p : page) : page :=
  Page (allChannels p) (filteredChannels p) v (clapprPlayer p) (currentStreamUrl p)
       (hidden p) (message p) (showFavoritesBtnText p) (options p).

Definition setClapprPlayer (v : bool) (p : page) : page :=
  Page (allChannels p) (filteredChannels p) (favorites p) v (currentStreamUrl p)
       (hidden p) (message p) (showFavoritesBtnText p) (options p).

Definition setCurrentStreamUrl (v : value) (p : page) : page :=
  Page (allChannels p) (filteredChannels p) (favorites p) (clapprPlayer p) v
       (hidden p) (message p) (showFavoritesBtnText p) (options p).

Definition setHidden (v : sections) (p : page) : page :=
  Page (allChannels p) (filteredChannels p) (favorites p) (clapprPlayer p)
       (currentStreamUrl p) v (message p) (showFavoritesBtnText p) (options p).

Definition setMessage (v : pageMessage) (p : page) : page :=
  Page (allChannels p) (filteredChannels p) (favorites p) (clapprPlayer p)
       (currentStreamUrl p) (hidden p) v (showFavoritesBtnText p) (options p).

Definition setShowFavoritesBtnText (v : jsstring) (p : page) : page :=
  Page (allChannels p) (filteredChannels p) (favorites p) (clapprPlayer p)
       (currentStreamUrl p) (hidden p) (message p) v (options p).

Definition setOptions (v : list optionElement) (p : page) : page :=
  Page (allChannels p) (filteredChannels p) (favorites p) (clapprPlayer p)
       (currentStreamUrl p) (hidden p) (message p) (showFavoritesBtnText p) v.

(** [section.classList.add('d-none')] and [remove], for each section. *)
Definition setChannelsHidden (b : bool) (p : page) : page :=
  setHidden (Sections b (favoritesHidden (hidden p)) (playerHidden (hidden p))) p.

Definition setFavoritesHidden (b : bool) (p : page) : page :=
  setHidden (Sections (channelsHidden (hidden p)) b (playerHidden (hidden p))) p.

Definition setPlayerHidden (b : bool) (p : page) : page :=
  setHidden (Sections (channelsHidden (hidden p)) (favoritesHidden (hidden p)) b) p.

(** ** Handlers *)

(** How a piece of the script ends on a page: it returns, it throws an
    error with a message, or, for the parser run out of fuel, it does not
    finish.  The page is the one it leaves behind. *)
Inductive completion (A : Type) : Type :=
  | Returned (a : A)
  | Threw (error : jsstring)
  | Unfinished.
Arguments Returned {A} a.
Arguments Threw {A} error.
Arguments Unfinished {A}.

Definition action (A : Type) : Type := page -> completion A * page.

Global Instance action_ret : MRet action := fun A a p => (Returned a, p).

Global Instance action_bind : MBind action := fun A B f m p =>
  match m p with
  | (Returned a, p') => f a p'
  | (Threw error, p') => (Threw error, p')
  | (Unfinished, p') => (Unfinished, p')
  end.

Definition throw {A : Type} (error : jsstring) : action A := fun p => (Threw error, p).

Definition update (f : page -> page) : action unit := fun p => (Returned tt, f p).

Definition read {A : Type} (f : page -> A) : action A := fun p => (Returned (f p), p).

Definition when (b : bool) (m : action unit) : action unit :=
  if b then m else mret tt.

(** [try { m } catch (error) { handler(error.message) }] *)
Definition tryCatch {A : Type} (m : action A) (handler : jsstring -> action A)
    : action A := fun p =>
  match m p with
  | (Threw error, p') => handler error p'
  | done => done
  end.

(** A computation of the parser or of the filter inside a handler: a
    [TypeError] is thrown with the message of the engine. *)
Definition liftOutcome {A : Type} (E : externals) (o : outcome A) : action A :=
  match o with
  | Ok a => mret a
  | TypeError => throw (typeErrorMessage E)
  | OutOfFuel => fun p => (Unfinished, p)
  end.

(** A call into [localStorage] or Clappr that may throw. *)
Definition external (error : option jsstring) : action unit :=
  match error with
  | None => mret tt
  | Some e => throw e
  end.

(** Lines 514-518. *)
Definition showPageMessage (text type : jsstring) : action unit :=
  update (setMessage (PageMessage text type true)).

(** Lines 523-525. *)
Definition hidePageMessage : action unit :=
  update (fun p =>
    setMessage (PageMessage (messageText (message p)) (messageType (message p)) false) p).

(** Lines 669-731 on this page: the grids are not part of it, so what is
    left of [renderChannels] is whether it returns.  For each channel in
    turn the card is built and [favButton.addEventListener] (line 709)
    throws when [querySelector] found no favourite button; an empty array
    returns at line 674. *)
Definition renderChannels (E : externals) (channelsToRender : list Channel)
    : action unit :=
  isFavorite ← read (fun p channel => arrayIncludes (title channel) (favorites p));
  if forallb (fun channel => hasFavoriteButton E channel (isFavorite channel))
             channelsToRender
  then mret tt
  else throw (typeErrorMessage E).

(** Lines 858-870. *)
Definition renderFavorites (E : externals) : action unit :=
  data ← read (fun p => favoriteChannelsData (allChannels p) (favorites p));
  renderChannels E data;;
  update (setChannelsHidden true);;
  update (setPlayerHidden true);;
  update (setFavoritesHidden false);;
  update (setShowFavoritesBtnText (str "Show All Channels")).

(** Lines 816-835. *)
Definition toggleFavorite (E : externals) (d : surroundings) (channelTitle : value)
    : action unit :=
  update (fun p => setFavorites (toggleFavoriteIn channelTitle (favorites p)) p);;
  external (setItemError d);;
  channelsVisible ← read (fun p => negb (channelsHidden (hidden p)));
  filtered ← read filteredChannels;
  when channelsVisible (renderChannels E filtered);;
  favoritesVisible ← read (fun p => negb (favoritesHidden (hidden p)));
  when favoritesVisible (renderFavorites E).

(** Lines 841-853. *)
Definition applyFilters (E : externals) (d : surroundings) : action unit :=
  all ← read allChannels;
  filtered ← liftOutcome E (filterChannels E d all);
  update (setFilteredChannels filtered);;
  renderChannels E filtered.

(** Lines 736-753 on the page: the options of the category list. *)
Definition populateCategoryFilter : action unit :=
  update (fun p => setOptions (categoryOptions (allChannels p)) p).

(** The test [!channel.streamUrl] of line 760; the channel of a card is an
    object. *)
Definition falsy (v : value) : bool :=
  match v with
  | Str (_ :: _) => false
  | _ => true
  end.

(** Lines 759-790; [new Clappr.Player] and [clapprPlayer.load] are the
    calls into Clappr. *)
Definition playChannel (d : surroundings) (channel : Channel) : action unit :=
  if falsy (streamUrl channel) then
    showPageMessage (str "Selected channel has no valid stream URL.") (str "danger")
  else
    hidePageMessage;;
    update (setChannelsHidden true);;
    update (setFavoritesHidden true);;
    update (setPlayerHidden false);;
    player ← read clapprPlayer;
    (if negb player then
       external (clapprError d);;
       update (setClapprPlayer true)
     else
       external (clapprError d));;
    update (setCurrentStreamUrl (streamUrl channel)).

(** Lines 622-627: [fetchM3UData] up to the call of [fetch]. *)
Definition fetchM3UDataStart : action unit :=
  hidePageMessage;;
  showPageMessage (str "Loading channels...") (str "info");;
  update (setOptions resetOptions).

(** What comes back from [fetch(M3U_URL)] and from [response.text()]: a
    rejection with an error, or a response and its text. *)
Inductive reply : Type :=
  | Rejected (error : jsstring)
  | Response (ok : bool) (status : nat) (statusText : jsstring) (text : jsstring).

(** Lines 630-653: the [try] block once the reply is there. *)
Definition fetchM3UDataTry (E : externals) (r : reply) : action unit :=
  match r with
  | Rejected error => throw error
  | Response ok status statusText text =>
      if negb ok then
        throw (str "HTTP Error " ++ numberToString status ++ str " " ++ statusText
               ++ str ". Response: " ++ substring0 200 text ++ str "...")
      else if negb (looksLikePlaylist text) then
        throw (str "Received content is not a valid M3U playlist. Check the URL or M3U format.")
      else
        channels ← liftOutcome E (parseM3U text);
        update (setAllChannels channels);;
        update (setFilteredChannels channels);;
        if length channels =? 0 then
          showPageMessage (str "No valid channels found in the playlist. Check the M3U source.")
                          (str "warning");;
          renderChannels E channels
        else
          showPageMessage (str "Loaded " ++ numberToString (length channels) ++ str " channels.")
                          (str "success");;
          renderChannels E channels;;
          populateCategoryFilter
  end.

(** Lines 629-661: [fetchM3UData] from the reply on. *)
Definition fetchM3UDataSettle (E : externals) (r : reply) : action unit :=
  tryCatch (fetchM3UDataTry E r)
    (fun error =>
       showPageMessage (str "Error loading channels: " ++ error) (str "danger");;
       renderChannels E []).

(** Lines 881-898: the click on the favourites button. *)
Definition showFavoritesClick (E : externals) (d : surroundings) : action unit :=
  isFavoritesVisible ← read (fun p => negb (favoritesHidden (hidden p)));
  update (setPlayerHidden true);;
  update (setChannelsHidden true);;
  hidePageMessage;;
  if negb isFavoritesVisible then
    renderFavorites E
  else
    update (setFavoritesHidden true);;
    update (setShowFavoritesBtnText (str "Show Favorites"));;
    applyFilters E d.

(** Lines 709-722: the click on the favourite button of a card. *)
Definition favoriteClick (E : externals) (d : surroundings) (channel : Channel) : action unit :=
  toggleFavorite E d (title channel);;
  favoritesVisible ← read (fun p => negb (favoritesHidden (hidden p)));
  when favoritesVisible (renderFavorites E).

(** Lines 497-505. *)
Definition domContentLoaded : action unit :=
  update (fun p => setMessage (PageMessage (messageText (message p)) (str "warning") false) p);;
  fetchM3UDataStart.

(** What happens to the page: the document is ready, the reply to the
    request arrives, the search box or the category list changes (lines
    875 and 878), and the three kinds of click. *)
Inductive event : Type :=
  | DOMContentLoaded
  | FetchSettled (r : reply)
  | FiltersChanged
  | ShowFavoritesClicked
  | FavoriteClicked (channel : Channel)
  | CardClicked (channel : Channel).

Definition handle (E : externals) (d : surroundings) (e : event) : action unit :=
  match e with
  | DOMContentLoaded => domContentLoaded
  | FetchSettled r => fetchM3UDataSettle E r
  | FiltersChanged => applyFilters E d
  | ShowFavoritesClicked => showFavoritesClick E d
  | FavoriteClicked channel => favoriteClick E d channel
  | CardClicked channel => playChannel d channel
  end.

(** The page after a sequence of events, each with its surroundings; an
    error that a handler throws ends that handler only. *)
Definition after (E : externals) (trace : list (surroundings * event)) (p : page) : page :=
  fold_left (fun q de => snd (handle E de.1 de.2 q)) trace p.

(** The page when the script has run (lines 478-494): the favourites come
    from [localStorage], the message container is a new [div], the rest is
    what the document holds. *)
Definition start (stored : list value) (h : sections) (btn : jsstring)
    (opts : list optionElement) : page :=
  Page [] [] stored false null h (PageMessage [] [] false) btn opts.

(** At most one of the three sections is shown. *)
Definition oneSectionAtMost (h : sections) : bool :=
  match channelsHidden h, favoritesHidden h, playerHidden h with
  | false, false, _ | false, _, false | _, false, false => false
  | _, _, _ => true
  end.


(** * Properties *)

(** ** The matcher is sound *)

Lemma orElse_Some {A} (a : option A) b r :
  orElse a b = Some r -> a = Some r \/ (a = None /\ b tt = Some r).
Proof. destruct a; simpl; intros; [left | right]; auto. Qed.

Section Quantifier.

Variable p : N -> bool.

Lemma rep_unfold g min max s i caps k :
  rep g p min max s i caps k =
  let more (_ : unit) :=
    match max with
    | Some 0 => None
    | _ =>
        match s with
        | c :: s' =>
            if p c then rep g p (pred min) (pred <$> max) s' (S i) caps k
            else None
        | [] => None
        end
    end in
  let stop (_ : unit) :=
    match min with
    | 0 => k (MState s i caps)
    | S _ => None
    end in
  if g then orElse (more tt) stop else orElse (stop tt) more.
Proof. destruct s; reflexivity. Qed.

(** What a quantifier returns, it returns after a run of its class of a
    length within its bounds. *)
Lemma rep_sound g s : forall min max i caps k res,
  rep g p min max s i caps k = Some res ->
  exists w s', s = w ++ s' /\ Forall (fun c => p c = true) w /\ min <= length w
    /\ (forall m, max = Some m -> length w <= m)
    /\ k (MState s' (i + length w) caps) = Some res.
Proof.
  induction s as [|c s IH]; intros min max i caps k res H; rewrite rep_unfold in H;
    cbv zeta in H.
  - assert (Hs : min = 0 /\ k (MState [] i caps) = Some res).
    { destruct g, max as [[|m]|], min; simpl in H; try discriminate; auto;
        destruct (k (MState [] i caps)); simpl in H; try discriminate; auto. }
    destruct Hs as [-> Hk]. exists [], []. simpl. rewrite Nat.add_0_r.
    repeat split; auto; lia.
  - assert (Hs : (min = 0 /\ k (MState (c :: s) i caps) = Some res)
               \/ (max <> Some 0 /\ p c = true
                   /\ rep g p (pred min) (pred <$> max) s (S i) caps k = Some res)).
    { destruct g.
      - apply orElse_Some in H as [H | [_ H]].
        + right. destruct max as [[|m]|]; try discriminate;
            destruct (p c); try discriminate; repeat split; auto; discriminate.
        + left. destruct min; try discriminate. auto.
      - apply orElse_Some in H as [H | [_ H]].
        + left. destruct min; try discriminate. auto.
        + right. destruct max as [[|m]|]; try discriminate;
            destruct (p c); try discriminate; repeat split; auto; discriminate. }
    destruct Hs as [[-> Hk] | (Hmax & Hp & Hr)].
    + exists [], (c :: s). simpl. rewrite Nat.add_0_r. repeat split; auto; lia.
    + apply IH in Hr as (w & s' & -> & Hw & Hmin & Hmx & Hk).
      exists (c :: w), s'. simpl. repeat split; auto.
      * lia.
      * intros m ->. destruct m; [congruence|]. specialize (Hmx m eq_refl). lia.
      * rewrite <- Hk. f_equal. f_equal. lia.
Qed.

End Quantifier.

(** Whatever the backtracking matcher returns is a match of the pattern
    followed by a success of the continuation. *)
Lemma rmatch_sound r : forall st k res,
  rmatch r st k = Some res -> exists st', Matches r st st' /\ k st' = Some res.
Proof.
  induction r as [|p|r1 IH1 r2 IH2|g min max p|r IH|n r IH]; intros st k res H; simpl in H.
  - exists st. split; [constructor | assumption].
  - destruct st as [[|c s] i caps]; simpl in H; [discriminate|].
    destruct (p c) eqn:Hp; [|discriminate].
    eexists. split; [constructor; exact Hp | exact H].
  - apply IH1 in H as (st1 & H1 & H). apply IH2 in H as (st2 & H2 & H).
    exists st2. split; [econstructor; eassumption | assumption].
  - destruct st as [s i caps]. simpl in H.
    apply rep_sound in H as (w & s' & -> & Hw & Hmin & Hmax & Hk).
    eexists. split; [constructor; eassumption | exact Hk].
  - apply orElse_Some in H as [H | [_ H]].
    + apply IH in H as (st' & H1 & H).
      destruct (endIndex st' =? endIndex st) eqn:He; [discriminate|].
      apply Nat.eqb_neq in He.
      exists st'. split; [apply MatchesOpt; assumption | assumption].
    + exists st. split; [apply MatchesSkip | assumption].
  - apply IH in H as (st' & H1 & H).
    eexists. split; [apply MatchesGroup; eassumption | exact H].
Qed.

(** A match consumes a piece of the input and moves the index by its
    length; the captures array keeps its length. *)
Lemma Matches_path r st st' :
  Matches r st st' ->
  exists w, rest st = w ++ rest st' /\ endIndex st' = endIndex st + length w
    /\ length (captures st') = length (captures st).
Proof.
  induction 1 as [st|p c s i caps Hp|r1 r2 st1 st2 st3 _ IH1 _ IH2
                 |g min max p w s i caps Hw Hmin Hmax|r st|r st st' _ IH Hne
                 |n r st st' _ IH]; simpl.
  - exists []. simpl. split_and!; auto.
  - exists [c]. simpl. split_and!; auto. lia.
  - destruct IH1 as (w1 & E1 & I1 & L1), IH2 as (w2 & E2 & I2 & L2).
    exists (w1 ++ w2). rewrite E1, E2, I2, I1, L2, L1, length_app, <- app_assoc.
    split_and!; auto. lia.
  - exists w. auto.
  - exists []. simpl. split_and!; auto.
  - exact IH.
  - destruct IH as (w & E & I & L). exists w. rewrite length_insert. auto.
Qed.

(** A successful search has skipped a prefix and matched at its end. *)
Lemma search_Some re s : forall i j sj st,
  search re s i = Some (j, sj, st) ->
  exists pre, s = pre ++ sj /\ j = i + length pre
    /\ rmatch (pattern re) (MState sj j (replicate (S (groups re)) undefined)) Some
       = Some st.
Proof.
  induction s as [|c s IH]; intros i j sj st H; simpl in H.
  - destruct (rmatch _ _ _) eqn:E; [|discriminate].
    injection H as <- <- <-. exists []. simpl. split_and!; auto.
  - destruct (rmatch _ _ _) eqn:E.
    + injection H as <- <- <-. exists []. simpl. split_and!; auto.
    + apply IH in H as (pre & -> & -> & H). exists (c :: pre). simpl.
      split_and!; auto; lia.
Qed.

Ltac invert H := inversion H; simpl in *; subst; clear H.

Ltac inv_matches :=
  repeat match goal with
  | H : Matches (_ ⋅ _) _ _ |- _ => invert H
  | H : Matches (Group _ _) _ _ |- _ => invert H
  | H : Matches (Class _) _ _ |- _ => invert H
  | H : Matches (Rep _ _ _ _) _ _ |- _ => invert H
  | H : Matches Empty _ _ |- _ => invert H
  end.

(** What a match of [attributeValueRegex] looks like: both groups have
    captured a string, the key is not empty, and the index has moved. *)
Lemma attributeValue_match st st' :
  Matches (pattern attributeValueRegex) st st' ->
  exists k v w,
    k <> [] /\ Forall (fun c => isWordOrDash c = true) k
    /\ captures st' = <[2 := Str v]> (<[1 := Str k]> (captures st))
    /\ rest st = k ++ w ++ rest st'
    /\ endIndex st' = endIndex st + length (k ++ w).
Proof.
  intros H. cbn in H. unfold plus, star in H. inv_matches.
  unfold capture; simpl.
  match goal with H : 1 <= length ?k, H0 : Forall _ ?v0 |- context [take _ (?v0 ++ _)] =>
    exists k, v0; destruct k; [simpl in H; lia|] end.
  match goal with |- context [(?a :: ?k) ++ ?w2 ++ ?c1 :: ?w1 ++ ?c0 :: ?w0 ++ ?c :: _] =>
    exists (w2 ++ c1 :: w1 ++ c0 :: w0 ++ [c]) end.
  split_and!; [discriminate | assumption | | |].
  - f_equal; [|f_equal]; f_equal; apply take_app_length'; simpl; lia.
  - simpl. f_equal. f_equal. rewrite <- !app_assoc. simpl. f_equal. f_equal.
    rewrite <- !app_assoc. simpl. f_equal. rewrite <- !app_assoc. reflexivity.
  - simpl. rewrite !length_app. simpl. rewrite !length_app. simpl.
    rewrite !length_app. simpl. lia.
Qed.

(** ** The attribute loop

    A call of [exec] on [attributeValueRegex] either finds nothing and
    resets [lastIndex], or returns an array of three strings and moves
    [lastIndex] forward, within the string. *)
Lemma exec_attributeValue li s :
  match exec attributeValueRegex li s with
  | (None, li') => li' = 0
  | (Some m, li') =>
      li < li' /\ li' <= length s
      /\ exists whole k v, m = [Str whole; Str k; Str v] /\ k <> []
           /\ Forall (fun c => isWordOrDash c = true) k
  end.
Proof.
  unfold exec. simpl global. cbv iota.
  destruct (length s <? li) eqn:Hlen; [reflexivity|].
  apply Nat.ltb_ge in Hlen.
  destruct (search attributeValueRegex (drop li s) li) as [[[j sj] st]|] eqn:Hs;
    [|reflexivity].
  apply search_Some in Hs as (pre & Hpre & -> & Hm).
  apply rmatch_sound in Hm as (st' & HM & [= <-]).
  apply attributeValue_match in HM as (k & v & w & Hk & Hword & Hcaps & Hrest & Hend).
  simpl in Hcaps, Hrest, Hend.
  assert (Hl : length s = li + length pre + length (k ++ w) + length (rest st')).
  { pose proof (length_drop s li) as Hd.
    rewrite Hpre, length_app, Hrest, !length_app in Hd. rewrite length_app. lia. }
  split_and!.
  - rewrite Hend. destruct k; [congruence|]. simpl. lia.
  - lia.
  - rewrite Hcaps. simpl. eauto 10.
Qed.

(** With fuel for every code unit left and one round more, the loop
    returns, and it leaves [lastIndex] at 0. *)
Lemma attributeLoop_total fuel : forall li s c,
  0 < fuel -> length s < li + fuel ->
  exists c', attributeLoop fuel li s c = Ok (c', 0).
Proof.
  induction fuel as [|fuel IH]; intros li s c Hpos Hfuel; [lia|].
  simpl. pose proof (exec_attributeValue li s) as He.
  destruct (exec attributeValueRegex li s) as [[m|] li'].
  - destruct He as (Hlt & Hle & whole & k & v & -> & _).
    simpl. apply IH; lia.
  - subst li'. eauto.
Qed.

Lemma parseAttributes_total li v c :
  exists c', parseAttributes li v c = Ok (c', 0).
Proof. unfold parseAttributes. apply attributeLoop_total; lia. Qed.

(** ** Loops and steps *)

Section Loops.

Context {S A : Type} (body : S -> A -> outcome S).

(** A loop whose body always returns and keeps an invariant returns and
    keeps it. *)
Lemma forOf_invariant (P : S -> Prop) :
  (forall st x, P st -> exists st', body st x = Ok st' /\ P st') ->
  forall l st, P st -> exists st', forOf body l st = Ok st' /\ P st'.
Proof.
  intros Hbody l. induction l as [|x l IH]; intros st HP; simpl.
  - eauto.
  - destruct (Hbody st x HP) as (st1 & -> & HP1). simpl. apply IH, HP1.
Qed.

Lemma forOf_cons x l st :
  forOf body (x :: l) st = do st' <- body st x; forOf body l st'.
Proof. reflexivity. Qed.

Lemma forOf_nil st :
  forOf body [] st = Ok st.
Proof. reflexivity. Qed.

Lemma forOf_app l1 l2 st :
  forOf body (l1 ++ l2) st = do st' <- forOf body l1 st; forOf body l2 st'.
Proof.
  revert st. induction l1 as [|x l1 IH]; intros st; simpl; [reflexivity|].
  destruct (body st x); simpl; auto.
Qed.

(** The same with an invariant that speaks of the elements seen so far. *)
Lemma forOf_invariant_prefix (P : list A -> S -> Prop) :
  (forall seen st x, P seen st -> exists st', body st x = Ok st' /\ P (seen ++ [x]) st') ->
  forall l seen st, P seen st -> exists st', forOf body l st = Ok st' /\ P (seen ++ l) st'.
Proof.
  intros Hbody l. induction l as [|x l IH]; intros seen st HP; simpl.
  - rewrite app_nil_r. eauto.
  - destruct (Hbody seen st x HP) as (st1 & -> & HP1). simpl.
    replace (seen ++ x :: l) with ((seen ++ [x]) ++ l) by (rewrite <- app_assoc; reflexivity).
    apply IH, HP1.
Qed.

End Loops.

Lemma trimmedGroup_total m n : exists s, trimmedGroup m n = Ok (Str s).
Proof.
  unfold trimmedGroup. destruct (at_ m n) as [| |[|c s]]; simpl; eauto.
Qed.

Lemma completeChannel_eq url c st :
  completeChannel url c st =
  Ok (if validUrl url
      then PState (channels st ++ [setStreamUrl (Str url) c]) None (lastIndex st) (console st)
      else PState (channels st) None (lastIndex st)
             (console st ++ [invalidUrlMessage (setStreamUrl (Str url) c)])).
Proof.
  unfold completeChannel, validUrl.
  change (streamUrl (setStreamUrl (Str url) c)) with (Str url).
  cbn [startsWithOf bind].
  destruct url as [|a url]; [reflexivity|].
  change (truthy (Str (a :: url))) with true. cbn [andb].
  destruct (startsWith (a :: url) (str "http://") || startsWith (a :: url) (str "https://"));
    reflexivity.
Qed.

Lemma titleFallback_truthy v c :
  truthy v = true -> truthy (title (titleFallback v c)) = true.
Proof. unfold titleFallback. destruct (truthy (title c)) eqn:E; auto. Qed.

Lemma Second_parseExtinf_total em li :
  exists c, Second.parseExtinf em li = Ok (c, 0) /\ truthy (title c) = true.
Proof.
  unfold Second.parseExtinf.
  destruct (trimmedGroup_total em 2) as (t & ->). simpl.
  destruct (parseAttributes_total li (Second.orEmpty (at_ em 1)) newChannel) as (c & ->).
  simpl. eexists. split; [reflexivity|]. apply titleFallback_truthy. reflexivity.
Qed.

Lemma First_parseExtinf_total line li :
  li = 0 -> exists c, First.parseExtinf line li = Ok (c, 0).
Proof.
  intros ->. unfold First.parseExtinf.
  destruct (matchRegExp line attributeRegex) as [em|].
  - destruct (trimmedGroup_total em 2) as (t & ->). simpl.
    destruct (parseAttributes_total 0 (at_ em 1) newChannel) as (c & ->).
    simpl. eauto.
  - destruct (matchRegExp line titleRegex) as [tm|]; [|eauto].
    destruct (at_ tm 1) as [| |[|a s]]; simpl; eauto.
Qed.

(** The cases of one round of the second declaration's loop. *)
Lemma Second_lineStep_cases st line :
  Second.lineStep st line = Ok st
  \/ (startsWith (trim line) (str "#EXTINF") = true /\
      exists em c, matchRegExp (trim line) extinfRegex = Some em
        /\ Second.parseExtinf em (lastIndex st) = Ok (c, 0)
        /\ truthy (title c) = true
        /\ Second.lineStep st line = Ok (PState (channels st) (Some c) 0 (console st)))
  \/ (startsWith (trim line) (str "#EXTINF") = true /\
      matchRegExp (trim line) extinfRegex = None
      /\ Second.lineStep st line =
         Ok (PState (channels st) None (lastIndex st)
               (console st ++ [Second.malformedMessage (trim line)])))
  \/ (exists c, currentChannel st = Some c /\ validUrl (trim line) = true
      /\ Second.lineStep st line =
         Ok (PState (channels st ++ [setStreamUrl (Str (trim line)) c]) None
               (lastIndex st) (console st)))
  \/ (exists c, currentChannel st = Some c /\ validUrl (trim line) = false
      /\ Second.lineStep st line =
         Ok (PState (channels st) None (lastIndex st)
               (console st ++ [invalidUrlMessage (setStreamUrl (Str (trim line)) c)]))).
Proof.
  unfold Second.lineStep.
  destruct (negb (truthy (Str (trim line)))); [auto|].
  destruct (startsWith (trim line) (str "#EXTM3U")); [auto|].
  destruct (startsWith (trim line) (str "#EXTINF")) eqn:Hm.
  - destruct (matchRegExp (trim line) extinfRegex) as [em|] eqn:Hre.
    + right; left. split; [reflexivity|].
      destruct (Second_parseExtinf_total em (lastIndex st)) as (c & Hc & Ht).
      exists em, c. rewrite Hc. auto.
    + right; right; left. auto.
  - destruct (currentChannel st) as [c|] eqn:Hcur; [|auto].
    destruct (startsWith (trim line) (str "http")); [|auto].
    rewrite completeChannel_eq.
    destruct (validUrl (trim line)) eqn:Hv.
    + right; right; right; left. eauto.
    + right; right; right; right. eauto.
Qed.

(** ** Totality *)

Lemma Second_lineStep_total st line :
  lastIndex st = 0 -> exists st', Second.lineStep st line = Ok st' /\ lastIndex st' = 0.
Proof.
  intros Hli.
  destruct (Second_lineStep_cases st line)
    as [H|[(_ & em & c & _ & _ & _ & H)|[(_ & _ & H)|[(c & _ & _ & H)|(c & _ & _ & H)]]]];
    rewrite H; eauto.
Qed.

Lemma First_lineStep_total st line :
  lastIndex st = 0 -> exists st', First.lineStep st line = Ok st' /\ lastIndex st' = 0.
Proof.
  intros Hli. unfold First.lineStep.
  destruct (decide (trim line = [])); [eauto|].
  destruct (startsWith line (str "#EXTM3U")); [eauto|].
  destruct (startsWith line (str "#EXTINF")).
  - destruct (First_parseExtinf_total line (lastIndex st) Hli) as (c & ->). simpl. eauto.
  - destruct (currentChannel st) as [c|]; [|eauto].
    destruct (startsWith line (str "http")); [|eauto].
    rewrite completeChannel_eq. destruct (validUrl (trim line)); eauto.
Qed.

Lemma Second_run_total m3uText :
  exists st, Second.run m3uText = Ok st /\ lastIndex st = 0.
Proof.
  apply (forOf_invariant Second.lineStep (fun st => lastIndex st = 0)); [|reflexivity].
  intros st x. apply Second_lineStep_total.
Qed.

Lemma First_run_total m3uText :
  exists st, First.run m3uText = Ok st /\ lastIndex st = 0.
Proof.
  apply (forOf_invariant First.lineStep (fun st => lastIndex st = 0)); [|reflexivity].
  intros st x. apply First_lineStep_total.
Qed.

Lemma Second_parseM3U_returns m3uText : exists cs, Second.parseM3U m3uText = Ok cs.
Proof.
  unfold Second.parseM3U.
  destruct (Second_run_total m3uText) as (st & -> & _). simpl. eauto.
Qed.

Lemma First_parseM3U_returns m3uText : exists cs, First.parseM3U m3uText = Ok cs.
Proof.
  unfold First.parseM3U.
  destruct (First_run_total m3uText) as (st & -> & _). simpl. eauto.
Qed.


(** ** The invariant of the output *)

Lemma validUrl_wellFormed url c :
  validUrl url = true -> truthy (title c) = true ->
  wellFormed (setStreamUrl (Str url) c).
Proof.
  intros Hu Ht. unfold wellFormed. simpl.
  destruct (title c) as [| |[|a t]]; try discriminate.
  exists (a :: t), url. split_and!; auto.
  apply orb_true_iff in Hu. exact Hu.
Qed.

Lemma Second_lineStep_wellFormed st line :
  Forall wellFormed (channels st) ->
  (forall c, currentChannel st = Some c -> truthy (title c) = true) ->
  exists st', Second.lineStep st line = Ok st'
    /\ Forall wellFormed (channels st')
    /\ (forall c, currentChannel st' = Some c -> truthy (title c) = true).
Proof.
  intros Hcs Hcur.
  destruct (Second_lineStep_cases st line)
    as [H|[(_ & em & c & _ & _ & Ht & H)|[(_ & _ & H)|[(c & Hc & Hv & H)|(c & _ & _ & H)]]]];
    rewrite H; eexists; (split; [reflexivity|]); simpl; split; auto; try discriminate.
  - intros c' [= <-]. exact Ht.
  - apply Forall_app. split; [assumption|].
    constructor; [|constructor]. apply validUrl_wellFormed; auto.
Qed.

(** ** The first scenario *)

(** C4.  On the input of scenario 1 [parseM3U] returns exactly one channel,
    with title [Channel One], stream URL [http://x/stream1.m3u8], logo
    [http://x/l.png], group title [News] and tvg id [c1] (and the three
    attributes in [rawAttributes]); so does the first declaration. *)
Theorem parseM3U_scenario1 :
  parseM3U scenario1 = Ok [channelOne] /\ First.parseM3U scenario1 = Ok [channelOne].
Proof. split; vm_compute; reflexivity. Qed.

(** ** Lines *)

Lemma split_singleLine l : singleLine l = true -> split LF l = [l].
Proof.
  induction l as [|c l IH]; simpl; [reflexivity|].
  intros [Hc Hl]%andb_true_iff. unfold isNot in Hc.
  destruct (c =? LF)%N; [discriminate|]. rewrite IH; auto.
Qed.

Lemma split_app_LF l r :
  singleLine l = true -> split LF (l ++ LF :: r) = l :: split LF r.
Proof.
  induction l as [|c l IH]; simpl; [reflexivity|].
  intros [Hc Hl]%andb_true_iff. unfold isNot in Hc.
  destruct (c =? LF)%N; [discriminate|]. rewrite IH; auto.
Qed.

Lemma split_unlines ls :
  ls <> [] -> Forall (fun l => singleLine l = true) ls -> split LF (unlines ls) = ls.
Proof.
  induction ls as [|l ls IH]; [congruence|]. intros _ Hls.
  apply Forall_cons in Hls as [Hl Hls].
  destruct ls as [|l2 ls]; simpl.
  - apply split_singleLine, Hl.
  - rewrite split_app_LF by exact Hl. f_equal. apply IH; [discriminate | exact Hls].
Qed.

Lemma Second_run_unlines ls :
  Forall (fun l => singleLine l = true) ls ->
  Second.run (unlines ls) = forOf Second.lineStep ls initial.
Proof.
  intros Hls. unfold Second.run. destruct ls as [|l ls]; [reflexivity|].
  rewrite split_unlines; [reflexivity | discriminate | exact Hls].
Qed.

Lemma First_run_unlines ls :
  Forall (fun l => singleLine l = true) ls ->
  First.run (unlines ls) = forOf First.lineStep ls initial.
Proof.
  intros Hls. unfold First.run. destruct ls as [|l ls]; [reflexivity|].
  rewrite split_unlines; [reflexivity | discriminate | exact Hls].
Qed.

Lemma Second_runLines_total ls :
  exists st, forOf Second.lineStep ls initial = Ok st /\ lastIndex st = 0.
Proof.
  apply (forOf_invariant Second.lineStep (fun st => lastIndex st = 0)); [|reflexivity].
  intros st x. apply Second_lineStep_total.
Qed.

Lemma startsWith_prefix s p : startsWith s p = true <-> exists r, s = p ++ r.
Proof.
  revert s. induction p as [|a p IH]; intros s; simpl.
  - split; [intros _; exists s; reflexivity | reflexivity].
  - destruct s as [|b s].
    + split; [discriminate | intros (r & [=])].
    + rewrite andb_true_iff, N.eqb_eq, IH. split.
      * intros (-> & r & ->). eauto.
      * intros (r & [= -> ->]). eauto.
Qed.

Lemma startsWith_app p r : startsWith (p ++ r) p = true.
Proof. apply startsWith_prefix. eauto. Qed.

(** A line that starts with [#EXTINF] does not start with [#EXTM3U] and is
    not blank, and does not start with [http]. *)
Lemma startsWith_EXTINF s :
  startsWith s (str "#EXTINF") = true ->
  negb (truthy (Str s)) = false /\ startsWith s (str "#EXTM3U") = false
  /\ startsWith s (str "http") = false.
Proof.
  intros (r & ->)%startsWith_prefix. split_and!; reflexivity.
Qed.

(** ** Malformed metadata lines *)

Lemma Second_lineStep_malformed st bad :
  startsWith (trim bad) (str "#EXTINF") = true ->
  matchRegExp (trim bad) extinfRegex = None ->
  Second.lineStep st bad =
  Ok (PState (channels st) None (lastIndex st)
        (console st ++ [Second.malformedMessage (trim bad)])).
Proof.
  intros Hm Hre. unfold Second.lineStep.
  destruct (startsWith_EXTINF _ Hm) as (-> & -> & _). rewrite Hm, Hre. reflexivity.
Qed.

Lemma Second_lineStep_url_ignored st url :
  currentChannel st = None ->
  startsWith (trim url) (str "http") = true ->
  Second.lineStep st url = Ok st.
Proof.
  intros Hcur Hu. unfold Second.lineStep. rewrite Hcur.
  destruct (negb (truthy (Str (trim url)))); [reflexivity|].
  destruct (startsWith (trim url) (str "#EXTM3U")); [reflexivity|].
  destruct (startsWith (trim url) (str "#EXTINF")) eqn:Hm; [|reflexivity].
  apply startsWith_EXTINF in Hm as (_ & _ & Hm). congruence.
Qed.

(** ** Order *)

Lemma Second_lineStep_metadata st line em c li :
  startsWith (trim line) (str "#EXTINF") = true ->
  matchRegExp (trim line) extinfRegex = Some em ->
  Second.parseExtinf em (lastIndex st) = Ok (c, li) ->
  Second.lineStep st line = Ok (PState (channels st) (Some c) li (console st)).
Proof.
  intros Hm Hre Hc. unfold Second.lineStep.
  destruct (startsWith_EXTINF _ Hm) as (-> & -> & _). rewrite Hm, Hre, Hc. reflexivity.
Qed.



(** ** Evaluating the matcher *)

Section Runs.

Variable p : N -> bool.

(** A greedy quantifier takes a whole run of its class when the rest of the
    pattern matches after the run. *)
Lemma rep_greedy_all w : forall min s i caps k res,
  Forall (fun c => p c = true) w ->
  match s with c :: _ => p c = false | [] => True end ->
  min <= length w ->
  k (MState s (i + length w) caps) = Some res ->
  rep true p min None (w ++ s) i caps k = Some res.
Proof.
  induction w as [|c w IH]; intros min s i caps k res Hw Hs Hmin Hk.
  - simpl in *. assert (min = 0) as -> by lia. rewrite Nat.add_0_r in Hk.
    rewrite rep_unfold. cbv zeta.
    destruct s as [|c s]; simpl; [exact Hk|]. rewrite Hs. simpl. exact Hk.
  - apply Forall_cons in Hw as [Hc Hw].
    rewrite <- app_comm_cons, rep_unfold. cbv zeta. rewrite Hc.
    cbn [fmap option_fmap option_map].
    rewrite (IH (pred min) s (S i) caps k res); auto.
    + simpl in Hmin. lia.
    + rewrite <- Hk. simpl. f_equal. f_equal. lia.
Qed.

(** A lazy quantifier stops at the first place where the rest of the
    pattern matches. *)
Lemma rep_lazy_until w : forall s i caps k res,
  Forall (fun c => p c = true) w ->
  (forall j, j < length w -> k (MState (drop j w ++ s) (i + j) caps) = None) ->
  k (MState s (i + length w) caps) = Some res ->
  rep false p 0 None (w ++ s) i caps k = Some res.
Proof.
  induction w as [|c w IH]; intros s i caps k res Hw Hnone Hk.
  - simpl in *. rewrite Nat.add_0_r in Hk. rewrite rep_unfold. cbv zeta.
    rewrite Hk. reflexivity.
  - apply Forall_cons in Hw as [Hc Hw].
    rewrite <- app_comm_cons, rep_unfold. cbv zeta.
    pose proof (Hnone 0 ltac:(simpl; lia)) as H0. simpl in H0.
    rewrite Nat.add_0_r in H0. rewrite H0. cbn [orElse]. rewrite Hc.
    cbn [fmap option_fmap option_map Nat.pred].
    apply IH; auto.
    + intros j Hj. specialize (Hnone (S j) ltac:(simpl; lia)). simpl in Hnone.
      rewrite <- Hnone. f_equal. f_equal. lia.
    + rewrite <- Hk. simpl. f_equal. f_equal. lia.
Qed.

End Runs.

Lemma search_unfold re s i :
  search re s i =
  match rmatch (pattern re) (MState s i (replicate (S (groups re)) undefined)) Some with
  | Some st => Some (i, s, st)
  | None =>
      match s with
      | [] => None
      | _ :: s' => search re s' (S i)
      end
  end.
Proof. destruct s; reflexivity. Qed.

Lemma search_here re s i st :
  rmatch (pattern re) (MState s i (replicate (S (groups re)) undefined)) Some = Some st ->
  search re s i = Some (i, s, st).
Proof. intros H. rewrite search_unfold, H. reflexivity. Qed.

Lemma matchRegExp_here re s st :
  global re = false ->
  rmatch (pattern re) (MState s 0 (replicate (S (groups re)) undefined)) Some = Some st ->
  matchRegExp s re = Some (<[0 := Str (take (endIndex st) s)]> (captures st)).
Proof.
  intros Hg H. unfold matchRegExp, exec. rewrite Hg.
  change (length s <? 0) with false. cbv iota. change (drop 0 s) with s.
  rewrite (search_here re s 0 st H). cbn [fst]. rewrite Nat.sub_0_r. reflexivity.
Qed.

(** Every string splits into its longest prefix of a class and the rest. *)
Lemma span_exists (p : N -> bool) (t : list N) :
  exists w s, t = w ++ s /\ Forall (fun c => p c = true) w
    /\ match s with c :: _ => p c = false | [] => True end.
Proof.
  induction t as [|c t (w & s & -> & Hw & Hs)].
  - exists [], []. auto.
  - destruct (p c) eqn:Hc.
    + exists (c :: w), s. auto.
    + exists [], (c :: w ++ s). auto.
Qed.

Lemma isDigit_not_dash c : isDigit c = true -> (c =? dash)%N = false.
Proof.
  unfold isDigit, dash. intros [H1 H2]%andb_true_iff.
  apply N.leb_le in H1. apply N.eqb_neq. lia.
Qed.

Lemma isDigit_not_space c : isDigit c = true -> isSpace c = false.
Proof.
  unfold isDigit. intros [H1 H2]%andb_true_iff.
  apply N.leb_le in H1, H2.
  unfold isSpace, isWhiteSpace, isLineTerminator.
  repeat (apply orb_false_iff; split); try (apply N.eqb_neq; lia).
  apply andb_false_iff. left. apply N.leb_gt. lia.
Qed.

Lemma rmatch_lit l : forall r s i caps k,
  rmatch (lit l ⋅ r) (MState (l ++ s) i caps) k
  = rmatch r (MState s (i + length l) caps) k.
Proof.
  induction l as [|c l IH]; intros r s i caps k.
  - simpl. rewrite Nat.add_0_r. reflexivity.
  - change (rmatch (lit (c :: l) ⋅ r) (MState ((c :: l) ++ s) i caps) k)
      with (if isChar c c then rmatch (lit l ⋅ r) (MState (l ++ s) (S i) caps) k else None).
    unfold isChar. rewrite N.eqb_refl, IH. simpl. f_equal. f_equal. lia.
Qed.

Lemma rmatch_class_hit p c s i caps k :
  p c = true ->
  rmatch (Class p) (MState (c :: s) i caps) k = k (MState s (S i) caps).
Proof. intros H. simpl. rewrite H. reflexivity. Qed.

Lemma rmatch_class_miss p s i caps k :
  match s with c :: _ => p c = false | [] => True end ->
  rmatch (Class p) (MState s i caps) k = None.
Proof. intros H. destruct s; simpl; [reflexivity|]. rewrite H. reflexivity. Qed.

Lemma rmatch_Rep g min max p s i caps k :
  rmatch (Rep g min max p) (MState s i caps) k = rep g p min max s i caps k.
Proof. reflexivity. Qed.

(** [c?] on a code unit of the class, when the rest matches after it. *)
Lemma rmatch_opt_hit p c s i caps k res :
  p c = true -> k (MState s (S i) caps) = Some res ->
  rmatch (opt p) (MState (c :: s) i caps) k = Some res.
Proof.
  intros Hc Hk. unfold opt. rewrite rmatch_Rep, rep_unfold. cbv zeta. rewrite Hc.
  cbn [fmap option_fmap option_map Nat.pred]. rewrite rep_unfold. cbv zeta.
  cbn [orElse]. rewrite Hk. reflexivity.
Qed.

(** [c?] on anything else. *)
Lemma rmatch_opt_miss p s i caps k :
  match s with c :: _ => p c = false | [] => True end ->
  rmatch (opt p) (MState s i caps) k = k (MState s i caps).
Proof.
  intros Hs. unfold opt. rewrite rmatch_Rep, rep_unfold. cbv zeta.
  destruct s as [|c s]; [reflexivity|]. rewrite Hs. reflexivity.
Qed.

Lemma rmatch_plus_all p w s i caps k res :
  w <> [] -> Forall (fun c => p c = true) w ->
  match s with c :: _ => p c = false | [] => True end ->
  k (MState s (i + length w) caps) = Some res ->
  rmatch (plus p) (MState (w ++ s) i caps) k = Some res.
Proof.
  intros Hne Hw Hs Hk. unfold plus. rewrite rmatch_Rep.
  apply rep_greedy_all; auto. destruct w; [congruence | simpl; lia].
Qed.

Lemma rmatch_star_all p w s i caps k res :
  Forall (fun c => p c = true) w ->
  match s with c :: _ => p c = false | [] => True end ->
  k (MState s (i + length w) caps) = Some res ->
  rmatch (star p) (MState (w ++ s) i caps) k = Some res.
Proof.
  intros Hw Hs Hk. unfold star. rewrite rmatch_Rep.
  apply rep_greedy_all; auto. lia.
Qed.

Lemma rmatch_plus_miss p s i caps k :
  match s with c :: _ => p c = false | [] => True end ->
  rmatch (plus p) (MState s i caps) k = None.
Proof.
  intros Hs. unfold plus. rewrite rmatch_Rep, rep_unfold. cbv zeta.
  destruct s as [|c s]; [reflexivity|]. rewrite Hs. reflexivity.
Qed.

(** The last group of the patterns of lines 41 and 541 takes the title up
    to its first line terminator. *)
Lemma rmatch_title n w s i caps :
  Forall (fun c => isDot c = true) w ->
  match s with c :: _ => isDot c = false | [] => True end ->
  rmatch (Group n (star isDot)) (MState (w ++ s) i caps) Some
  = Some (MState s (i + length w) (<[n := Str w]> caps)).
Proof.
  intros Hw Hs. change (rmatch (Group n (star isDot)) (MState (w ++ s) i caps) Some)
    with (rep true isDot 0 None (w ++ s) i caps
            (fun st' => Some (capture n (MState (w ++ s) i caps) st'))).
  apply rep_greedy_all; auto; [lia|].
  unfold capture. simpl. f_equal. f_equal. f_equal. f_equal.
  apply take_app_length'. lia.
Qed.

Lemma rmatch_Seq r1 r2 st k :
  rmatch (r1 ⋅ r2) st k = rmatch r1 st (fun st' => rmatch r2 st' k).
Proof. reflexivity. Qed.

Lemma rmatch_Opt r st k :
  rmatch (Opt r) st k
  = orElse (rmatch r st (fun st' => if endIndex st' =? endIndex st then None else k st'))
      (fun _ => k st).
Proof. reflexivity. Qed.

Lemma rmatch_Group n r st k :
  rmatch (Group n r) st k = rmatch r st (fun st' => k (capture n st st')).
Proof. reflexivity. Qed.

(** The three patterns on metadata lines begin alike: the marker, the
    optional minus sign and the digits of the duration. *)
Lemma rmatch_duration (R : regex) (neg : bool) d tail caps res :
  d <> [] -> Forall (fun c => isDigit c = true) d ->
  match tail with c :: _ => isDigit c = false | [] => True end ->
  rmatch R (MState tail (8 + (if neg then 1 else 0) + length d) caps) Some = Some res ->
  rmatch (lit (str "#EXTINF:") ⋅ opt (isChar dash) ⋅ plus isDigit ⋅ R)
    (MState (str "#EXTINF:" ++ (if neg then [dash] else []) ++ d ++ tail) 0 caps) Some
  = Some res.
Proof.
  intros Hne Hd Htail HR.
  rewrite rmatch_lit. change (0 + length (str "#EXTINF:")) with 8.
  rewrite rmatch_Seq. destruct neg.
  - apply rmatch_opt_hit; [reflexivity|].
    rewrite rmatch_Seq. apply rmatch_plus_all; auto.
  - change ([] ++ d ++ tail) with (d ++ tail).
    rewrite rmatch_opt_miss.
    + rewrite rmatch_Seq. apply rmatch_plus_all; auto.
    + destruct d as [|c d]; [congruence|]. apply Forall_cons in Hd as [Hc _].
      simpl. apply isDigit_not_dash, Hc.
Qed.

Lemma extinf_tail attrs w s i caps :
  Forall (fun c => (isNot comma c && isDot c) = true) attrs ->
  headNotSpace attrs = true ->
  Forall (fun c => isDot c = true) w ->
  match s with c :: _ => isDot c = false | [] => True end ->
  rmatch (Opt (plus isSpace ⋅ Group 1 (lazyStar isDot)) ⋅ Class (isChar comma)
          ⋅ Group 2 (star isDot))
    (MState (attributesPart attrs ++ comma :: w ++ s) i caps) Some
  = Some (MState s (i + length (attributesPart attrs) + 1 + length w)
            (plainCaptures attrs w caps)).
Proof.
  intros Hattrs Hhead Hw Hs. rewrite rmatch_Seq, rmatch_Opt.
  destruct attrs as [|a attrs].
  - change (attributesPart [] ++ comma :: w ++ s) with (comma :: w ++ s).
    rewrite rmatch_Seq, rmatch_plus_miss by reflexivity. cbn [orElse].
    rewrite rmatch_Seq, rmatch_class_hit by reflexivity.
    rewrite rmatch_title by assumption. simpl. do 2 f_equal. lia.
  - change (attributesPart (a :: attrs) ++ comma :: w ++ s)
      with ([space] ++ (a :: attrs) ++ comma :: w ++ s).
    rewrite rmatch_Seq.
    erewrite rmatch_plus_all; [reflexivity | discriminate | repeat constructor | | ].
    { simpl in Hhead. simpl. destruct (isSpace a); [discriminate | reflexivity]. }
    rewrite rmatch_Group. unfold lazyStar. rewrite rmatch_Rep.
    apply rep_lazy_until.
    + eapply Forall_impl; [exact Hattrs|]. simpl. intros c [_ H]%andb_true_iff. exact H.
    + intros j Hj. unfold capture. cbn [endIndex rest captures].
      destruct (lookup_lt_is_Some_2 (a :: attrs) j Hj) as [c Hc].
      rewrite (drop_S _ _ _ Hc).
      destruct (_ =? _); [reflexivity|].
      rewrite rmatch_Seq, rmatch_class_miss; [reflexivity|].
      apply list_elem_of_lookup_2 in Hc.
      rewrite Forall_forall in Hattrs. apply Hattrs in Hc.
      apply andb_true_iff in Hc as [Hc _]. unfold isNot in Hc. unfold isChar.
      simpl. destruct (c =? comma)%N; [discriminate | reflexivity].
    + unfold capture. cbn [endIndex rest captures].
      replace (i + length [space] + length (a :: attrs) =? i) with false
        by (symmetry; apply Nat.eqb_neq; simpl; lia).
      rewrite rmatch_Seq, rmatch_class_hit by reflexivity.
      rewrite rmatch_title by assumption. unfold plainCaptures.
      f_equal. f_equal; [simpl; lia|]. f_equal. f_equal. f_equal.
      apply take_app_length'. simpl. lia.
Qed.

Lemma attribute_tail attrs w s i caps :
  Forall (fun c => (isNot comma c && isDot c) = true) attrs ->
  Forall (fun c => isDot c = true) w ->
  match s with c :: _ => isDot c = false | [] => True end ->
  rmatch (opt (isChar space) ⋅ Opt (Group 1 (plus (isNot comma))) ⋅ opt (isChar comma)
          ⋅ Group 2 (star isDot))
    (MState (attributesPart attrs ++ comma :: w ++ s) i caps) Some
  = Some (MState s (i + length (attributesPart attrs) + 1 + length w)
            (plainCaptures attrs w caps)).
Proof.
  intros Hattrs Hw Hs. rewrite rmatch_Seq.
  destruct attrs as [|a attrs].
  - change (attributesPart [] ++ comma :: w ++ s) with (comma :: w ++ s).
    rewrite rmatch_opt_miss by reflexivity.
    rewrite rmatch_Seq, rmatch_Opt, rmatch_Group, rmatch_plus_miss by reflexivity.
    cbn [orElse]. rewrite rmatch_Seq.
    erewrite rmatch_opt_hit; [reflexivity | reflexivity |].
    rewrite rmatch_title by assumption. simpl. do 2 f_equal. lia.
  - change (attributesPart (a :: attrs) ++ comma :: w ++ s)
      with (space :: (a :: attrs) ++ comma :: w ++ s).
    apply rmatch_opt_hit; [reflexivity|].
    rewrite rmatch_Seq, rmatch_Opt, rmatch_Group.
    erewrite rmatch_plus_all; [reflexivity | discriminate | | reflexivity |].
    { eapply Forall_impl; [exact Hattrs|]. simpl. intros c [H _]%andb_true_iff. exact H. }
    unfold capture. cbn [endIndex rest captures].
    replace (S i + length (a :: attrs) =? S i) with false
      by (symmetry; apply Nat.eqb_neq; simpl; lia).
    rewrite rmatch_Seq.
    erewrite rmatch_opt_hit; [reflexivity | reflexivity |].
    rewrite rmatch_title by assumption. unfold plainCaptures.
    f_equal. f_equal; [simpl; lia|]. f_equal. f_equal. f_equal.
    apply take_app_length'. simpl. lia.
Qed.

Lemma plainParts_spec d attrs :
  plainParts d attrs = true ->
  d <> [] /\ Forall (fun c => isDigit c = true) d
  /\ Forall (fun c => (isNot comma c && isDot c) = true) attrs
  /\ headNotSpace attrs = true.
Proof.
  unfold plainParts. rewrite !andb_true_iff, negb_true_iff, bool_decide_eq_false.
  rewrite !forallb_forall, !Forall_forall.
  intros [[[H1 H2] H3] H4]. split_and!; auto.
  - intros c Hc. apply H2, list_elem_of_In, Hc.
  - intros c Hc. apply H3, list_elem_of_In, Hc.
Qed.

Lemma attributesPart_head attrs t :
  match attributesPart attrs ++ comma :: t with
  | c :: _ => isDigit c = false
  | [] => True
  end.
Proof. destruct attrs; reflexivity. Qed.

(** [extinfRegex] on a plain metadata line: the attributes, if any, are
    group 1 and the title up to its first line terminator is group 2. *)
Lemma extinf_metadataLine neg d attrs w s :
  plainParts d attrs = true ->
  Forall (fun c => isDot c = true) w ->
  match s with c :: _ => isDot c = false | [] => True end ->
  exists whole,
    matchRegExp (metadataLine neg d attrs (w ++ s)) extinfRegex
    = Some (plainMatch whole attrs w).
Proof.
  intros (Hne & Hd & Hattrs & Hhead)%plainParts_spec Hw Hs.
  eexists. unfold metadataLine.
  erewrite matchRegExp_here; [|reflexivity|].
  2:{ apply rmatch_duration; auto; [apply attributesPart_head|].
      apply extinf_tail; assumption. }
  unfold plainMatch, plainCaptures. destruct attrs; reflexivity.
Qed.

(** [attributeRegex] on a plain metadata line: the same captures. *)
Lemma attribute_metadataLine neg d attrs w s :
  plainParts d attrs = true ->
  Forall (fun c => isDot c = true) w ->
  match s with c :: _ => isDot c = false | [] => True end ->
  exists whole,
    matchRegExp (metadataLine neg d attrs (w ++ s)) attributeRegex
    = Some (plainMatch whole attrs w).
Proof.
  intros (Hne & Hd & Hattrs & Hhead)%plainParts_spec Hw Hs.
  eexists. unfold metadataLine.
  erewrite matchRegExp_here; [|reflexivity|].
  2:{ apply rmatch_duration; auto; [apply attributesPart_head|].
      apply attribute_tail; assumption. }
  unfold plainMatch, plainCaptures. destruct attrs; reflexivity.
Qed.

(** ** Trimming *)

Lemma trimStart_app_notSpace a c b :
  isSpace c = false -> trimStart (a ++ c :: b) = trimStart a ++ c :: b.
Proof.
  intros Hc. induction a as [|x a IH]; simpl.
  - rewrite Hc. reflexivity.
  - destruct (isSpace x); [exact IH | reflexivity].
Qed.

Lemma trimStart_app_space ws l :
  Forall (fun c => isSpace c = true) ws -> trimStart (ws ++ l) = trimStart l.
Proof.
  induction 1 as [|c ws Hc _ IH]; simpl; [reflexivity|]. rewrite Hc. exact IH.
Qed.

Lemma trimStart_suffix l :
  exists ws, l = ws ++ trimStart l /\ Forall (fun c => isSpace c = true) ws.
Proof.
  induction l as [|c l (ws & IH & Hws)]; simpl.
  - exists []. auto.
  - destruct (isSpace c) eqn:Hc.
    + exists (c :: ws). split; [simpl; congruence | constructor; assumption].
    + exists []. auto.
Qed.

Lemma trimEnd_app_notSpace l c r :
  isSpace c = false -> trimEnd (l ++ c :: r) = l ++ c :: trimEnd r.
Proof.
  intros Hc. unfold trimEnd.
  rewrite rev_app_distr. simpl. rewrite <- app_assoc. simpl.
  rewrite trimStart_app_notSpace by exact Hc.
  rewrite rev_app_distr. simpl. rewrite rev_involutive, <- app_assoc. reflexivity.
Qed.

Lemma trimEnd_app_space l ws :
  Forall (fun c => isSpace c = true) ws -> trimEnd (l ++ ws) = trimEnd l.
Proof.
  intros Hws. unfold trimEnd. rewrite rev_app_distr, trimStart_app_space; [reflexivity|].
  apply Forall_forall. intros c Hc. rewrite Forall_forall in Hws. apply Hws.
  apply list_elem_of_In. apply list_elem_of_In, in_rev in Hc. exact Hc.
Qed.

Lemma trimEnd_prefix l :
  exists ws, l = trimEnd l ++ ws /\ Forall (fun c => isSpace c = true) ws.
Proof.
  unfold trimEnd. destruct (trimStart_suffix (rev l)) as (ws & E & Hws).
  exists (rev ws). split.
  - rewrite <- rev_app_distr, <- E, rev_involutive. reflexivity.
  - apply Forall_forall. intros c Hc. rewrite Forall_forall in Hws. apply Hws.
    apply list_elem_of_In, in_rev, list_elem_of_In, Hc.
Qed.

Lemma trim_metadataLine neg d attrs t :
  trim (metadataLine neg d attrs t) = metadataLine neg d attrs (trimEnd t).
Proof.
  unfold trim, metadataLine.
  change (trimStart (str "#EXTINF:" ++ ?x)) with (str "#EXTINF:" ++ x).
  rewrite !app_assoc. apply trimEnd_app_notSpace. reflexivity.
Qed.

(** ** URL lines *)

Lemma validUrl_classify u :
  validUrl u = true ->
  negb (truthy (Str u)) = false /\ startsWith u (str "#EXTM3U") = false
  /\ startsWith u (str "#EXTINF") = false /\ startsWith u (str "http") = true.
Proof.
  unfold validUrl. intros [H|H]%orb_true_iff;
    apply startsWith_prefix in H as (r & ->); split_and!; reflexivity.
Qed.

Lemma Second_lineStep_url st url c :
  currentChannel st = Some c -> validUrl (trim url) = true ->
  Second.lineStep st url =
  Ok (PState (channels st ++ [setStreamUrl (Str (trim url)) c]) None
        (lastIndex st) (console st)).
Proof.
  intros Hc Hv. unfold Second.lineStep.
  destruct (validUrl_classify _ Hv) as (-> & -> & -> & ->). rewrite Hc.
  rewrite completeChannel_eq, Hv. reflexivity.
Qed.

(** ** The shape of a line that the patterns match *)

Lemma Matches_lit l : forall st st',
  Matches (lit l) st st' -> rest st = l ++ rest st'.
Proof.
  induction l as [|c l IH]; intros st st' H; simpl in H.
  - invert H. reflexivity.
  - inv_matches.
    match goal with H : Matches (lit l) _ _ |- _ => apply IH in H; simpl in H; rewrite H end.
    match goal with H : isChar c _ = true |- _ =>
      unfold isChar in H; apply N.eqb_eq in H; subst end.
    reflexivity.
Qed.

(** After the marker a matched line has a duration: digits, after an
    optional minus sign. *)
Lemma Matches_duration l R st st' :
  Matches (lit l ⋅ opt (isChar dash) ⋅ plus isDigit ⋅ R) st st' ->
  exists r, rest st = l ++ r /\ hasDuration r = true.
Proof.
  intros H. unfold opt, plus in H. inversion H; subst; clear H.
  match goal with H : Matches (lit _) _ ?st2 |- _ =>
    apply Matches_lit in H; exists (rest st2); split; [exact H|]; clear H end.
  inv_matches.
  match goal with
  | Hd : Forall (fun c => isDigit c = true) ?wd, Hn : 1 <= length ?wd,
    Hs : Forall (fun c => isChar dash c = true) ?ws,
    Hm : forall m, Some 1 = Some m -> length ?ws <= m |- _ =>
      destruct wd as [|c0 wd]; [simpl in Hn; lia|];
      apply Forall_cons in Hd as [Hc0 _];
      destruct ws as [|c ws]; simpl;
      [ rewrite Hc0; reflexivity
      | apply Forall_cons in Hs as [Hc _]; unfold isChar in Hc; rewrite Hc;
        specialize (Hm 1 eq_refl); destruct ws; [|simpl in Hm; lia];
        simpl; rewrite Hc0; apply orb_true_r ]
  end.
Qed.

Lemma matchRegExp_shape re R s em :
  pattern re = lit (str "#EXTINF:") ⋅ opt (isChar dash) ⋅ plus isDigit ⋅ R ->
  matchRegExp s re = Some em ->
  exists pre r, s = pre ++ str "#EXTINF:" ++ r /\ hasDuration r = true.
Proof.
  intros Hre H. unfold matchRegExp, exec in H.
  destruct (length s <? (if global re then 0 else 0)); [discriminate|].
  destruct (search re _ _) as [[[j sj] st]|] eqn:Hs; [|discriminate].
  apply search_Some in Hs as (pre & Hpre & _ & Hm).
  apply rmatch_sound in Hm as (st' & HM & _). rewrite Hre in HM.
  apply Matches_duration in HM as (r & E & Hr). cbn [rest] in E.
  exists (take (if global re then 0 else 0) s ++ pre), r.
  rewrite <- app_assoc, <- E, <- Hpre, take_drop. auto.
Qed.

Lemma hasDuration_app r ws : hasDuration r = true -> hasDuration (r ++ ws) = true.
Proof.
  destruct r as [|c [|c' r]]; simpl; try discriminate; auto.
  rewrite andb_false_r, orb_false_r. intros ->. reflexivity.
Qed.

Lemma trim_EXTINF r : trim (str "#EXTINF:" ++ r) = str "#EXTINF:" ++ trimEnd r.
Proof.
  transitivity (trimEnd (str "#EXTINF" ++ 58%N :: r)); [reflexivity|].
  rewrite trimEnd_app_notSpace by reflexivity. reflexivity.
Qed.

(** A line [#EXTINF:r] whose [r] has no duration and no further [#] is
    matched by neither pattern for metadata lines. *)
Lemma no_duration_no_match re R r :
  pattern re = lit (str "#EXTINF:") ⋅ opt (isChar dash) ⋅ plus isDigit ⋅ R ->
  hasDuration r = false -> forallb (isNot hash) r = true ->
  matchRegExp (trim (str "#EXTINF:" ++ r)) re = None.
Proof.
  intros Hre Hdur Hhash.
  destruct (matchRegExp _ re) as [em|] eqn:Hm; [exfalso | reflexivity].
  apply (matchRegExp_shape re R) in Hm as (pre & r' & E & Hr'); [|exact Hre].
  rewrite trim_EXTINF in E.
  destruct (trimEnd_prefix r) as (ws & Er & _).
  destruct pre as [|p0 pre].
  - change ([] ++ str "#EXTINF:" ++ r') with (str "#EXTINF:" ++ r') in E.
    apply app_inv_head in E. rewrite Er, E, hasDuration_app in Hdur by exact Hr'.
    discriminate.
  - assert (Hin : hash ∈ str "EXTINF:" ++ trimEnd r).
    { assert (E' : str "EXTINF:" ++ trimEnd r = pre ++ hash :: str "EXTINF:" ++ r')
        by exact (f_equal (@tail N) E).
      rewrite E'. apply elem_of_app. right. left. }
    apply elem_of_app in Hin as [Hin | Hin].
    + vm_compute in Hin. repeat (apply elem_of_cons in Hin as [Hin|Hin]; [discriminate|]).
      apply elem_of_nil in Hin. exact Hin.
    + rewrite forallb_forall in Hhash. specialize (Hhash hash).
      assert (In hash r) as Hr.
      { rewrite Er. apply in_or_app. left. apply list_elem_of_In, Hin. }
      apply Hhash in Hr. discriminate.
Qed.

(** ** Plain metadata lines *)

Lemma isDot_notLF c : isDot c = true -> isNot LF c = true.
Proof.
  unfold isDot, isLineTerminator, isNot, LF.
  destruct (c =? 10)%N; [discriminate | reflexivity].
Qed.

Lemma isDigit_notLF c : isDigit c = true -> isNot LF c = true.
Proof.
  unfold isDigit, isNot, LF. intros [H1 H2]%andb_true_iff.
  apply N.leb_le in H1. apply negb_true_iff, N.eqb_neq. lia.
Qed.

Lemma singleLine_app a b : singleLine (a ++ b) = singleLine a && singleLine b.
Proof. apply forallb_app. Qed.

Lemma singleLine_metadataLine neg d attrs t :
  plainParts d attrs = true -> singleLine t = true ->
  singleLine (metadataLine neg d attrs t) = true.
Proof.
  intros (_ & Hd & Hattrs & _)%plainParts_spec Ht. unfold metadataLine.
  rewrite !singleLine_app.
  assert (singleLine d = true) as ->.
  { apply forallb_forall. intros c Hc. rewrite Forall_forall in Hd.
    apply isDigit_notLF, Hd, list_elem_of_In, Hc. }
  assert (singleLine attrs = true) as Ha.
  { apply forallb_forall. intros c Hc. rewrite Forall_forall in Hattrs.
    apply list_elem_of_In, Hattrs in Hc. apply andb_true_iff in Hc as [_ Hc].
    apply isDot_notLF, Hc. }
  assert (singleLine (attributesPart attrs) = true) as ->.
  { destruct attrs; [reflexivity|]. exact Ha. }
  change (singleLine (comma :: t)) with (singleLine t). rewrite Ht.
  destruct neg; reflexivity.
Qed.

(** A plain metadata line opens a pending entry, whatever precedes it. *)
Lemma Second_lineStep_plain neg d attrs t :
  plainParts d attrs = true ->
  exists c, forall st, lastIndex st = 0 ->
    Second.lineStep st (metadataLine neg d attrs t)
    = Ok (PState (channels st) (Some c) 0 (console st)).
Proof.
  intros Hp.
  destruct (span_exists isDot (trimEnd t)) as (w & s & Et & Hw & Hs).
  destruct (extinf_metadataLine neg d attrs w s Hp Hw Hs) as (whole & Hm).
  rewrite <- Et, <- trim_metadataLine in Hm.
  destruct (Second_parseExtinf_total (plainMatch whole attrs w) 0) as (c & Hc & _).
  exists c. intros st Hli.
  apply (Second_lineStep_metadata st _ (plainMatch whole attrs w) c 0).
  - rewrite trim_metadataLine. unfold metadataLine.
    change (str "#EXTINF:" ++ ?x) with (str "#EXTINF" ++ 58%N :: x).
    apply startsWith_app.
  - exact Hm.
  - rewrite Hli. exact Hc.
Qed.

(** ** The matcher is complete *)

Section QuantifierComplete.

Variable p : N -> bool.

(** A quantifier finds a continuation that succeeds after some run of its
    class within its bounds. *)
Lemma rep_complete g w : forall s min max i caps k,
  Forall (fun c => p c = true) w -> min <= length w ->
  (forall m, max = Some m -> length w <= m) ->
  is_Some (k (MState s (i + length w) caps)) ->
  is_Some (rep g p min max (w ++ s) i caps k).
Proof.
  induction w as [|c w IH]; intros s min max i caps k Hw Hmin Hmax Hk;
    rewrite rep_unfold; cbv zeta.
  - simpl in Hmin, Hk. rewrite Nat.add_0_r in Hk.
    assert (min = 0) as -> by lia. cbn [app].
    destruct g.
    + destruct (match max with Some 0 => None | _ => _ end); [eauto | exact Hk].
    + destruct (k (MState s i caps)); [eauto | destruct Hk; discriminate].
  - apply Forall_cons in Hw as [Hc Hw]. cbn [app length] in *.
    assert (Hmore : is_Some (rep g p (pred min) (pred <$> max) (w ++ s) (S i) caps k)).
    { apply IH; [exact Hw | lia | |].
      - intros m Hm. destruct max as [mx|]; [|discriminate].
        injection Hm as <-. specialize (Hmax mx eq_refl). lia.
      - replace (S i + length w) with (i + S (length w)) by lia. exact Hk. }
    assert (Hmx : match max with Some 0 => False | _ => True end).
    { destruct max as [[|mx]|]; auto. specialize (Hmax 0 eq_refl). lia. }
    destruct g.
    + destruct max as [[|mx]|]; [destruct Hmx | |]; rewrite Hc;
        destruct Hmore as [x ->]; eauto.
    + destruct (match min with 0 => k (MState (c :: w ++ s) i caps) | S _ => None end);
        [eauto|]. cbn [orElse].
      destruct max as [[|mx]|]; [destruct Hmx | |]; rewrite Hc; exact Hmore.
Qed.

End QuantifierComplete.

(** Where the pattern has a match after which the continuation succeeds,
    the backtracking matcher returns one. *)
Lemma rmatch_complete r st st' :
  Matches r st st' -> forall k, is_Some (k st') -> is_Some (rmatch r st k).
Proof.
  induction 1 as [st|p c s i caps Hp|r1 r2 st1 st2 st3 _ IH1 _ IH2
                 |g min max p w s i caps Hw Hmin Hmax|r st|r st st' _ IH Hne
                 |n r st st' _ IH]; intros k Hk; cbn [rmatch rest endIndex captures].
  - exact Hk.
  - rewrite Hp. exact Hk.
  - apply IH1, IH2, Hk.
  - apply rep_complete; assumption.
  - destruct (rmatch r st _); [eauto | exact Hk].
  - assert (is_Some (rmatch r st (fun st'0 =>
              if endIndex st'0 =? endIndex st then None else k st'0))) as [x ->]; [|eauto].
    apply IH. apply Nat.eqb_neq in Hne. rewrite Hne. exact Hk.
  - apply IH. exact Hk.
Qed.

Lemma search_complete re pre : forall sj i st',
  Matches (pattern re) (MState sj (i + length pre) (replicate (S (groups re)) undefined)) st' ->
  is_Some (search re (pre ++ sj) i).
Proof.
  induction pre as [|c pre IH]; intros sj i st' HM.
  - simpl in HM. rewrite Nat.add_0_r in HM. cbn [app].
    pose proof (rmatch_complete _ _ _ HM Some (ltac:(eauto))) as [x Hx].
    destruct sj; simpl; rewrite Hx; eauto.
  - cbn [app search].
    destruct (rmatch _ _ _); [eauto|].
    apply (IH sj (S i) st').
    replace (S i + length pre) with (i + length (c :: pre)) by (simpl; lia). exact HM.
Qed.

(** ** The shape that [extinfRegex] matches *)

Lemma Matches_lit_intro l : forall s i caps,
  Matches (lit l) (MState (l ++ s) i caps) (MState s (i + length l) caps).
Proof.
  induction l as [|c l IH]; intros s i caps; simpl.
  - rewrite Nat.add_0_r. constructor.
  - econstructor.
    + constructor. unfold isChar. apply N.eqb_refl.
    + replace (i + S (length l)) with (S i + length l) by lia. apply IH.
Qed.

Lemma Matches_rep_intro g min max p w s i caps :
  Forall (fun c => p c = true) w -> min <= length w ->
  (forall m, max = Some m -> length w <= m) ->
  Matches (Rep g min max p) (MState (w ++ s) i caps) (MState s (i + length w) caps).
Proof. apply MatchesRep. Qed.

(** From text of the shape to a match, at any index. *)
Lemma Matches_duration_intro (R : regex) neg d x i caps st' :
  d <> [] -> Forall (fun c => isDigit c = true) d ->
  Matches R (MState x (i + length (str "#EXTINF:") + length (if neg : bool then [dash] else [])
                         + length d) caps) st' ->
  Matches (lit (str "#EXTINF:") ⋅ opt (isChar dash) ⋅ plus isDigit ⋅ R)
    (MState (str "#EXTINF:" ++ (if neg then [dash] else []) ++ d ++ x) i caps) st'.
Proof.
  intros Hd Hdig HR.
  apply (MatchesSeq _ _ _
           (MState ((if neg then [dash] else []) ++ d ++ x) (i + length (str "#EXTINF:")) caps));
    [apply Matches_lit_intro|].
  apply (MatchesSeq _ _ _
           (MState (d ++ x)
              (i + length (str "#EXTINF:") + length (if neg then [dash] else [])) caps)).
  { apply MatchesRep.
    - destruct neg; repeat constructor.
    - lia.
    - intros m [= <-]. destruct neg; simpl; lia. }
  apply (MatchesSeq _ _ _
           (MState x (i + length (str "#EXTINF:") + length (if neg then [dash] else [])
                      + length d) caps)); [|exact HR].
  apply MatchesRep; [exact Hdig | | discriminate].
  destruct d; [congruence | simpl; lia].
Qed.

Lemma Matches_title_intro t j caps :
  exists st', Matches (Class (isChar comma) ⋅ Group 2 (star isDot))
                (MState (comma :: t) j caps) st'.
Proof.
  eexists. eapply MatchesSeq; [constructor; reflexivity|].
  apply MatchesGroup. unfold star.
  apply (MatchesRep true 0 None isDot [] t (S j) caps); [constructor | simpl; lia | discriminate].
Qed.

Lemma metadataShape_Matches r i caps :
  metadataShape r -> exists st', Matches (pattern extinfRegex) (MState r i caps) st'.
Proof.
  intros (neg & d & a & t & -> & Hd & Hdig & Ha).
  cbn [pattern extinfRegex].
  destruct Ha as [-> | (ws & b & -> & Hws & Hsp & Hb)].
  - cbn [app].
    destruct (Matches_title_intro t
                (i + length (str "#EXTINF:") + length (if neg then [dash] else [])
                 + length d) caps) as [st' H].
    exists st'. apply Matches_duration_intro; [assumption..|].
    eapply MatchesSeq; [apply MatchesSkip | exact H].
  - rewrite <- app_assoc.
    destruct (Matches_title_intro t
                (i + length (str "#EXTINF:") + length (if neg then [dash] else [])
                 + length d + length ws + length b)
                (<[1 := Str b]> caps)) as [st' H].
    exists st'. apply Matches_duration_intro; [assumption..|].
    set (j := i + length (str "#EXTINF:") + length (if neg then [dash] else []) + length d)
      in *.
    apply (MatchesSeq _ _ _ (MState (comma :: t) (j + length ws + length b)
                               (<[1 := Str b]> caps))); [|exact H].
    apply MatchesOpt; [|cbn [endIndex]; destruct ws; [congruence | simpl; lia]].
    apply (MatchesSeq _ _ _ (MState (b ++ comma :: t) (j + length ws) caps)).
    + unfold plus. apply MatchesRep; [exact Hsp | | discriminate].
      destruct ws; [congruence | simpl; lia].
    + unfold lazyStar.
      pose proof (MatchesGroup 1 _ _ _
                    (MatchesRep false 0 None isDot b (comma :: t) (j + length ws) caps Hb
                       (Nat.le_0_l _) (fun m (E : None = Some m) => ltac:(discriminate))))
        as HG.
      unfold capture in HG. cbn [rest endIndex captures] in HG.
      replace (j + length ws + length b - (j + length ws)) with (length b) in HG by lia.
      rewrite take_app_length in HG. exact HG.
Qed.

(** From a match to the shape of the text. *)
Lemma Matches_shape l st st' :
  Matches (lit l ⋅ opt (isChar dash) ⋅ plus isDigit
           ⋅ Opt (plus isSpace ⋅ Group 1 (lazyStar isDot)) ⋅ Class (isChar comma)
           ⋅ Group 2 (star isDot)) st st' ->
  exists (neg : bool) (d a t : jsstring),
    rest st = l ++ (if neg then [dash] else []) ++ d ++ a ++ comma :: t
    /\ d <> [] /\ Forall (fun c => isDigit c = true) d /\ optionalAttributes a.
Proof.
  unfold opt, plus, star, lazyStar. intros H.
  inversion H as [| |r1 r2 st1 st2 st3 Hlit Hrest| | | |]; subst; clear H.
  apply Matches_lit in Hlit. rewrite Hlit. clear Hlit st.
  inv_matches.
  match goal with H : Matches (Opt _) _ _ |- _ => inversion H; subst; clear H end;
    inv_matches.
  all: unfold capture in *; simpl in *.
  all: match goal with
       | Hn : Forall (fun c => isChar dash c = true) ?wn,
         Hmax : forall m, Some 1 = Some m -> length ?wn <= m |- _ =>
           assert (exists neg : bool, wn = if neg then [dash] else []) as [neg ->];
           [ specialize (Hmax 1 eq_refl); destruct wn as [|x [|x' wn]];
             [ exists false; reflexivity
             | apply Forall_cons in Hn as [Hx _]; unfold isChar in Hx;
               apply N.eqb_eq in Hx as ->; exists true; reflexivity
             | simpl in Hmax; lia ]
           | exists neg ]
       end.
  all: match goal with
       | Hd : Forall (fun c => isDigit c = true) ?wd, Hmin : 1 <= length ?wd |- _ =>
           exists wd;
           assert (wd <> []) by (destruct wd; [simpl in Hmin; lia | discriminate])
       end.
  all: match goal with
       | Hc : isChar comma ?c = true |- _ =>
           unfold isChar in Hc; apply N.eqb_eq in Hc; subst c
       end.
  - match goal with |- context [comma :: ?w ++ ?s] => exists [], (w ++ s) end.
    split_and!; auto. left. reflexivity.
  - match goal with
    | Hs : Forall (fun c => isSpace c = true) ?ws, Hmin : 1 <= length ?ws,
      Ha : Forall (fun c => isDot c = true) ?wa
      |- context [?ws ++ ?wa ++ comma :: ?w ++ ?s] =>
        exists (ws ++ wa), (w ++ s); split_and!; auto;
        [ rewrite <- !app_assoc; reflexivity
        | right; exists ws, wa; split_and!; auto;
          destruct ws; [simpl in Hmin; lia | discriminate] ]
    end.
Qed.

Lemma Matches_metadataShape st st' :
  Matches (pattern extinfRegex) st st' -> metadataShape (rest st).
Proof. intros H. apply Matches_shape in H. exact H. Qed.

(** [extinfRegex] finds a match in a string exactly when text of the shape
    begins at some position of the string. *)
Lemma matchRegExp_extinf s :
  matchRegExp s extinfRegex <> None <-> holdsShape s.
Proof.
  unfold matchRegExp, exec. cbn [global extinfRegex]. cbn [Nat.ltb Nat.leb].
  rewrite drop_0. split.
  - destruct (search extinfRegex s 0) as [[[j sj] st]|] eqn:Hs;
      [intros _ | intros []; reflexivity].
    apply search_Some in Hs as (pre & -> & _ & Hm).
    apply rmatch_sound in Hm as (st' & HM & _).
    apply Matches_metadataShape in HM. exists pre, sj. auto.
  - intros (pre & r & -> & Hr).
    destruct (metadataShape_Matches r (0 + length pre)
                (replicate (S (groups extinfRegex)) undefined) Hr) as [st' HM].
    destruct (search_complete extinfRegex pre r 0 st' HM) as [[[j sj] st] ->].
    discriminate.
Qed.

(** ** The earlier declaration on metadata and URL lines *)

Lemma startsWith_http s :
  startsWith s (str "http") = true ->
  negb (truthy (Str s)) = false /\ startsWith s (str "#EXTM3U") = false
  /\ startsWith s (str "#EXTINF") = false.
Proof.
  intros (r & ->)%startsWith_prefix. split_and!; reflexivity.
Qed.

Lemma trim_marker r : trim (str "#EXTINF" ++ r) <> [].
Proof.
  assert (trim (str "#EXTINF" ++ r) = trimEnd (str "#EXTIN" ++ 70%N :: r)) as -> by reflexivity.
  rewrite trimEnd_app_notSpace by reflexivity. discriminate.
Qed.

Lemma First_lineStep_metadata st l :
  lastIndex st = 0 -> startsWith l (str "#EXTINF") = true ->
  exists c, First.parseExtinf l 0 = Ok (c, 0)
    /\ First.lineStep st l = Ok (PState (channels st) (Some c) 0 (console st)).
Proof.
  intros Hli Hm. destruct (First_parseExtinf_total l 0 eq_refl) as (c & Hc).
  exists c. split; [exact Hc|]. unfold First.lineStep. rewrite Hli, Hm, Hc.
  apply startsWith_prefix in Hm as (r & ->).
  destruct (decide (trim (str "#EXTINF" ++ r) = [])) as [E|_];
    [destruct (trim_marker r E)|].
  reflexivity.
Qed.

Lemma First_lineStep_url st u c :
  currentChannel st = Some c -> startsWith u (str "http") = true ->
  validUrl (trim u) = true ->
  First.lineStep st u
  = Ok (PState (channels st ++ [setStreamUrl (Str (trim u)) c]) None (lastIndex st)
          (console st)).
Proof.
  intros Hc Hu Hv. unfold First.lineStep.
  destruct (startsWith_http _ Hu) as (_ & -> & ->). rewrite Hc, Hu.
  destruct (decide (trim u = [])) as [E|_]; [rewrite E in Hv; discriminate|].
  rewrite completeChannel_eq, Hv. reflexivity.
Qed.

(** Through the attribute loop the title stays a string. *)
Lemma attributeLoop_titleStr fuel : forall li s c c' li',
  attributeLoop fuel li s c = Ok (c', li') ->
  (exists t, title c = Str t) -> exists t, title c' = Str t.
Proof.
  induction fuel as [|fuel IH]; intros li s c c' li' H Hc; [discriminate|].
  simpl in H. pose proof (exec_attributeValue li s) as He.
  destruct (exec attributeValueRegex li s) as [[m|] l1].
  - destruct He as (_ & _ & whole & k & v & -> & _).
    destruct (attributeStep [Str whole; Str k; Str v] c) as [c1| |] eqn:Hstep;
      try discriminate.
    cbn [bind] in H. eapply IH; [exact H|].
    unfold attributeStep in Hstep. change (at_ [Str whole; Str k; Str v] 1) with (Str k) in Hstep.
    change (at_ [Str whole; Str k; Str v] 2) with (Str v) in Hstep.
    cbn [toLowerCaseOf bind] in Hstep. injection Hstep as <-. unfold whenKey.
    repeat match goal with |- context [decide (?a = ?b)] => destruct (decide (a = b)) end;
      cbn [title setTitle setRawAttribute setTvgId setLogo setGroupTitle]; eauto.
  - injection H as <- <-. exact Hc.
Qed.

Lemma First_parseExtinf_titleStr line li c li' :
  First.parseExtinf line li = Ok (c, li') -> exists t, title c = Str t.
Proof.
  unfold First.parseExtinf. intros H.
  destruct (matchRegExp line attributeRegex) as [em|].
  - destruct (trimmedGroup_total em 2) as (t & Ht). rewrite Ht in H. cbn [bind] in H.
    destruct (parseAttributes li (at_ em 1) newChannel) as [[c0 l0]| |] eqn:Hp;
      try discriminate.
    cbn [bind fst snd] in H. injection H as <- <-.
    apply attributeLoop_titleStr in Hp; [|exists []; reflexivity].
    unfold titleFallback. destruct (truthy (title c0)); [exact Hp | eauto].
  - destruct (matchRegExp line titleRegex) as [tm|].
    + destruct (truthy (at_ tm 1)).
      * destruct (at_ tm 1) as [| |s]; try discriminate.
        cbn [trimOf bind] in H. injection H as <- <-. eauto.
      * injection H as <- <-. exists []. reflexivity.
    + injection H as <- <-. exists []. reflexivity.
Qed.

Lemma First_lineStep_urlFormed st line :
  lastIndex st = 0 /\ Forall urlFormed (channels st)
  /\ (forall c, currentChannel st = Some c -> exists t, title c = Str t) ->
  exists st', First.lineStep st line = Ok st'
    /\ lastIndex st' = 0 /\ Forall urlFormed (channels st')
    /\ (forall c, currentChannel st' = Some c -> exists t, title c = Str t).
Proof.
  intros (Hli & Hcs & Hcur). unfold First.lineStep.
  destruct (decide (trim line = [])); [eauto 6|].
  destruct (startsWith line (str "#EXTM3U")); [eauto 6|].
  destruct (startsWith line (str "#EXTINF")).
  - destruct (First_parseExtinf_total line (lastIndex st) Hli) as (c & Hc). rewrite Hc.
    cbn [bind fst snd]. eexists. split_and!; [reflexivity | reflexivity | exact Hcs |].
    intros c' [= <-]. eapply First_parseExtinf_titleStr, Hc.
  - destruct (currentChannel st) as [c|] eqn:Hc; [|eexists; split_and!; eauto; rewrite Hc; auto].
    destruct (startsWith line (str "http"));
      [|eexists; split_and!; eauto; rewrite Hc; auto].
    rewrite completeChannel_eq. destruct (validUrl (trim line)) eqn:Hv.
    + eexists. split_and!; [reflexivity | exact Hli | | discriminate].
      cbn [channels]. apply Forall_app. split; [exact Hcs|]. constructor; [|constructor].
      destruct (Hcur c eq_refl) as [t Ht]. exists t, (trim line).
      split_and!; [exact Ht | reflexivity |]. apply orb_true_iff, Hv.
    + eexists. split_and!; [reflexivity | exact Hli | exact Hcs | discriminate].
Qed.

Lemma First_parseM3U_urlFormed m3uText :
  exists cs, First.parseM3U m3uText = Ok cs /\ Forall urlFormed cs.
Proof.
  unfold First.parseM3U, First.run.
  destruct (forOf_invariant First.lineStep
              (fun st => lastIndex st = 0 /\ Forall urlFormed (channels st)
                 /\ (forall c, currentChannel st = Some c -> exists t, title c = Str t)))
    with (l := split LF m3uText) (st := initial) as (st & -> & _ & Hcs & _).
  - intros st x H. apply First_lineStep_urlFormed, H.
  - split_and!; [reflexivity | constructor | discriminate].
  - simpl. eauto.
Qed.

(** ** The invariant of the output, for both declarations *)

(** C1, as amended.  On every input string the channels that the later
    declaration (lines 533-616) returns all have a title that is a
    non-empty string and a stream URL that begins with [http://] or
    [https://]; those that the earlier declaration (lines 33-111) returns
    all have such a stream URL, and a title that is a string, which may be
    empty. *)
Theorem parseM3U_wellFormed (m3uText : jsstring) :
  exists cs cs1,
    parseM3U m3uText = Ok cs /\ First.parseM3U m3uText = Ok cs1
    /\ Forall wellFormed cs /\ Forall urlFormed cs1.
Proof.
  destruct (First_parseM3U_urlFormed m3uText) as (cs1 & Hcs1 & Hu).
  unfold parseM3U, Second.parseM3U, Second.run.
  destruct (forOf_invariant Second.lineStep
              (fun st => Forall wellFormed (channels st)
                 /\ (forall c, currentChannel st = Some c -> truthy (title c) = true)))
    with (l := split LF m3uText) (st := initial) as (st & -> & Hcs & _).
  - intros st x [H1 H2]. apply Second_lineStep_wellFormed; assumption.
  - split; [constructor | discriminate].
  - simpl. eauto 6.
Qed.

(** ** Metadata lines of the shape, and others *)

(** What the later declaration does on a line that, trimmed, starts with
    [#EXTINF]: it opens a pending entry when text of the shape begins
    somewhere in the line, and drops the line with a warning when it begins
    nowhere. *)
Lemma Second_lineStep_shape st line :
  lastIndex st = 0 ->
  startsWith (trim line) (str "#EXTINF") = true ->
  (holdsShape (trim line) ->
   exists c, pendingOf line = Some c
     /\ Second.lineStep st line = Ok (PState (channels st) (Some c) 0 (console st)))
  /\ (~ holdsShape (trim line) ->
      Second.lineStep st line
      = Ok (PState (channels st) None (lastIndex st)
              (console st ++ [Second.malformedMessage (trim line)]))).
Proof.
  intros Hli Hm. split.
  - intros Hs. apply matchRegExp_extinf in Hs.
    destruct (matchRegExp (trim line) extinfRegex) as [em|] eqn:Hem; [|congruence].
    destruct (Second_parseExtinf_total em 0) as (c & Hc & _).
    exists c. split.
    + unfold pendingOf.
      rewrite (Second_lineStep_metadata initial line em c 0 Hm Hem Hc). reflexivity.
    + apply (Second_lineStep_metadata st line em c 0 Hm Hem). rewrite Hli. exact Hc.
  - intros Hs. apply Second_lineStep_malformed; [exact Hm|].
    destruct (matchRegExp (trim line) extinfRegex) eqn:Hem; [|reflexivity].
    exfalso. apply Hs, matchRegExp_extinf. congruence.
Qed.

(** C5, as amended.  The later declaration (lines 533-616), after any
    lines [pre], on a line that, trimmed, starts with [#EXTINF], and a line
    after it that starts with [http].  If text of the shape
    [#EXTINF:<duration><optional-attributes>,<title-text>] begins at no
    position of the line, the line emits no channel and leaves no pending
    entry, with one more warning on the console, and the URL line adds
    nothing.  If such text begins at some position, the first or a later
    one, the line opens a pending entry, which a valid URL line
    completes. *)
Theorem malformed_metadata_dropped (pre : list jsstring) (line url : jsstring) :
  Forall (fun l => singleLine l = true) (pre ++ [line; url]) ->
  startsWith (trim line) (str "#EXTINF") = true ->
  startsWith (trim url) (str "http") = true ->
  exists st,
    Second.run (unlines pre) = Ok st
    /\ (~ holdsShape (trim line) ->
        exists st1 st2,
          Second.run (unlines (pre ++ [line])) = Ok st1
          /\ channels st1 = channels st /\ currentChannel st1 = None
          /\ console st1 = console st ++ [Second.malformedMessage (trim line)]
          /\ Second.run (unlines (pre ++ [line; url])) = Ok st2
          /\ channels st2 = channels st /\ currentChannel st2 = None
          /\ parseM3U (unlines (pre ++ [line; url])) = parseM3U (unlines pre))
    /\ (holdsShape (trim line) ->
        exists c st1,
          Second.run (unlines (pre ++ [line])) = Ok st1
          /\ channels st1 = channels st /\ currentChannel st1 = Some c
          /\ (validUrl (trim url) = true ->
              parseM3U (unlines (pre ++ [line; url]))
              = Ok (channels st ++ [setStreamUrl (Str (trim url)) c]))).
Proof.
  intros Hls Hm Hu.
  apply Forall_app in Hls as [Hpre Hlu].
  assert (Hl : Forall (fun l => singleLine l = true) (pre ++ [line])).
  { apply Forall_app. split; [assumption|]. apply Forall_cons in Hlu as [? _]. auto. }
  assert (Hall : Forall (fun l => singleLine l = true) (pre ++ [line; url])).
  { apply Forall_app. auto. }
  unfold parseM3U, Second.parseM3U.
  rewrite !Second_run_unlines by assumption.
  destruct (Second_runLines_total pre) as (st & Hst & Hli).
  exists st. split; [exact Hst|].
  rewrite !forOf_app, Hst. cbn [bind forOf].
  destruct (Second_lineStep_shape st line Hli Hm) as [Hyes Hno]. split.
  - intros Hs. rewrite (Hno Hs). cbn [bind].
    rewrite Second_lineStep_url_ignored by auto. cbn [bind].
    eexists _, _. split_and!; reflexivity.
  - intros Hs. destruct (Hyes Hs) as (c & _ & ->). cbn [bind].
    eexists c, _. split_and!; [reflexivity | reflexivity | reflexivity |].
    intros Hv. rewrite (Second_lineStep_url _ url c) by auto. reflexivity.
Qed.

(** ** Lines without a duration *)

(** A line [#EXTINF:r] whose [r] does not begin with a duration and holds
    no [#] holds the shape nowhere. *)
Lemma no_duration_no_shape r :
  hasDuration r = false -> forallb (isNot hash) r = true ->
  ~ holdsShape (trim (str "#EXTINF:" ++ r)).
Proof.
  intros Hd Hh Hs. apply matchRegExp_extinf in Hs. apply Hs.
  apply (no_duration_no_match extinfRegex _ r eq_refl); assumption.
Qed.

(** C9, as amended.  A metadata line, one that trimmed starts with
    [#EXTINF], followed by a valid URL line.  The later declaration (lines
    533-616) returns exactly one channel, with that URL, when text of the
    shape begins at some position of the line, whose duration is one or
    more digits with or without a minus sign; it returns no channel when
    such text begins nowhere, as in a line [#EXTINF:r] whose [r] does not
    begin with such a duration and holds no [#].  The earlier declaration
    (lines 33-111) returns exactly one channel for every line that starts
    with [#EXTINF], with or without a duration. *)
Theorem duration_digits_required (line url : jsstring) :
  singleLine line = true -> singleLine url = true ->
  startsWith (trim line) (str "#EXTINF") = true ->
  validUrl (trim url) = true ->
  (holdsShape (trim line) ->
   exists c, parseM3U (unlines [line; url]) = Ok [c] /\ streamUrl c = Str (trim url))
  /\ (~ holdsShape (trim line) -> parseM3U (unlines [line; url]) = Ok [])
  /\ (forall r, line = str "#EXTINF:" ++ r -> hasDuration r = false ->
        forallb (isNot hash) r = true -> ~ holdsShape (trim line))
  /\ (startsWith line (str "#EXTINF") = true -> startsWith url (str "http") = true ->
      exists c, First.parseM3U (unlines [line; url]) = Ok [c]
        /\ streamUrl c = Str (trim url)).
Proof.
  intros Hl Hu Hm Hv.
  assert (Hls : Forall (fun l => singleLine l = true) [line; url]) by (repeat constructor; auto).
  destruct (Second_lineStep_shape initial line eq_refl Hm) as [Hyes Hno].
  split_and!.
  - intros Hs. destruct (Hyes Hs) as (c & _ & Hstep).
    exists (setStreamUrl (Str (trim url)) c). split; [|reflexivity].
    unfold parseM3U, Second.parseM3U. rewrite Second_run_unlines by exact Hls.
    rewrite forOf_cons, Hstep. cbn [bind]. rewrite forOf_cons.
    rewrite (Second_lineStep_url _ url c) by auto. reflexivity.
  - intros Hs. unfold parseM3U, Second.parseM3U. rewrite Second_run_unlines by exact Hls.
    rewrite forOf_cons, (Hno Hs). cbn [bind]. rewrite forOf_cons.
    rewrite Second_lineStep_url_ignored; [reflexivity | reflexivity |].
    apply validUrl_classify, Hv.
  - intros r -> Hd Hh. apply no_duration_no_shape; assumption.
  - intros Hm1 Hu1.
    destruct (First_lineStep_metadata initial line eq_refl Hm1) as (c & _ & Hstep).
    exists (setStreamUrl (Str (trim url)) c). split; [|reflexivity].
    unfold First.parseM3U. rewrite First_run_unlines by exact Hls.
    rewrite forOf_cons, Hstep. cbn [bind]. rewrite forOf_cons.
    rewrite (First_lineStep_url _ url c) by auto. reflexivity.
Qed.

(** ** Two metadata lines in a row *)

(** C6, as amended.  Two consecutive lines that, trimmed, start with
    [#EXTINF], followed by a valid URL line.  The later declaration (lines
    533-616) returns exactly one channel, the pending entry of the second
    line completed by the URL, when text of the shape begins at some
    position of the second line, and no channel when it begins nowhere.
    The earlier declaration (lines 33-111), on lines that start with
    [#EXTINF] and [http], returns exactly one channel, the entry that it
    reads from the second line, completed by the URL.  The first line
    contributes nothing. *)
Theorem second_metadata_wins (m1 m2 url : jsstring) :
  singleLine m1 = true -> singleLine m2 = true -> singleLine url = true ->
  startsWith (trim m1) (str "#EXTINF") = true ->
  startsWith (trim m2) (str "#EXTINF") = true ->
  validUrl (trim url) = true ->
  (holdsShape (trim m2) ->
   exists c, pendingOf m2 = Some c
     /\ parseM3U (unlines [m1; m2; url]) = Ok [setStreamUrl (Str (trim url)) c])
  /\ (~ holdsShape (trim m2) -> parseM3U (unlines [m1; m2; url]) = Ok [])
  /\ (startsWith m1 (str "#EXTINF") = true -> startsWith m2 (str "#EXTINF") = true ->
      startsWith url (str "http") = true ->
      exists c, First.parseExtinf m2 0 = Ok (c, 0)
        /\ First.parseM3U (unlines [m1; m2; url]) = Ok [setStreamUrl (Str (trim url)) c]).
Proof.
  intros H1 H2 Hu Hm1 Hm2 Hv.
  assert (Hls : Forall (fun l => singleLine l = true) [m1; m2; url])
    by (repeat constructor; auto).
  assert (Hfirst : exists st1, Second.lineStep initial m1 = Ok st1
                     /\ channels st1 = [] /\ lastIndex st1 = 0).
  { destruct (matchRegExp (trim m1) extinfRegex) as [em1|] eqn:Hem1.
    - destruct (Second_parseExtinf_total em1 0) as (c1 & Hc1 & _).
      rewrite (Second_lineStep_metadata initial m1 em1 c1 0 Hm1 Hem1 Hc1). eauto.
    - rewrite (Second_lineStep_malformed initial m1 Hm1 Hem1). eauto. }
  destruct Hfirst as (st1 & Hst1 & Hch & Hli).
  destruct (Second_lineStep_shape st1 m2 Hli Hm2) as [Hyes Hno].
  split_and!.
  - intros Hs. destruct (Hyes Hs) as (c & Hp & Hstep). exists c. split; [exact Hp|].
    unfold parseM3U, Second.parseM3U. rewrite Second_run_unlines by exact Hls.
    rewrite forOf_cons, Hst1. cbn [bind]. rewrite forOf_cons, Hstep. cbn [bind].
    rewrite forOf_cons. rewrite (Second_lineStep_url _ url c) by auto.
    cbn [bind forOf channels]. rewrite Hch. reflexivity.
  - intros Hs. unfold parseM3U, Second.parseM3U. rewrite Second_run_unlines by exact Hls.
    rewrite forOf_cons, Hst1. cbn [bind]. rewrite forOf_cons, (Hno Hs). cbn [bind].
    rewrite forOf_cons. rewrite Second_lineStep_url_ignored;
      [cbn [bind forOf channels]; rewrite Hch; reflexivity | reflexivity |].
    apply validUrl_classify, Hv.
  - intros Hf1 Hf2 Hfu.
    destruct (First_lineStep_metadata initial m1 eq_refl Hf1) as (c1 & _ & Hs1).
    destruct (First_lineStep_metadata
                (PState (channels initial) (Some c1) 0 (console initial)) m2 eq_refl Hf2)
      as (c & Hc & Hs2).
    exists c. split; [exact Hc|].
    unfold First.parseM3U. rewrite First_run_unlines by exact Hls.
    rewrite forOf_cons, Hs1. cbn [bind]. rewrite forOf_cons, Hs2. cbn [bind].
    rewrite forOf_cons. rewrite (First_lineStep_url _ url c) by auto. reflexivity.
Qed.

(** ** The two declarations compared *)

Lemma trimStart_headNotSpace l : headNotSpace l = true -> trimStart l = l.
Proof.
  destruct l as [|c l]; simpl; [reflexivity|].
  destruct (isSpace c); [discriminate | reflexivity].
Qed.

Lemma startsWith_trimEnd l p :
  Forall (fun c => isSpace c = false) p ->
  startsWith (trimEnd l) p = startsWith l p.
Proof.
  intros Hp. apply eq_true_iff_eq. rewrite !startsWith_prefix. split.
  - intros (r & E). destruct (trimEnd_prefix l) as (ws & El & _).
    exists (r ++ ws). rewrite El at 1. rewrite E, <- app_assoc. reflexivity.
  - intros (r & ->). destruct (decide (p = [])) as [->|Hne].
    + exists (trimEnd r). reflexivity.
    + destruct (exists_last Hne) as (p' & c & ->).
      apply Forall_app in Hp as [_ Hc]. apply Forall_cons in Hc as [Hc _].
      exists (trimEnd r). rewrite <- !app_assoc. simpl.
      apply trimEnd_app_notSpace, Hc.
Qed.

Lemma markers_notSpace :
  Forall (fun c => isSpace c = false) (str "#EXTM3U")
  /\ Forall (fun c => isSpace c = false) (str "#EXTINF")
  /\ Forall (fun c => isSpace c = false) (str "http").
Proof. split_and!; repeat constructor. Qed.

(** On a line that is not a metadata line and does not begin with white
    space the two loop bodies do the same. *)
Lemma lineStep_agree_other st l :
  headNotSpace l = true -> startsWith l (str "#EXTINF") = false ->
  First.lineStep st l = Second.lineStep st l.
Proof.
  intros Hh Hm. unfold First.lineStep, Second.lineStep.
  destruct markers_notSpace as (H1 & H2 & H3).
  assert (Et : trim l = trimEnd l) by (unfold trim; rewrite trimStart_headNotSpace; auto).
  rewrite Et, !startsWith_trimEnd, Hm by assumption.
  destruct (trimEnd l) as [|c r]; [reflexivity|].
  destruct (decide (c :: r = [])); [discriminate|]. reflexivity.
Qed.

Lemma lineStep_agree_blank st l :
  trim l = [] -> First.lineStep st l = Second.lineStep st l.
Proof.
  intros E. unfold First.lineStep, Second.lineStep. rewrite E.
  destruct (decide ([] = [])); [reflexivity | congruence].
Qed.

Lemma span_unique (p : N -> bool) w1 : forall s1 w2 s2,
  w1 ++ s1 = w2 ++ s2 ->
  Forall (fun c => p c = true) w1 -> Forall (fun c => p c = true) w2 ->
  match s1 with c :: _ => p c = false | [] => True end ->
  match s2 with c :: _ => p c = false | [] => True end ->
  w1 = w2 /\ s1 = s2.
Proof.
  induction w1 as [|c w1 IH]; intros s1 w2 s2 E H1 H2 Hs1 Hs2.
  - destruct w2 as [|c2 w2]; [auto|]. simpl in E. subst s1.
    apply Forall_cons in H2 as [Hc _]. congruence.
  - destruct w2 as [|c2 w2].
    + simpl in E. subst s2. apply Forall_cons in H1 as [Hc _]. congruence.
    + injection E as <- E. apply Forall_cons in H1 as [_ H1].
      apply Forall_cons in H2 as [_ H2].
      destruct (IH s1 w2 s2 E H1 H2 Hs1 Hs2) as [-> ->]. auto.
Qed.

Lemma space_or_not (s : list N) :
  Forall (fun c => isSpace c = true) s
  \/ exists a x b, s = a ++ x :: b /\ isSpace x = false.
Proof.
  induction s as [|c s [IH | (a & x & b & -> & Hx)]].
  - left. constructor.
  - destruct (isSpace c) eqn:Hc.
    + left. constructor; assumption.
    + right. exists [], c, s. auto.
  - right. exists (c :: a), x, b. auto.
Qed.

Lemma notDot_isSpace c : isDot c = false -> isSpace c = true.
Proof.
  unfold isDot, isSpace. intros H%negb_false_iff. rewrite H. apply orb_true_r.
Qed.

Lemma isDot_prefix (w1 w2 : list N) :
  Forall (fun c => isDot c = true) (w1 ++ w2) -> Forall (fun c => isDot c = true) w1.
Proof. intros [H _]%Forall_app. exact H. Qed.

Lemma trimEnd_cons_notSpace c x :
  isSpace c = false -> trimEnd (c :: x) = c :: trimEnd x.
Proof. intros Hc. exact (trimEnd_app_notSpace [] c x Hc). Qed.

Lemma trimEnd_idempotent l : trimEnd (trimEnd l) = trimEnd l.
Proof.
  destruct (trimEnd_prefix l) as (ws & E & Hws).
  rewrite E at 2. rewrite trimEnd_app_space by exact Hws. reflexivity.
Qed.

(** The title that the second declaration reads from the trimmed line is
    the title that the first reads from the line as it is. *)
Lemma title_span t w s w' s' :
  titled t = true ->
  t = w ++ s -> Forall (fun c => isDot c = true) w ->
  match s with c :: _ => isDot c = false | [] => True end ->
  trimEnd t = w' ++ s' -> Forall (fun c => isDot c = true) w' ->
  match s' with c :: _ => isDot c = false | [] => True end ->
  trim w' = trim w /\ trim w <> [].
Proof.
  intros Ht E Hw Hs E' Hw' Hs'.
  assert (Hhead : exists c w0, w = c :: w0 /\ isSpace c = false).
  { destruct t as [|c t]; [discriminate|]. simpl in Ht. apply negb_true_iff in Ht.
    destruct w as [|c0 w0].
    - simpl in E. subst s. apply notDot_isSpace in Hs. congruence.
    - injection E as -> _. eauto. }
  destruct Hhead as (c & w0 & -> & Hc).
  assert (Etrim : forall x, trim (c :: x) = c :: trimEnd x).
  { intros x. unfold trim. simpl. rewrite Hc.
    apply trimEnd_cons_notSpace, Hc. }
  split; [|rewrite Etrim; discriminate].
  destruct (space_or_not s) as [Hsp | (a & x & b & -> & Hx)].
  - rewrite E, trimEnd_app_space in E' by exact Hsp.
    assert (Hd : Forall (fun c => isDot c = true) (trimEnd (c :: w0))).
    { destruct (trimEnd_prefix (c :: w0)) as (ws & Ep & _).
      rewrite Ep in Hw. apply isDot_prefix in Hw. exact Hw. }
    destruct (span_unique isDot (trimEnd (c :: w0)) [] w' s') as [<- _]; auto.
    { rewrite app_nil_r. exact E'. }
    rewrite (trimEnd_cons_notSpace c w0 Hc).
    rewrite !Etrim, trimEnd_idempotent. reflexivity.
  - destruct a as [|l0 a].
    { simpl in Hs. assert (isSpace x = true) by (apply notDot_isSpace, Hs). congruence. }
    rewrite E in E'.
    replace ((c :: w0) ++ (l0 :: a) ++ x :: b) with (((c :: w0) ++ l0 :: a) ++ x :: b) in E'
      by (rewrite <- app_assoc; reflexivity).
    rewrite trimEnd_app_notSpace in E' by exact Hx.
    rewrite <- app_assoc in E'.
    destruct (span_unique isDot (c :: w0) ((l0 :: a) ++ x :: trimEnd b) w' s') as [<- _];
      auto.
Qed.

Lemma trimmedGroup_plainMatch whole attrs w :
  trimmedGroup (plainMatch whole attrs w) 2 = Ok (Str (trim w)).
Proof. unfold trimmedGroup, plainMatch. simpl. destruct w; reflexivity. Qed.

(** Without attributes the first declaration scans the text [undefined]
    and the second the empty string: neither holds an attribute. *)
Lemma parseAttributes_none c :
  parseAttributes 0 undefined c = Ok (c, 0)
  /\ parseAttributes 0 (Str []) c = Ok (c, 0).
Proof. split; reflexivity. Qed.

Lemma parseAttributes_plain attrs c whole w :
  parseAttributes 0 (at_ (plainMatch whole attrs w) 1) c
  = parseAttributes 0 (Second.orEmpty (at_ (plainMatch whole attrs w) 1)) c.
Proof.
  destruct attrs as [|a attrs]; [|reflexivity].
  change (at_ (plainMatch whole [] w) 1) with undefined.
  change (Second.orEmpty undefined) with (Str []).
  destruct (parseAttributes_none c) as [-> ->]. reflexivity.
Qed.

Lemma titleFallback_id v c : truthy (title c) = true -> titleFallback v c = c.
Proof. unfold titleFallback. intros ->. reflexivity. Qed.

(** On a plain metadata line with a title the two loop bodies do the
    same. *)
Lemma lineStep_agree_plain st neg d attrs t :
  plainParts d attrs = true -> titled t = true -> lastIndex st = 0 ->
  First.lineStep st (metadataLine neg d attrs t)
  = Second.lineStep st (metadataLine neg d attrs t).
Proof.
  intros Hp Ht Hli.
  destruct (span_exists isDot t) as (w & s & Et & Hw & Hs).
  destruct (span_exists isDot (trimEnd t)) as (w' & s' & Et' & Hw' & Hs').
  destruct (title_span t w s w' s' Ht Et Hw Hs Et' Hw' Hs') as [Etrim Hne].
  destruct (attribute_metadataLine neg d attrs w s Hp Hw Hs) as (whole & Hm1).
  destruct (extinf_metadataLine neg d attrs w' s' Hp Hw' Hs') as (whole' & Hm2).
  rewrite <- Et in Hm1. rewrite <- Et', <- trim_metadataLine in Hm2.
  assert (Hstart : forall x, startsWith (metadataLine neg d attrs x) (str "#EXTINF") = true).
  { intros x. unfold metadataLine.
    change (str "#EXTINF:" ++ ?y) with (str "#EXTINF" ++ 58%N :: y).
    apply startsWith_app. }
  (* the second declaration *)
  unfold Second.lineStep.
  assert (Hs2 := Hstart (trimEnd t)). rewrite <- trim_metadataLine in Hs2.
  destruct (startsWith_EXTINF _ Hs2) as (-> & -> & _). rewrite Hs2, Hm2.
  unfold Second.parseExtinf. rewrite trimmedGroup_plainMatch, Hli. cbn [bind].
  rewrite <- parseAttributes_plain.
  (* the first declaration *)
  unfold First.lineStep.
  destruct (decide (trim (metadataLine neg d attrs t) = [])) as [E|_].
  { rewrite E in Hs2. discriminate. }
  destruct (startsWith_EXTINF _ (Hstart t)) as (_ & -> & _). rewrite (Hstart t).
  unfold First.parseExtinf. rewrite Hm1, trimmedGroup_plainMatch, Hli. cbn [bind].
  replace (at_ (plainMatch whole' attrs w') 1) with (at_ (plainMatch whole attrs w) 1)
    by (destruct attrs; reflexivity).
  destruct (parseAttributes 0 (at_ (plainMatch whole attrs w) 1) newChannel)
    as [[c li]| |]; [|reflexivity|reflexivity].
  cbn [bind fst snd]. rewrite Etrim.
  rewrite (titleFallback_id (Str (str "Untitled Channel"))); [reflexivity|].
  apply titleFallback_truthy. destruct (trim w); [congruence | reflexivity].
Qed.

Lemma lineStep_agree st l :
  plainLine l -> lastIndex st = 0 -> First.lineStep st l = Second.lineStep st l.
Proof.
  intros [E | [[Hh Hm] | (neg & d & attrs & t & -> & Hp & Ht)]] Hli.
  - apply lineStep_agree_blank, E.
  - apply lineStep_agree_other; assumption.
  - apply lineStep_agree_plain; assumption.
Qed.

Lemma forOf_agree ls : forall st,
  Forall plainLine ls -> lastIndex st = 0 ->
  forOf First.lineStep ls st = forOf Second.lineStep ls st.
Proof.
  induction ls as [|l ls IH]; intros st Hls Hli; [reflexivity|].
  apply Forall_cons in Hls as [Hl Hls].
  rewrite !forOf_cons, (lineStep_agree st l Hl Hli).
  destruct (Second_lineStep_total st l Hli) as (st' & -> & Hli'). cbn [bind].
  apply IH; assumption.
Qed.

(** C10, as amended.  On a plain playlist, one whose lines are blank lines,
    plain metadata lines with a title, and other lines that do not begin
    with white space, the two declarations return equal sequences of
    channels. *)
Theorem declarations_agree_on_plain_playlists (m3uText : jsstring) :
  Forall plainLine (split LF m3uText) ->
  First.parseM3U m3uText = Second.parseM3U m3uText.
Proof.
  intros Hls. unfold First.parseM3U, Second.parseM3U, First.run, Second.run.
  rewrite (forOf_agree _ initial Hls eq_refl). reflexivity.
Qed.

(** ** The title *)

Lemma setProperty_lookup_ne (key k : list N) (v : value) (o : gmap (list N) value) :
  key <> k -> setProperty key v o !! k = o !! k.
Proof.
  intros Hne. unfold setProperty. destruct (decide (key = str "__proto__")); [reflexivity|].
  apply lookup_insert_ne, Hne.
Qed.

Lemma setProperty_lookup_eq (key : list N) (v : value) (o : gmap (list N) value) :
  key <> str "__proto__" -> setProperty key v o !! key = Some v.
Proof.
  intros Hne. unfold setProperty. destruct (decide (key = str "__proto__")); [congruence|].
  apply lookup_insert_eq.
Qed.

Lemma attributeStep_title m c c' :
  attributeStep m c = Ok c' -> titleTracksName c -> titleTracksName c'.
Proof.
  unfold attributeStep, titleTracksName. intros H Hc.
  destruct (toLowerCaseOf (at_ m 1)) as [key| |]; try discriminate.
  cbn [bind] in H. injection H as <-.
  unfold whenKey.
  destruct (decide (key = str "tvg-name")) as [->|Hne].
  - destruct (decide (str "tvg-name" = str "tvg-id")) as [E|_]; [discriminate E|].
    destruct (decide (str "tvg-name" = str "tvg-logo")) as [E|_]; [discriminate E|].
    destruct (decide (str "tvg-name" = str "group-title")) as [E|_]; [discriminate E|].
    cbn [title rawAttributes setTitle setRawAttribute].
    rewrite setProperty_lookup_eq by discriminate. reflexivity.
  - repeat match goal with |- context [decide (key = ?k)] => destruct (decide (key = k)) end;
      cbn [title rawAttributes setTitle setRawAttribute setTvgId setLogo setGroupTitle];
      rewrite setProperty_lookup_ne by exact Hne; exact Hc.
Qed.

Lemma attributeLoop_title fuel : forall li s c c' li',
  attributeLoop fuel li s c = Ok (c', li') -> titleTracksName c -> titleTracksName c'.
Proof.
  induction fuel as [|fuel IH]; intros li s c c' li' H Hc; [discriminate|].
  simpl in H. destruct (exec attributeValueRegex li s) as [[m|] l1].
  - destruct (attributeStep m c) as [c1| |] eqn:Hstep; try discriminate.
    cbn [bind] in H. eapply IH; [exact H|]. eapply attributeStep_title; eassumption.
  - injection H as <- <-. exact Hc.
Qed.

(** The resolution order of the title, on the pieces into which
    [extinfRegex] cuts the line: the channel's title is the [tvg-name]
    value stored in [rawAttributes] when there is one and it is not empty,
    else the trimmed text of group 2 when that is not empty, else the
    placeholder. *)
Lemma Second_title_resolution em li c li' :
  Second.parseExtinf em li = Ok (c, li') ->
  title c = resolveTitle (rawAttributes c !! str "tvg-name") (textOf (at_ em 2)).
Proof.
  unfold Second.parseExtinf. intros H.
  assert (Ht : trimmedGroup em 2 = Ok (Str (trim (textOf (at_ em 2))))).
  { unfold trimmedGroup. destruct (at_ em 2) as [| |[|a s]]; reflexivity. }
  rewrite Ht in H. cbn [bind] in H.
  destruct (parseAttributes li (Second.orEmpty (at_ em 1)) newChannel)
    as [[c0 l0]| |] eqn:Hp; try discriminate.
  cbn [bind fst snd] in H. injection H as <- <-.
  assert (Htr : titleTracksName c0).
  { eapply attributeLoop_title; [exact Hp | reflexivity]. }
  unfold titleTracksName in Htr. unfold resolveTitle, titleFallback.
  assert (Hraw : forall v x, rawAttributes (if truthy (title x) then x else setTitle v x)
                             = rawAttributes x).
  { intros v x. destruct (truthy (title x)); reflexivity. }
  rewrite !Hraw.
  destruct (rawAttributes c0 !! str "tvg-name") as [v|]; simpl in Htr; rewrite Htr.
  - destruct (truthy v) eqn:Hv.
    + rewrite Htr, Hv. exact Htr.
    + cbn [title setTitle]. destruct (trim (textOf (at_ em 2))); reflexivity.
  - cbn [truthy title setTitle]. destruct (trim (textOf (at_ em 2))); reflexivity.
Qed.

(** C2, the failing input.  On a metadata line whose [tvg-name] value holds
    a comma, [extinfRegex] ends the attributes at that comma: the one
    channel returned has neither the title that the resolution order gives,
    the [tvg-name] value [News, World], nor the text after the last comma,
    [Title], but the text from the first comma on, and no [tvg-name] in its
    [rawAttributes]. *)
Theorem title_with_comma_in_attribute :
  exists c,
    parseM3U commaInAttribute = Ok [c]
    /\ title c = Str (str "World" ++ [quote] ++ str ",Title")
    /\ expectedTitle = Str (str "News, World")
    /\ title c <> expectedTitle
    /\ title c <> Str (str "Title")
    /\ rawAttributes c !! str "tvg-name" = None.
Proof.
  eexists. split; [vm_compute; reflexivity|].
  split_and!; [reflexivity | reflexivity | | | reflexivity].
  - vm_compute. discriminate.
  - vm_compute. discriminate.
Qed.

(** ** The claims that the code does not meet as stated *)

(** C6 as stated fails: two consecutive lines that start with [#EXTINF],
    the second without a duration, followed by a valid URL line, yield no
    channel at all. *)
Lemma second_without_duration_yields_nothing :
  Forall (fun l => startsWith (trim l) (str "#EXTINF") = true)
    (take 2 secondWithoutDuration)
  /\ Forall (fun l => validUrl (trim l) = true) (drop 2 secondWithoutDuration)
  /\ parseM3U (unlines secondWithoutDuration) = Ok [].
Proof. split_and!; [repeat constructor | repeat constructor | vm_compute; reflexivity]. Qed.

(** C9 as stated fails: a metadata line without a duration, followed by a
    valid URL line, yields no channel. *)
Lemma without_duration_yields_nothing :
  hasDuration (str ",Title") = false /\ parseM3U withoutDuration = Ok [].
Proof. split; vm_compute; reflexivity. Qed.

(** C10 as stated fails: on a metadata line without a title the first
    declaration returns a channel with an empty title and the second one
    with the placeholder. *)
Lemma declarations_differ_without_title :
  First.parseM3U withoutTitle <> Second.parseM3U withoutTitle.
Proof. vm_compute. discriminate. Qed.

(** C1 as stated fails on the earlier declaration, which has no
    placeholder: on a metadata line without a title it returns a channel
    whose title is the empty string. *)
Lemma First_empty_title :
  exists c, First.parseM3U withoutTitle = Ok [c] /\ title c = Str [] /\ ~ wellFormed c.
Proof.
  eexists. split_and!; [vm_compute; reflexivity | reflexivity |].
  intros (t & u & Ht & Hne & _). injection Ht as <-. apply Hne. reflexivity.
Qed.

(** The earlier declaration keeps a pending entry for a line that its
    patterns do not match. *)
Lemma First_keeps_malformed :
  exists c, First.parseM3U withoutDuration = Ok [c] /\ title c = Str [].
Proof. eexists. split; [vm_compute; reflexivity | reflexivity]. Qed.

(** C5 as stated fails.  The later declaration emits a channel for a line
    that starts with [#EXTINF] and is not of the shape, when text of the
    shape begins further on in it.  The earlier declaration emits one for
    a line that holds the shape nowhere. *)
Lemma malformed_metadata_kept :
  (startsWith (trim shapeFurtherOn) (str "#EXTINF") = true
   /\ ~ metadataShape (trim shapeFurtherOn)
   /\ exists c, parseM3U (unlines [shapeFurtherOn; str "http://x/s"]) = Ok [c])
  /\ (~ holdsShape (trim (str "#EXTINF:,Title"))
      /\ exists c, First.parseM3U withoutDuration = Ok [c]).
Proof.
  split_and!.
  - reflexivity.
  - intros (neg & d & a & t & E & _).
    apply (f_equal (fun l => nth 7 l 0%N)) in E. vm_compute in E. discriminate E.
  - eexists. vm_compute. reflexivity.
  - intros Hs. apply matchRegExp_extinf in Hs. apply Hs. vm_compute. reflexivity.
  - eexists. vm_compute. reflexivity.
Qed.

(** ** Instances *)

Lemma malformed_metadata_dropped_witness :
  parseM3U (unlines ([str "#EXTINF:-1,A"] ++ [str "#EXTINF:,B"; str "http://x/s"]))
  = parseM3U (unlines [str "#EXTINF:-1,A"]).
Proof.
  destruct (malformed_metadata_dropped [str "#EXTINF:-1,A"] (str "#EXTINF:,B")
              (str "http://x/s"))
    as (st & _ & Hno & _); [repeat constructor | reflexivity | reflexivity |].
  destruct Hno as (st1 & st2 & _ & _ & _ & _ & _ & _ & _ & H); [|exact H].
  intros Hs. apply matchRegExp_extinf in Hs. apply Hs. vm_compute. reflexivity.
Defined.

Lemma second_metadata_wins_witness :
  exists c, pendingOf (str "#EXTINF:-1,Second") = Some c
    /\ parseM3U (unlines [str "#EXTINF:-1,First"; str "#EXTINF:-1,Second"; str "http://x/s"])
       = Ok [setStreamUrl (Str (trim (str "http://x/s"))) c].
Proof.
  destruct (second_metadata_wins (str "#EXTINF:-1,First") (str "#EXTINF:-1,Second")
              (str "http://x/s")) as (Hyes & _);
    [reflexivity | reflexivity | reflexivity | reflexivity | reflexivity | reflexivity |].
  apply Hyes. exists [], (str "#EXTINF:-1,Second"). split; [reflexivity|].
  exists true, (str "1"), [], (str "Second").
  split_and!; [reflexivity | discriminate | repeat constructor | left; reflexivity].
Defined.

Lemma duration_digits_required_witness :
  (exists c, parseM3U (unlines [str "#EXTINF:-1,Title"; str "http://x/s"]) = Ok [c]
     /\ streamUrl c = Str (trim (str "http://x/s")))
  /\ parseM3U (unlines [str "#EXTINF:,Title"; str "http://x/s"]) = Ok [].
Proof.
  split.
  - destruct (duration_digits_required (str "#EXTINF:-1,Title") (str "http://x/s"))
      as (Hyes & _); [reflexivity | reflexivity | reflexivity | reflexivity |].
    apply Hyes. exists [], (str "#EXTINF:-1,Title"). split; [reflexivity|].
    exists true, (str "1"), [], (str "Title").
    split_and!; [reflexivity | discriminate | repeat constructor | left; reflexivity].
  - destruct (duration_digits_required (str "#EXTINF:,Title") (str "http://x/s"))
      as (_ & Hno & Hshape & _); [reflexivity | reflexivity | reflexivity | reflexivity |].
    apply Hno. apply (Hshape (str ",Title")); reflexivity.
Defined.

Lemma scenario1_plain : Forall plainLine (split LF scenario1).
Proof.
  change (split LF scenario1)
    with [str "#EXTM3U";
          metadataLine true (str "1")
            (str "tvg-id=" ++ quoted "c1" ++ str " tvg-logo=" ++ quoted "http://x/l.png"
             ++ str " group-title=" ++ quoted "News")
            (str "Channel One");
          str "http://x/stream1.m3u8";
          []].
  apply Forall_cons_2; [|apply Forall_cons_2; [|apply Forall_cons_2;
    [|apply Forall_cons_2; [|apply Forall_nil_2]]]].
  - right. left. split; reflexivity.
  - right. right. eexists _, _, _, _. split_and!; reflexivity.
  - right. left. split; reflexivity.
  - left. reflexivity.
Defined.

Lemma declarations_agree_on_plain_playlists_witness :
  First.parseM3U scenario1 = Second.parseM3U scenario1.
Proof. apply (declarations_agree_on_plain_playlists scenario1), scenario1_plain. Defined.


(** * The rest of the script: properties *)

(** ** The playlist check and the parser *)

Lemma includes_spec s sub :
  includes s sub = true <-> exists a b, s = a ++ sub ++ b.
Proof.
  induction s as [|c s IH].
  - simpl. rewrite orb_false_r, startsWith_prefix. split.
    + intros (r & E). exists [], r. exact E.
    + intros (a & b & E). destruct a; [|discriminate]. eauto.
  - cbn [includes]. rewrite orb_true_iff, startsWith_prefix, IH. split.
    + intros [(r & E) | (a & b & E)].
      * exists [], r. exact E.
      * exists (c :: a), b. rewrite E. reflexivity.
    + intros (a & b & E). destruct a as [|c' a].
      * left. eauto.
      * right. injection E as _ E. eauto.
Qed.

(** A piece of a piece is a piece. *)
Lemma includes_within s a l b sub :
  s = a ++ l ++ b -> includes l sub = true -> includes s sub = true.
Proof.
  intros -> (a' & b' & ->)%includes_spec. apply includes_spec.
  exists (a ++ a'), (b' ++ b). rewrite <- !app_assoc. reflexivity.
Qed.

Lemma split_shape s :
  exists l0 ls, split LF s = l0 :: ls /\ (exists b, s = l0 ++ b)
    /\ forall l, l ∈ ls -> exists a b, s = a ++ l ++ b.
Proof.
  induction s as [|c s (l0 & ls & Hs & (b0 & E0) & Hls)]; simpl.
  - exists [], []. split_and!; [reflexivity | exists []; reflexivity |].
    intros l Hl. apply elem_of_nil in Hl as [].
  - destruct (c =? LF)%N.
    + exists [], (l0 :: ls). rewrite Hs. split_and!; [reflexivity | eauto |].
      intros l [-> | Hl]%elem_of_cons.
      * exists [c], b0. simpl. congruence.
      * destruct (Hls l Hl) as (a & b & ->). exists (c :: a), b. reflexivity.
    + rewrite Hs. exists (c :: l0), ls. split_and!; [reflexivity | |].
      * exists b0. simpl. congruence.
      * intros l Hl. destruct (Hls l Hl) as (a & b & ->). exists (c :: a), b. reflexivity.
Qed.

(** Every line of a text is a piece of the text. *)
Lemma split_pieces s l : l ∈ split LF s -> exists a b, s = a ++ l ++ b.
Proof.
  destruct (split_shape s) as (l0 & ls & -> & (b0 & E0) & Hls).
  intros [-> | Hl]%elem_of_cons; [|auto]. exists [], b0. exact E0.
Qed.

Lemma trim_piece l : exists a b, l = a ++ trim l ++ b.
Proof.
  unfold trim. destruct (trimStart_suffix l) as (ws & E & _).
  destruct (trimEnd_prefix (trimStart l)) as (ws' & E' & _).
  exists ws, ws'. rewrite <- E'. exact E.
Qed.

(** A text without [#EXTINF] has no metadata line, for either
    declaration. *)
Lemma no_marker_no_metadata m3uText l :
  includes m3uText (str "#EXTINF") = false -> l ∈ split LF m3uText ->
  startsWith (trim l) (str "#EXTINF") = false /\ startsWith l (str "#EXTINF") = false.
Proof.
  intros Hno Hl. destruct (split_pieces _ _ Hl) as (a & b & E).
  split.
  - destruct (startsWith (trim l) (str "#EXTINF")) eqn:Hs; [|reflexivity].
    apply startsWith_prefix in Hs as (r & Hr).
    destruct (trim_piece l) as (a' & b' & E').
    rewrite <- Hno. symmetry. apply (includes_within _ a l b _ E).
    apply includes_spec. exists a', (r ++ b'). rewrite E' at 1. rewrite Hr, <- app_assoc.
    reflexivity.
  - destruct (startsWith l (str "#EXTINF")) eqn:Hs; [|reflexivity].
    apply startsWith_prefix in Hs as (r & Hr).
    rewrite <- Hno. symmetry. apply (includes_within _ a l b _ E).
    apply includes_spec. exists [], r. exact Hr.
Qed.

(** Without a metadata line the loop of the second declaration never
    leaves its initial state but for the console. *)
Lemma Second_forOf_no_metadata ls : forall st,
  Forall (fun l => startsWith (trim l) (str "#EXTINF") = false) ls ->
  channels st = [] -> currentChannel st = None ->
  exists st', forOf Second.lineStep ls st = Ok st' /\ channels st' = [].
Proof.
  induction ls as [|l ls IH]; intros st Hls Hch Hcur; [simpl; eauto|].
  apply Forall_cons in Hls as [Hl Hls]. rewrite forOf_cons.
  assert (Hstep : Second.lineStep st l = Ok st).
  { unfold Second.lineStep. cbv zeta. rewrite Hl, Hcur.
    destruct (negb _); [reflexivity|].
    destruct (startsWith (trim l) (str "#EXTM3U")); reflexivity. }
  rewrite Hstep. cbn [bind]. apply IH; assumption.
Qed.

Lemma First_forOf_no_metadata ls : forall st,
  Forall (fun l => startsWith l (str "#EXTINF") = false) ls ->
  channels st = [] -> currentChannel st = None ->
  exists st', forOf First.lineStep ls st = Ok st' /\ channels st' = [].
Proof.
  induction ls as [|l ls IH]; intros st Hls Hch Hcur; [simpl; eauto|].
  apply Forall_cons in Hls as [Hl Hls]. rewrite forOf_cons.
  assert (Hstep : First.lineStep st l = Ok st).
  { unfold First.lineStep. rewrite Hl, Hcur.
    destruct (decide _); [reflexivity|].
    destruct (startsWith l (str "#EXTM3U")); reflexivity. }
  rewrite Hstep. cbn [bind]. apply IH; assumption.
Qed.

(** X1.  A text in which [#EXTINF] does not occur parses to no channel, by
    either declaration: the playlist check of [fetchM3UData], which turns
    away a text that neither starts with [#EXTM3U] nor holds [#EXTINF],
    turns away no text from which the parser would have read a channel. *)
Theorem unmarked_text_has_no_channel (m3uText : jsstring) :
  includes m3uText (str "#EXTINF") = false ->
  parseM3U m3uText = Ok [] /\ First.parseM3U m3uText = Ok [].
Proof.
  intros Hno.
  assert (Hls : Forall (fun l => startsWith (trim l) (str "#EXTINF") = false
                                 /\ startsWith l (str "#EXTINF") = false)
                  (split LF m3uText)).
  { apply Forall_forall. intros l Hl. apply (no_marker_no_metadata m3uText); assumption. }
  apply Forall_and in Hls as [H2 H1]. split.
  - unfold parseM3U, Second.parseM3U, Second.run.
    destruct (Second_forOf_no_metadata _ initial H2 eq_refl eq_refl) as (st & -> & Hch).
    cbn [bind]. rewrite Hch. reflexivity.
  - unfold First.parseM3U, First.run.
    destruct (First_forOf_no_metadata _ initial H1 eq_refl eq_refl) as (st & -> & Hch).
    cbn [bind]. rewrite Hch. reflexivity.
Qed.

Lemma unmarked_text_has_no_channel_witness :
  parseM3U (str "<html>404</html>") = Ok []
  /\ First.parseM3U (str "<html>404</html>") = Ok [].
Proof. apply (unmarked_text_has_no_channel (str "<html>404</html>")). reflexivity. Defined.

(** ** Favourites *)

Lemma indexOf_None v arr : indexOf v arr = None <-> v ∉ arr.
Proof.
  induction arr as [|x arr IH]; simpl.
  - split; [intros _; apply not_elem_of_nil | reflexivity].
  - destruct (decide (x = v)) as [->|Hne].
    + split; [discriminate | intros H; exfalso; apply H; left].
    + rewrite fmap_None, IH, not_elem_of_cons. naive_solver.
Qed.

Lemma indexOf_Some v arr : forall i,
  indexOf v arr = Some i ->
  exists l1 l2, arr = l1 ++ v :: l2 /\ length l1 = i /\ (v ∉ l1).
Proof.
  induction arr as [|x arr IH]; intros i H; simpl in H; [discriminate|].
  destruct (decide (x = v)) as [->|Hne].
  - injection H as <-. exists [], arr.
    split_and!; [reflexivity | reflexivity | apply not_elem_of_nil].
  - apply fmap_Some in H as (j & Hj & ->).
    destruct (IH j Hj) as (l1 & l2 & -> & <- & Hl1).
    exists (x :: l1), l2. split_and!; [reflexivity | reflexivity |].
    apply not_elem_of_cons. auto.
Qed.

(** The two cases of [toggleFavorite]: a title that is no favourite goes
    to the end; of a title that is one, the first occurrence goes. *)
Lemma toggleFavoriteIn_cases t favs :
  ((t ∉ favs) /\ toggleFavoriteIn t favs = favs ++ [t])
  \/ (exists l1 l2, favs = l1 ++ t :: l2 /\ (t ∉ l1) /\ toggleFavoriteIn t favs = l1 ++ l2).
Proof.
  unfold toggleFavoriteIn. destruct (indexOf t favs) as [i|] eqn:Hi.
  - right. apply indexOf_Some in Hi as (l1 & l2 & -> & <- & Hl1).
    exists l1, l2. split_and!; auto.
    rewrite delete_middle. reflexivity.
  - left. apply indexOf_None in Hi. auto.
Qed.

(** X2.  [toggleFavorite] changes the number of times the title occurs in
    [favorites] by one, up from none and down otherwise, and leaves every
    other entry, and their order, as they were. *)
Theorem toggleFavorite_counts (t : value) (favs : list value) :
  count_occ value_eq_dec (toggleFavoriteIn t favs) t
  = match count_occ value_eq_dec favs t with
    | 0 => 1
    | S n => n
    end
  /\ filter (fun u => u <> t) (toggleFavoriteIn t favs) = filter (fun u => u <> t) favs.
Proof.
  destruct (toggleFavoriteIn_cases t favs) as [[Hno ->] | (l1 & l2 & -> & Hl1 & ->)].
  - rewrite count_occ_app, filter_app. simpl.
    assert (Hc : count_occ value_eq_dec favs t = 0).
    { apply count_occ_not_In. rewrite <- list_elem_of_In. exact Hno. }
    rewrite Hc. destruct (value_eq_dec t t); [|congruence]. split; [reflexivity|].
    rewrite filter_cons_False by (intros H; apply H; reflexivity).
    rewrite filter_nil, app_nil_r. reflexivity.
  - rewrite !count_occ_app, !filter_app. simpl.
    assert (Hc : count_occ value_eq_dec l1 t = 0).
    { apply count_occ_not_In. rewrite <- list_elem_of_In. exact Hl1. }
    rewrite Hc. destruct (value_eq_dec t t); [|congruence]. split; [reflexivity|].
    rewrite filter_cons_False by (intros H; apply H; reflexivity). reflexivity.
Qed.

Lemma toggleFavoriteIn_NoDup t favs : NoDup favs -> NoDup (toggleFavoriteIn t favs).
Proof.
  intros Hnd.
  destruct (toggleFavoriteIn_cases t favs) as [[Hno ->] | (l1 & l2 & -> & Hl1 & ->)].
  - apply NoDup_app. split_and!; [assumption | | apply NoDup_singleton].
    intros x Hx ->%list_elem_of_singleton. auto.
  - apply NoDup_app in Hnd as (H1 & H12 & H2). apply NoDup_cons in H2 as [_ H2].
    apply NoDup_app. split_and!; auto.
    intros x Hx Hx2. apply (H12 x Hx). right. exact Hx2.
Qed.

Lemma toggleFavoriteIn_includes t favs u :
  NoDup favs ->
  arrayIncludes u (toggleFavoriteIn t favs)
  = xorb (bool_decide (u = t)) (arrayIncludes u favs).
Proof.
  intros Hnd. unfold arrayIncludes.
  destruct (toggleFavoriteIn_cases t favs) as [[Hno ->] | (l1 & l2 & -> & Hl1 & ->)].
  - destruct (decide (u = t)) as [->|Hne].
    + rewrite (bool_decide_eq_true_2 (t = t)) by reflexivity.
      rewrite (bool_decide_eq_false_2 (t ∈ favs)) by exact Hno.
      apply bool_decide_eq_true_2, elem_of_app. right. left.
    + rewrite (bool_decide_eq_false_2 (u = t)) by exact Hne. simpl.
      apply bool_decide_ext. rewrite elem_of_app, list_elem_of_singleton. naive_solver.
  - apply NoDup_app in Hnd as (H1 & H12 & H2). apply NoDup_cons in H2 as [Ht2 H2].
    destruct (decide (u = t)) as [->|Hne].
    + rewrite (bool_decide_eq_true_2 (t = t)) by reflexivity.
      rewrite (bool_decide_eq_true_2 (t ∈ l1 ++ t :: l2)) by (apply elem_of_app; right; left).
      apply bool_decide_eq_false_2. rewrite elem_of_app. naive_solver.
    + rewrite (bool_decide_eq_false_2 (u = t)) by exact Hne. simpl.
      apply bool_decide_ext. rewrite !elem_of_app, elem_of_cons. naive_solver.
Qed.

Lemma indexOf_last t favs :
  t ∉ favs -> indexOf t (favs ++ [t]) = Some (length favs).
Proof.
  induction favs as [|x favs IH]; intros Hno; simpl.
  - destruct (decide (t = t)); [reflexivity | congruence].
  - apply not_elem_of_cons in Hno as [Hne Hno].
    destruct (decide (x = t)); [congruence|]. rewrite IH by exact Hno. reflexivity.
Qed.

Lemma toggleFavoriteIn_last t favs :
  t ∉ favs -> toggleFavoriteIn t (favs ++ [t]) = favs.
Proof.
  intros Hno. unfold toggleFavoriteIn. rewrite indexOf_last by exact Hno.
  rewrite delete_middle. apply app_nil_r.
Qed.

(** X3.  On a list of favourites without repetition [toggleFavorite] keeps
    it so and flips the membership of the title and of no other; toggling
    the same title twice gives the same favourites again, in the same
    order when the title was no favourite. *)
Theorem toggleFavorite_flips (t : value) (favs : list value) :
  NoDup favs ->
  NoDup (toggleFavoriteIn t favs)
  /\ (forall u, arrayIncludes u (toggleFavoriteIn t favs)
                = xorb (bool_decide (u = t)) (arrayIncludes u favs))
  /\ toggleFavoriteIn t (toggleFavoriteIn t favs) ≡ₚ favs
  /\ ((t ∉ favs) -> toggleFavoriteIn t (toggleFavoriteIn t favs) = favs).
Proof.
  intros Hnd.
  assert (Hback : (t ∉ favs) -> toggleFavoriteIn t (toggleFavoriteIn t favs) = favs).
  { intros Hno.
    destruct (toggleFavoriteIn_cases t favs) as [[_ ->] | (l1 & l2 & -> & _ & _)].
    - apply toggleFavoriteIn_last, Hno.
    - exfalso. apply Hno, elem_of_app. right. left. }
  split_and!.
  - apply toggleFavoriteIn_NoDup, Hnd.
  - intros u. apply toggleFavoriteIn_includes, Hnd.
  - destruct (toggleFavoriteIn_cases t favs) as [[Hno E] | (l1 & l2 & -> & Hl1 & E)].
    + rewrite Hback by exact Hno. reflexivity.
    + rewrite E.
      apply NoDup_app in Hnd as (H1 & H12 & H2). apply NoDup_cons in H2 as [Ht2 H2].
      destruct (toggleFavoriteIn_cases t (l1 ++ l2)) as [[_ ->] | (l3 & l4 & E' & _ & _)].
      * rewrite <- app_assoc. apply Permutation_app_head.
        symmetry. apply Permutation_cons_append.
      * exfalso. assert (Hin : t ∈ l1 ++ l2) by (rewrite E'; apply elem_of_app; right; left).
        apply elem_of_app in Hin as [Hin | Hin]; auto.
  - exact Hback.
Qed.

Lemma toggleFavorite_flips_witness :
  NoDup (toggleFavoriteIn (Str (str "A")) [Str (str "B")])
  /\ (forall u, arrayIncludes u (toggleFavoriteIn (Str (str "A")) [Str (str "B")])
                = xorb (bool_decide (u = Str (str "A"))) (arrayIncludes u [Str (str "B")]))
  /\ toggleFavoriteIn (Str (str "A")) (toggleFavoriteIn (Str (str "A")) [Str (str "B")])
     ≡ₚ [Str (str "B")]
  /\ ((Str (str "A") ∉ [Str (str "B")]) ->
      toggleFavoriteIn (Str (str "A")) (toggleFavoriteIn (Str (str "A")) [Str (str "B")])
      = [Str (str "B")]).
Proof.
  apply (toggleFavorite_flips (Str (str "A")) [Str (str "B")]).
  apply NoDup_singleton.
Defined.

(** X4.  After [toggleFavorite] on favourites without repetition, the
    favourites view holds every channel with the toggled title if the
    title was no favourite, none of them if it was, and of the channels
    with other titles those it held before. *)
Theorem favorites_view_after_toggle (all : list Channel) (t : value) (favs : list value) :
  NoDup favs ->
  favoriteChannelsData all (toggleFavoriteIn t favs)
  = filter (fun c => xorb (bool_decide (title c = t)) (arrayIncludes (title c) favs) = true)
      all.
Proof.
  intros Hnd. unfold favoriteChannelsData. apply list_filter_iff.
  intros c. rewrite toggleFavoriteIn_includes by exact Hnd. reflexivity.
Qed.

Lemma favorites_view_after_toggle_witness :
  favoriteChannelsData [channelOne] (toggleFavoriteIn (title channelOne) [])
  = filter (fun c => xorb (bool_decide (title c = title channelOne))
                       (arrayIncludes (title c) []) = true) [channelOne].
Proof. apply (favorites_view_after_toggle [channelOne] (title channelOne) []), NoDup_nil_2. Defined.

(** ** Categories *)

Lemma codeUnitLe_refl x : codeUnitLe x x = true.
Proof.
  induction x as [|a x IH]; simpl; [reflexivity|].
  rewrite N.eqb_refl, IH. apply orb_true_r.
Qed.

Global Instance sortLe_total : Total sortLe.
Proof.
  intros x. unfold sortLe. induction x as [|a x IH]; intros [|b y]; simpl; auto.
  destruct (N.ltb_spec a b) as [Hab|Hab]; [auto|].
  destruct (N.ltb_spec b a) as [Hba|Hba]; [auto|].
  assert (a = b) as -> by lia. rewrite N.eqb_refl. simpl. apply IH.
Qed.

Global Instance sortLe_trans : Transitive sortLe.
Proof.
  intros x. unfold sortLe. induction x as [|a x IH]; intros [|b y] [|c z]; simpl; auto;
    try discriminate.
  intros [Hab | [Hab Hxy]%andb_true_iff]%orb_true_iff
         [Hbc | [Hbc Hyz]%andb_true_iff]%orb_true_iff.
  - apply N.ltb_lt in Hab, Hbc. apply orb_true_iff. left. apply N.ltb_lt. lia.
  - apply N.eqb_eq in Hbc as ->. rewrite Hab. reflexivity.
  - apply N.eqb_eq in Hab as ->. rewrite Hbc. reflexivity.
  - apply N.eqb_eq in Hab as ->. apply N.eqb_eq in Hbc as ->.
    rewrite N.eqb_refl, (IH y z Hxy Hyz). apply orb_true_r.
Qed.

Global Instance sortLe_antisym : AntiSymm (=) sortLe.
Proof.
  intros x. unfold sortLe. induction x as [|a x IH]; intros [|b y]; simpl; auto;
    try discriminate.
  intros [Hab | [Hab Hxy]%andb_true_iff]%orb_true_iff
         [Hba | [Hba Hyx]%andb_true_iff]%orb_true_iff.
  - apply N.ltb_lt in Hab, Hba. lia.
  - apply N.ltb_lt in Hab. apply N.eqb_eq in Hba. lia.
  - apply N.ltb_lt in Hba. apply N.eqb_eq in Hab. lia.
  - apply N.eqb_eq in Hab as ->. f_equal. apply IH; assumption.
Qed.

Lemma sortStrings_sorted l : StronglySorted sortLe (sortStrings l).
Proof. apply StronglySorted_merge_sort; apply _. Qed.

Lemma sortStrings_elem_of l x : x ∈ sortStrings l <-> x ∈ l.
Proof. unfold sortStrings. rewrite merge_sort_Permutation. reflexivity. Qed.

Lemma sortStrings_NoDup l : NoDup l -> NoDup (sortStrings l).
Proof. unfold sortStrings. rewrite merge_sort_Permutation. auto. Qed.

Lemma setAdd_NoDup x s : NoDup s -> NoDup (setAdd x s).
Proof.
  intros Hs. unfold setAdd. destruct (decide (x ∈ s)); [assumption|].
  apply NoDup_app. split_and!; [assumption | | apply NoDup_singleton].
  intros y Hy ->%list_elem_of_singleton. auto.
Qed.

Lemma setAdd_elem_of x s y : y ∈ setAdd x s <-> y = x \/ y ∈ s.
Proof.
  unfold setAdd. destruct (decide (x ∈ s)) as [Hin|Hno].
  - split; [auto | intros [->|H]; assumption].
  - rewrite elem_of_app, list_elem_of_singleton. tauto.
Qed.

Lemma addCategory_elem_of s ch y :
  y ∈ addCategory s ch <-> y ∈ s \/ (groupTitle ch = Str y /\ listed y).
Proof.
  unfold addCategory, listed. destruct (groupTitle ch) as [| |[|a g]].
  - split; [auto | intros [H|[H _]]; [assumption | discriminate]].
  - split; [auto | intros [H|[H _]]; [assumption | discriminate]].
  - split; [auto | intros [H|[[= <-] [H _]]]; [assumption | congruence]].
  - destruct (decide (a :: g = str "Uncategorized")) as [E|Hne].
    + split; [auto | intros [H|[[= <-] [_ H]]]; [assumption | congruence]].
    + rewrite setAdd_elem_of. split.
      * intros [-> | H]; [right | left; assumption].
        split_and!; [reflexivity | discriminate | assumption].
      * intros [H | [[= <-] _]]; auto.
Qed.

Lemma addCategory_NoDup s ch : NoDup s -> NoDup (addCategory s ch).
Proof.
  intros Hs. unfold addCategory. destruct (groupTitle ch) as [| |[|a g]]; auto.
  destruct (decide _); auto using setAdd_NoDup.
Qed.

Lemma fold_addCategory cs : forall s,
  NoDup s ->
  NoDup (fold_left addCategory cs s)
  /\ forall y, y ∈ fold_left addCategory cs s
       <-> y ∈ s \/ exists ch, ch ∈ cs /\ groupTitle ch = Str y /\ listed y.
Proof.
  induction cs as [|ch cs IH]; intros s Hs; simpl.
  - split; [assumption|]. intros y. split; [auto|].
    intros [H | (ch & Hch & _)]; [assumption|]. apply elem_of_nil in Hch as [].
  - destruct (IH (addCategory s ch) (addCategory_NoDup s ch Hs)) as [Hnd Hin].
    split; [assumption|]. intros y. rewrite Hin, addCategory_elem_of. split.
    + intros [[H | H] | (ch' & Hch' & H)]; [auto | right | right].
      * exists ch. split; [left | assumption].
      * exists ch'. split; [right; assumption | assumption].
    + intros [H | (ch' & [-> | Hch']%elem_of_cons & H)]; [auto | auto |].
      right. eauto.
Qed.

Lemma categoriesOf_elem_of cs c :
  c ∈ categoriesOf cs
  <-> c = str "All Categories" \/ (exists ch, ch ∈ cs /\ groupTitle ch = Str c /\ listed c).
Proof.
  unfold categoriesOf. rewrite sortStrings_elem_of.
  destruct (fold_addCategory cs [str "All Categories"]) as [_ ->];
    [apply NoDup_singleton|].
  rewrite list_elem_of_singleton. reflexivity.
Qed.

(** X5.  The category list of [populateCategoryFilter]: in ascending order
    of code units, without repetition, and holding [All Categories] and
    the group titles of the channels that are strings, not empty and not
    [Uncategorized], and nothing else. *)
Theorem categories_sorted_without_repetition (cs : list Channel) :
  StronglySorted sortLe (categoriesOf cs)
  /\ NoDup (categoriesOf cs)
  /\ forall c, c ∈ categoriesOf cs
       <-> c = str "All Categories"
           \/ (exists ch, ch ∈ cs /\ groupTitle ch = Str c /\ listed c).
Proof.
  split_and!.
  - apply sortStrings_sorted.
  - apply sortStrings_NoDup.
    apply (fold_addCategory cs [str "All Categories"]), NoDup_singleton.
  - apply categoriesOf_elem_of.
Qed.

Lemma addCategoryFirst_elem_of s ch y :
  y ∈ addCategoryFirst s ch <-> y ∈ s \/ (groupTitle ch = Str y /\ y <> []).
Proof.
  unfold addCategoryFirst. destruct (groupTitle ch) as [| |[|a g]].
  - split; [auto | intros [H|[H _]]; [assumption | discriminate]].
  - split; [auto | intros [H|[H _]]; [assumption | discriminate]].
  - split; [auto | intros [H|[[= <-] H]]; [assumption | congruence]].
  - rewrite setAdd_elem_of. split.
    + intros [-> | H]; [right | left; assumption]. split; [reflexivity | discriminate].
    + intros [H | [[= <-] _]]; auto.
Qed.

Lemma fold_addCategoryFirst cs : forall s,
  NoDup s ->
  NoDup (fold_left addCategoryFirst cs s)
  /\ forall y, y ∈ fold_left addCategoryFirst cs s
       <-> y ∈ s \/ exists ch, ch ∈ cs /\ groupTitle ch = Str y /\ y <> [].
Proof.
  induction cs as [|ch cs IH]; intros s Hs; simpl.
  - split; [assumption|]. intros y. split; [auto|].
    intros [H | (ch & Hch & _)]; [assumption|]. apply elem_of_nil in Hch as [].
  - assert (NoDup (addCategoryFirst s ch)) as Hs'.
    { unfold addCategoryFirst. destruct (groupTitle ch) as [| |[|a g]]; auto using setAdd_NoDup. }
    destruct (IH _ Hs') as [Hnd Hin].
    split; [assumption|]. intros y. rewrite Hin, addCategoryFirst_elem_of. split.
    + intros [[H | H] | (ch' & Hch' & H)]; [auto | right | right].
      * exists ch. split; [left | assumption].
      * exists ch'. split; [right; assumption | assumption].
    + intros [H | (ch' & [-> | Hch']%elem_of_cons & H)]; [auto | auto |].
      right. eauto.
Qed.

Lemma StronglySorted_filter {A} (R : relation A) (P : A -> Prop)
    `{forall x, Decision (P x)} (l : list A) :
  StronglySorted R l -> StronglySorted R (filter P l).
Proof.
  induction 1 as [|x l Hl IH Hx]; [constructor|].
  rewrite filter_cons. destruct (decide (P x)); [|assumption].
  constructor; [assumption|].
  apply Forall_forall. intros y [_ Hy]%list_elem_of_filter.
  rewrite Forall_forall in Hx. auto.
Qed.

(** X6.  The two versions of [populateCategoryFilter] differ by
    [Uncategorized] only: the later one lists the categories of the earlier
    one without it, in the same order. *)
Theorem categories_without_Uncategorized (cs : list Channel) :
  categoriesOf cs = filter (fun c => c <> str "Uncategorized") (categoriesOfFirst cs).
Proof.
  apply (StronglySorted_unique sortLe).
  - apply sortStrings_sorted.
  - apply StronglySorted_filter, sortStrings_sorted.
  - assert (NoDup (categoriesOfFirst cs)) as Hnd.
    { apply sortStrings_NoDup.
      apply (fold_addCategoryFirst cs [str "All Categories"]), NoDup_singleton. }
    apply NoDup_Permutation.
    + apply sortStrings_NoDup.
      apply (fold_addCategory cs [str "All Categories"]), NoDup_singleton.
    + apply NoDup_filter, Hnd.
    + intros c. rewrite categoriesOf_elem_of, list_elem_of_filter.
      unfold categoriesOfFirst. rewrite sortStrings_elem_of.
      destruct (fold_addCategoryFirst cs [str "All Categories"]) as [_ ->];
        [apply NoDup_singleton|].
      rewrite list_elem_of_singleton. unfold listed. split.
      * intros [-> | (ch & Hch & Hg & Hne & Hun)].
        -- split; [discriminate | left; reflexivity].
        -- split; [assumption | right; eauto].
      * intros [Hun [-> | (ch & Hch & Hg & Hne)]]; [left; reflexivity | right; eauto 6].
Qed.

(** ** The search filter *)

Lemma parsed_wellFormed m3uText cs : parseM3U m3uText = Ok cs -> Forall wellFormed cs.
Proof.
  unfold parseM3U, Second.parseM3U, Second.run.
  destruct (forOf_invariant Second.lineStep
              (fun st => Forall wellFormed (channels st)
                 /\ (forall c, currentChannel st = Some c -> truthy (title c) = true)))
    with (l := split LF m3uText) (st := initial) as (st & -> & Hcs & _).
  - intros st x [H1 H2]. apply Second_lineStep_wellFormed; assumption.
  - split; [constructor | discriminate].
  - simpl. intros [= <-]. assumption.
Qed.

Lemma includes_nil s : includes s [] = true.
Proof. destruct s; reflexivity. Qed.

Lemma filterArray_sublist {A} (f : A -> outcome bool) l fs :
  filterArray f l = Ok fs -> fs `sublist_of` l.
Proof.
  revert fs. induction l as [|x l IH]; simpl; intros fs.
  - intros [= <-]. constructor.
  - destruct (f x) as [keep| |]; simpl; try discriminate.
    destruct (filterArray f l) as [kept| |]; simpl; try discriminate.
    intros [= <-]. specialize (IH kept eq_refl).
    destruct keep; [apply sublist_skip | apply sublist_cons]; assumption.
Qed.

Lemma filterArray_strings E searchTerm selectedCategory l :
  Forall (fun ch => exists t, title ch = Str t) l ->
  exists fs, filterArray (matchesFilters E searchTerm selectedCategory) l = Ok fs
    /\ forall ch, ch ∈ fs
         <-> ch ∈ l /\ matchesFilters E searchTerm selectedCategory ch = Ok true.
Proof.
  induction 1 as [|x l [t Ht] Hl (fs & IH & Hin)]; simpl.
  - exists []. split; [reflexivity|]. intros ch. split.
    + intros []%elem_of_nil.
    + intros [[]%elem_of_nil _].
  - rewrite IH. unfold matchesFilters at 1. rewrite Ht. simpl.
    eexists. split; [reflexivity|]. intros ch.
    assert (matchesFilters E searchTerm selectedCategory x
            = Ok (includes (lowerCase E t) searchTerm
                  && (bool_decide (selectedCategory = str "all")
                      || bool_decide (groupTitle x = Str selectedCategory)))) as Hx
      by (unfold matchesFilters; rewrite Ht; reflexivity).
    destruct (includes (lowerCase E t) searchTerm
              && (bool_decide (selectedCategory = str "all")
                  || bool_decide (groupTitle x = Str selectedCategory))).
    + rewrite !elem_of_cons, Hin. split.
      * intros [-> | [H1 H2]]; auto.
      * intros [[-> | H1] H2]; auto.
    + rewrite elem_of_cons, Hin. split.
      * intros [H1 H2]; auto.
      * intros [[-> | H1] H2]; [congruence | auto].
Qed.

Lemma matchesFilters_true E searchTerm selectedCategory ch :
  matchesFilters E searchTerm selectedCategory ch = Ok true
  <-> exists t, title ch = Str t
        /\ includes (lowerCase E t) searchTerm = true
        /\ (selectedCategory = str "all" \/ groupTitle ch = Str selectedCategory).
Proof.
  unfold matchesFilters. destruct (title ch) as [| |t].
  - split; [discriminate | intros (t' & [=] & _)].
  - split; [discriminate | intros (t' & [=] & _)].
  - split.
    + intros [= [H1 [H2|H2]%orb_true_iff]%andb_true_iff].
      * exists t. split_and!; auto. left. apply bool_decide_eq_true in H2. exact H2.
      * exists t. split_and!; auto. right. apply bool_decide_eq_true in H2. exact H2.
    + intros (t' & [= <-] & H1 & H2). rewrite H1. simpl. f_equal.
      apply orb_true_iff. destruct H2 as [H2|H2]; [left | right];
        apply bool_decide_eq_true; exact H2.
Qed.


(** X8.  The first entry of the category list.  [populateCategoryFilter]
    gives the entry [All Categories] the value [All Categories], while
    [applyFilters] shows every group for the value [all] only: with that
    entry selected the filter keeps the channels whose group title is
    [All Categories] and no other, and the value [all] is among the
    options only if it is the group title of a channel. *)
Theorem all_categories_entry (E : externals) (d : surroundings) (cs fs : list Channel) :
  categoryValue d = str "All Categories" ->
  filterChannels E d cs = Ok fs ->
  OptionElement (str "All Categories") (str "All Categories") ∈ categoryOptions cs
  /\ Forall (fun ch => groupTitle ch = Str (str "All Categories")) fs
  /\ (str "all" ∈ (optionValue <$> categoryOptions cs)
      <-> exists ch, ch ∈ cs /\ groupTitle ch = Str (str "all")).
Proof.
  intros Hd Hfs. split_and!.
  - unfold categoryOptions. apply list_elem_of_fmap.
    exists (str "All Categories"). split; [reflexivity|].
    apply categoriesOf_elem_of. left. reflexivity.
  - unfold filterChannels in Hfs. rewrite Hd in Hfs.
    revert fs Hfs. induction cs as [|x cs IH]; simpl; intros fs.
    + intros [= <-]. constructor.
    + destruct (matchesFilters E _ _ x) as [keep| |] eqn:Hx; simpl; try discriminate.
      destruct (filterArray _ cs) as [kept| |]; simpl; try discriminate.
      intros [= <-]. specialize (IH kept eq_refl).
      destruct keep; [|assumption]. constructor; [|assumption].
      apply matchesFilters_true in Hx as (t & _ & _ & [H|H]); [discriminate | exact H].
  - unfold categoryOptions. rewrite list_elem_of_fmap. split.
    + intros (o & Ho & [c [-> Hc]]%list_elem_of_fmap). simpl in Ho. subst c.
      apply categoriesOf_elem_of in Hc as [H | (ch & Hch & Hg & _)];
        [discriminate | eauto].
    + intros (ch & Hch & Hg).
      exists (OptionElement (str "all") (str "all")). split; [reflexivity|].
      apply list_elem_of_fmap. exists (str "all"). split; [reflexivity|].
      apply categoriesOf_elem_of. right. exists ch. split_and!; auto.
      split; discriminate.
Qed.

Lemma all_categories_entry_witness :
  exists fs,
    Forall (fun ch => groupTitle ch = Str (str "All Categories")) fs
    /\ filterChannels {| lowerCase := fun s => s; hasFavoriteButton := fun _ _ => true;
                         typeErrorMessage := [] |}
         {| searchValue := []; categoryValue := str "All Categories";
            setItemError := None; clapprError := None |}
         [channelOne] = Ok fs.
Proof.
  exists []. split; [|reflexivity].
  apply (all_categories_entry
           {| lowerCase := fun s => s; hasFavoriteButton := fun _ _ => true;
              typeErrorMessage := [] |}
           {| searchValue := []; categoryValue := str "All Categories";
              setItemError := None; clapprError := None |}
           [channelOne] []); reflexivity.
Defined.

(** ** The page *)

(** The handlers are run on a page whose fields are variables; every
    branch of the script is one case. *)
Ltac run_handler :=
  unfold handle, domContentLoaded, fetchM3UDataSettle, fetchM3UDataTry, fetchM3UDataStart,
    showFavoritesClick, favoriteClick, playChannel, toggleFavorite, applyFilters,
    populateCategoryFilter, renderFavorites, renderChannels, showPageMessage,
    hidePageMessage, tryCatch, liftOutcome, external, when, read, update, throw,
    mbind, action_bind, mret, action_ret.

Ltac step_handler :=
  cbn -[favoriteChannelsData forallb arrayIncludes filterChannels parseM3U categoryOptions
        toggleFavoriteIn numberToString substring0 looksLikePlaylist falsy Nat.eqb length].

Ltac split_handler :=
  repeat (step_handler;
          match goal with
          | |- context [match ?x with _ => _ end] =>
              lazymatch x with
              | context [match _ with _ => _ end] => fail
              | _ => destruct x eqn:?
              end
          end);
  step_handler.

Lemma after_cons E d e trace p :
  after E ((d, e) :: trace) p = after E trace (handle E d e p).2.
Proof. reflexivity. Qed.

Lemma after_invariant E (I : page -> Prop) :
  (forall d e p, I p -> I (handle E d e p).2) ->
  forall trace p, I p -> I (after E trace p).
Proof.
  intros Hstep trace. induction trace as [|[d e] trace IH]; intros p Hp; [exact Hp|].
  rewrite after_cons. apply IH, Hstep, Hp.
Qed.

Lemma handle_hidden E d e p :
  hidden (handle E d e p).2 = hidden p
  \/ hidden (handle E d e p).2 = Sections true false true
  \/ hidden (handle E d e p).2 = Sections true true false
  \/ hidden (handle E d e p).2 = Sections true true true
  \/ hidden (handle E d e p).2 = Sections true (favoritesHidden (hidden p)) true.
Proof.
  destruct p as [ac fc fv cp cu [ch fh ph] msg bt op].
  destruct e; run_handler; split_handler; auto 6.
Qed.

Lemma channelsHidden_after E trace p :
  channelsHidden (hidden p) = true -> channelsHidden (hidden (after E trace p)) = true.
Proof.
  apply (after_invariant E (fun p => channelsHidden (hidden p) = true)).
  intros d e q Hq.
  destruct (handle_hidden E d e q) as [-> | [-> | [-> | [-> | ->]]]]; auto.
Qed.

(** X9.  Nothing in the script shows the channels section again.  Once it
    is hidden it stays hidden whatever happens next, and it is hidden from
    the first click on the favourites button, or on a card whose channel
    has a stream URL, onwards. *)
Theorem channels_section_never_shown_again (E : externals) (d : surroundings)
    (trace : list (surroundings * event)) (p : page) :
  (channelsHidden (hidden p) = true ->
   channelsHidden (hidden (after E trace p)) = true)
  /\ channelsHidden (hidden (after E ((d, ShowFavoritesClicked) :: trace) p)) = true
  /\ forall channel, falsy (streamUrl channel) = false ->
       channelsHidden (hidden (after E ((d, CardClicked channel) :: trace) p)) = true.
Proof.
  split_and!.
  - apply channelsHidden_after.
  - rewrite after_cons. apply channelsHidden_after.
    destruct p as [ac fc fv cp cu [ch fh ph] msg bt op].
    run_handler; split_handler; reflexivity.
  - intros channel Hurl. rewrite after_cons. apply channelsHidden_after.
    destruct p as [ac fc fv cp cu [ch fh ph] msg bt op].
    run_handler. rewrite Hurl. split_handler; reflexivity.
Qed.

(** X10.  If at most one of the three sections is shown, then so it is
    after every sequence of events, also when handlers throw. *)
Theorem one_section_at_most (E : externals) (trace : list (surroundings * event)) (p : page) :
  oneSectionAtMost (hidden p) = true ->
  oneSectionAtMost (hidden (after E trace p)) = true.
Proof.
  apply (after_invariant E (fun p => oneSectionAtMost (hidden p) = true)).
  intros d e q Hq.
  destruct (handle_hidden E d e q) as [-> | [-> | [-> | [-> | ->]]]]; auto.
  destruct (favoritesHidden (hidden q)); reflexivity.
Qed.

Lemma one_section_at_most_witness :
  oneSectionAtMost
    (hidden (after {| lowerCase := fun s => s; hasFavoriteButton := fun _ _ => true;
                      typeErrorMessage := [] |}
               [({| searchValue := []; categoryValue := str "all";
                    setItemError := None; clapprError := None |}, CardClicked channelOne)]
               (start [] (Sections false true true) (str "Show Favorites") []))) = true.
Proof. apply one_section_at_most. reflexivity. Defined.

(** X11.  The favourites button.  A click while the favourites are hidden
    that returns shows them alone and labels the button [Show All
    Channels]; the next click hides the favourites and, the channels
    section staying hidden, leaves no section shown, with the label [Show
    Favorites]. *)
Theorem show_all_channels_shows_none (E : externals) (d1 d2 : surroundings) (p : page) :
  favoritesHidden (hidden p) = true ->
  (showFavoritesClick E d1 p).1 = Returned tt ->
  let p1 := (showFavoritesClick E d1 p).2 in
  let p2 := (showFavoritesClick E d2 p1).2 in
  hidden p1 = Sections true false true
  /\ showFavoritesBtnText p1 = str "Show All Channels"
  /\ hidden p2 = Sections true true true
  /\ showFavoritesBtnText p2 = str "Show Favorites".
Proof.
  destruct p as [ac fc fv cp cu [ch fh ph] msg bt op].
  cbn [hidden favoritesHidden]. intros ->.
  run_handler. step_handler.
  destruct (forallb _ _); step_handler; [|discriminate].
  intros _. split_handler; auto.
Qed.

Lemma show_all_channels_shows_none_witness :
  hidden (after {| lowerCase := fun s => s; hasFavoriteButton := fun _ _ => true;
                   typeErrorMessage := [] |}
            [({| searchValue := []; categoryValue := str "all";
                 setItemError := None; clapprError := None |}, ShowFavoritesClicked);
             ({| searchValue := []; categoryValue := str "all";
                 setItemError := None; clapprError := None |}, ShowFavoritesClicked)]
            (start [] (Sections false true true) (str "Show Favorites") []))
  = Sections true true true.
Proof.
  apply (show_all_channels_shows_none
           {| lowerCase := fun s => s; hasFavoriteButton := fun _ _ => true;
              typeErrorMessage := [] |}
           {| searchValue := []; categoryValue := str "all";
              setItemError := None; clapprError := None |}
           {| searchValue := []; categoryValue := str "all";
              setItemError := None; clapprError := None |}
           (start [] (Sections false true true) (str "Show Favorites") []));
    reflexivity.
Defined.

(** ** The request *)

(** X12.  [fetchM3UData] has no failing path once the reply is there:
    whatever the reply and whatever rendering does, the continuation
    returns and replaces the loading message by a shown message of type
    [success], [warning] or [danger], the sections and the favourites being
    left alone.  [success] tells that the reply was ok, that its text
    parsed into at least one channel and that these channels are now both
    lists, with their categories as options; a reply that is rejected, not
    ok or not a playlist is reported as [danger] and leaves both lists as
    they were. *)
Theorem fetchM3UData_settles (E : externals) (r : reply) (p : page) :
  let p' := (fetchM3UDataSettle E r p).2 in
  (fetchM3UDataSettle E r p).1 = Returned tt
  /\ messageDisplayed (message p') = true
  /\ (messageType (message p') = str "success"
      \/ messageType (message p') = str "warning"
      \/ messageType (message p') = str "danger")
  /\ hidden p' = hidden p
  /\ favorites p' = favorites p
  /\ (messageType (message p') = str "success" ->
      exists status statusText text channels,
        r = Response true status statusText text
        /\ parseM3U text = Ok channels
        /\ channels <> []
        /\ allChannels p' = channels
        /\ filteredChannels p' = channels
        /\ options p' = categoryOptions channels
        /\ messageText (message p')
           = str "Loaded " ++ numberToString (length channels) ++ str " channels.")
  /\ ((forall status statusText text,
         r = Response true status statusText text -> looksLikePlaylist text = false) ->
      messageType (message p') = str "danger"
      /\ allChannels p' = allChannels p
      /\ filteredChannels p' = filteredChannels p).
Proof.
  destruct p as [ac fc fv cp cu hd msg bt op].
  destruct r as [error | ok status statusText text].
  - run_handler. step_handler. split_and!; auto.
    intros [=].
  - destruct ok; [|run_handler; step_handler; split_and!; auto; intros [=]].
    destruct (looksLikePlaylist text) eqn:Hlooks.
    + destruct (Second_parseM3U_returns text) as [channels Hparse].
      change (Second.parseM3U text) with (parseM3U text) in Hparse.
      run_handler. rewrite Hlooks, Hparse. step_handler.
      destruct channels as [|c channels].
      * step_handler. split_and!; auto.
        -- intros [=].
        -- intros H. specialize (H _ _ _ eq_refl). congruence.
      * change (length (c :: channels) =? 0) with false. step_handler.
        destruct (forallb _ _) eqn:Hcards; step_handler.
        -- split_and!; auto.
           ++ intros _. exists status, statusText, text, (c :: channels).
              split_and!; auto.
           ++ intros H. specialize (H _ _ _ eq_refl). congruence.
        -- split_and!; auto.
           ++ intros [=].
           ++ intros H. specialize (H _ _ _ eq_refl). congruence.
    + run_handler. rewrite Hlooks. step_handler. split_and!; auto.
      intros [=].
Qed.

Lemma fetchM3UData_settles_witness :
  messageType (message (fetchM3UDataSettle
     {| lowerCase := fun s => s; hasFavoriteButton := fun _ _ => true;
        typeErrorMessage := [] |}
     (Response true 200 (str "OK") scenario1)
     (start [] (Sections false true true) (str "Show Favorites") [])).2)
  = str "success"
  /\ exists status statusText text channels,
       Response true 200 (str "OK") scenario1 = Response true status statusText text
       /\ parseM3U text = Ok channels
       /\ channels <> [].
Proof.
  split; [reflexivity|].
  destruct (fetchM3UData_settles
              {| lowerCase := fun s => s; hasFavoriteButton := fun _ _ => true;
                 typeErrorMessage := [] |}
              (Response true 200 (str "OK") scenario1)
              (start [] (Sections false true true) (str "Show Favorites") []))
    as (_ & _ & _ & _ & _ & H & _).
  destruct (H eq_refl) as (status & statusText & text & channels & H1 & H2 & H3 & _).
  exists status, statusText, text, channels. auto.
Defined.

(** ** The lists of channels *)

Lemma handle_lists E d e p :
  Forall wellFormed (allChannels p) /\ filteredChannels p `sublist_of` allChannels p ->
  Forall wellFormed (allChannels (handle E d e p).2)
  /\ filteredChannels (handle E d e p).2 `sublist_of` allChannels (handle E d e p).2.
Proof.
  destruct p as [ac fc fv cp cu hd msg bt op]. cbn [allChannels filteredChannels].
  intros [Hwf Hsub].
  destruct e as [|r| | | |]; run_handler; split_handler; auto;
    try (split; [assumption|]; eapply filterArray_sublist; eassumption).
  all: split; [eapply parsed_wellFormed; eassumption | reflexivity].
Qed.

Lemma handle_favorites E d e p :
  NoDup (favorites p) -> NoDup (favorites (handle E d e p).2).
Proof.
  destruct p as [ac fc fv cp cu hd msg bt op]. cbn [favorites]. intros Hnd.
  destruct e as [|r| | | |]; run_handler; split_handler; auto using toggleFavoriteIn_NoDup.
Qed.

(** X13.  Along every sequence of events from the start of the script,
    also when handlers throw: every channel held in [allChannels] has a
    title that is a non-empty string and an http(s) stream URL,
    [filteredChannels] is a subsequence of [allChannels], and the
    favourites hold no title twice if the stored ones did not. *)
Theorem lists_along_events (E : externals) (trace : list (surroundings * event))
    (stored : list value) (h : sections) (btn : jsstring) (opts : list optionElement) :
  let p := after E trace (start stored h btn opts) in
  Forall wellFormed (allChannels p)
  /\ filteredChannels p `sublist_of` allChannels p
  /\ (NoDup stored -> NoDup (favorites p)).
Proof.
  cbn zeta.
  assert (Forall wellFormed (allChannels (after E trace (start stored h btn opts)))
          /\ filteredChannels (after E trace (start stored h btn opts))
             `sublist_of` allChannels (after E trace (start stored h btn opts))) as [H1 H2].
  { apply (after_invariant E (fun p => Forall wellFormed (allChannels p)
                                       /\ filteredChannels p `sublist_of` allChannels p)).
    - intros d e p. apply handle_lists.
    - split; [constructor | reflexivity]. }
  split_and!; [exact H1 | exact H2 |].
  intros Hnd. apply (after_invariant E (fun p => NoDup (favorites p))).
  - intros d e p. apply handle_favorites.
  - exact Hnd.
Qed.

(** ** Playing a channel *)

Lemma wellFormed_plays c : wellFormed c -> falsy (streamUrl c) = false.
Proof.
  intros (t & u & _ & _ & -> & Hu). destruct u as [|a u]; [|reflexivity].
  destruct Hu as [Hu | Hu]; discriminate Hu.
Qed.

(** X14.  Every channel of a parsed playlist passes the guard of
    [playChannel]: the message is hidden and the player section alone is
    shown.  If Clappr does not throw, the call returns with a player and
    the http(s) stream URL of the channel as the current one; if it
    throws, the error leaves the handler with the sections already
    switched and the player variable and the current URL as before. *)
Theorem parsed_channel_plays (d : surroundings) (m3uText : jsstring) (cs : list Channel)
    (channel : Channel) (p : page) :
  parseM3U m3uText = Ok cs ->
  channel ∈ cs ->
  let p' := (playChannel d channel p).2 in
  hidden p' = Sections true true false
  /\ messageDisplayed (message p') = false
  /\ match clapprError d with
     | None =>
         (playChannel d channel p).1 = Returned tt
         /\ clapprPlayer p' = true
         /\ currentStreamUrl p' = streamUrl channel
         /\ exists u, streamUrl channel = Str u /\ validUrl u = true
     | Some error =>
         (playChannel d channel p).1 = Threw error
         /\ clapprPlayer p' = clapprPlayer p
         /\ currentStreamUrl p' = currentStreamUrl p
     end.
Proof.
  intros Hparse Hin.
  pose proof (parsed_wellFormed _ _ Hparse) as Hwf.
  rewrite Forall_forall in Hwf. specialize (Hwf _ Hin).
  pose proof (wellFormed_plays _ Hwf) as Hurl.
  destruct p as [ac fc fv cp cu [ch fh ph] msg bt op].
  run_handler. rewrite Hurl. step_handler.
  destruct cp, (clapprError d); step_handler; split_and!; auto.
  all: destruct Hwf as (t & u & _ & _ & Hu & Hv); exists u; split; [exact Hu|];
    unfold validUrl; apply orb_true_iff; exact Hv.
Qed.

Lemma parsed_channel_plays_witness :
  currentStreamUrl
    (playChannel {| searchValue := []; categoryValue := str "all";
                    setItemError := None; clapprError := None |}
       channelOne (start [] (Sections false true true) (str "Show Favorites") [])).2
  = streamUrl channelOne.
Proof.
  apply (parsed_channel_plays
           {| searchValue := []; categoryValue := str "all";
              setItemError := None; clapprError := None |}
           scenario1 [channelOne] channelOne
           (start [] (Sections false true true) (str "Show Favorites") [])).
  - vm_compute. reflexivity.
  - apply list_elem_of_singleton. reflexivity.
Defined.

(** ** Favourites on the page *)

(** X15.  A click on the favourite button of a card toggles the title of
    its channel in the favourites however the handler ends, and leaves
    both lists of channels alone; the sections stay as they are, or the
    favourites, being shown, are shown alone.  When [localStorage.setItem]
    throws, the handler ends with that error before any grid is rendered
    again, the favourites in memory already changed. *)
Theorem favourite_click (E : externals) (d : surroundings) (channel : Channel) (p : page) :
  let p' := (favoriteClick E d channel p).2 in
  favorites p' = toggleFavoriteIn (title channel) (favorites p)
  /\ allChannels p' = allChannels p
  /\ filteredChannels p' = filteredChannels p
  /\ (hidden p' = hidden p
      \/ (favoritesHidden (hidden p) = false /\ hidden p' = Sections true false true))
  /\ (forall error, setItemError d = Some error ->
        (favoriteClick E d channel p).1 = Threw error /\ hidden p' = hidden p).
Proof.
  destruct p as [ac fc fv cp cu [ch fh ph] msg bt op].
  destruct ch, fh; run_handler; split_handler; split_and!; auto; try discriminate.
  all: intros error [= <-]; auto.
Qed.

(** ** Handlers that return *)

Lemma fetchM3UData_returns E r p : (fetchM3UDataSettle E r p).1 = Returned tt.
Proof.
  destruct p as [ac fc fv cp cu hd msg bt op].
  destruct r as [error | ok status statusText text]; [reflexivity|].
  destruct ok; [|reflexivity].
  destruct (Second_parseM3U_returns text) as [channels Hparse].
  change (Second.parseM3U text) with (parseM3U text) in Hparse.
  run_handler. rewrite Hparse. split_handler; try reflexivity; discriminate.
Qed.

Lemma forallb_const_true {A} (f : A -> bool) l : (forall x, f x = true) -> forallb f l = true.
Proof. intros H. induction l; simpl; [reflexivity|]. rewrite H. assumption. Qed.

(** X16.  Where the handlers can fail.  If the markup of every card holds
    its favourite button and neither [localStorage.setItem] nor Clappr
    throws, then on a page reached from the start of the script every
    handler returns: the filter of [applyFilters] meets only titles that
    are strings. *)
Theorem handlers_return (E : externals) (d : surroundings) (e : event)
    (trace : list (surroundings * event)) (stored : list value) (h : sections) (btn : jsstring)
    (opts : list optionElement) :
  (forall channel isFavorite, hasFavoriteButton E channel isFavorite = true) ->
  setItemError d = None ->
  clapprError d = None ->
  (handle E d e (after E trace (start stored h btn opts))).1 = Returned tt.
Proof.
  intros Hcards Hstore Hclappr.
  assert (Forall wellFormed (allChannels (after E trace (start stored h btn opts)))) as Hwf.
  { apply (after_invariant E (fun p => Forall wellFormed (allChannels p)
                                       /\ filteredChannels p `sublist_of` allChannels p)).
    - intros d' e' p. apply handle_lists.
    - split; [constructor | reflexivity]. }
  destruct (after E trace (start stored h btn opts)) as [ac fc fv cp cu [ch fh ph] msg bt op].
  cbn [allChannels] in Hwf.
  assert (forall l fv', forallb (fun channel => hasFavoriteButton E channel
                                    (arrayIncludes (title channel) fv')) l = true) as Hrender.
  { intros l fv'. apply forallb_const_true. intros x. apply Hcards. }
  assert (forall d', exists fs, filterChannels E d' ac = Ok fs) as Hfilter.
  { intros d'. destruct (filterArray_strings E (lowerCase E (searchValue d'))
                           (categoryValue d') ac) as (fs & Hfs & _); [|eauto].
    eapply Forall_impl; [exact Hwf|]. intros c (t & u & Ht & _). eauto. }
  destruct e as [|r| | | channel | channel].
  - reflexivity.
  - apply fetchM3UData_returns.
  - destruct (Hfilter d) as [fs Hfs].
    run_handler. step_handler. rewrite Hfs. step_handler. rewrite Hrender. reflexivity.
  - destruct (Hfilter d) as [fs Hfs].
    run_handler. destruct fh; step_handler; rewrite ?Hfs; step_handler;
      rewrite ?Hrender; reflexivity.
  - run_handler. rewrite Hstore. step_handler.
    destruct ch, fh; repeat (step_handler; rewrite Hrender); reflexivity.
  - run_handler. rewrite Hclappr. split_handler; reflexivity.
Qed.

Lemma handlers_return_witness :
  (handle {| lowerCase := fun s => s; hasFavoriteButton := fun _ _ => true;
             typeErrorMessage := [] |}
     {| searchValue := str "one"; categoryValue := str "News";
        setItemError := None; clapprError := None |}
     FiltersChanged
     (after {| lowerCase := fun s => s; hasFavoriteButton := fun _ _ => true;
               typeErrorMessage := [] |}
        [({| searchValue := []; categoryValue := str "all";
             setItemError := None; clapprError := None |},
          FetchSettled (Response true 200 (str "OK") scenario1))]
        (start [] (Sections false true true) (str "Show Favorites") []))).1
  = Returned tt.
Proof. apply handlers_return; reflexivity. Defined.

(** * More of the parser: properties *)

(** ** Lines of the playlist *)

Lemma trimStart_spaces ws : Forall (fun c => isSpace c = true) ws -> trimStart ws = [].
Proof. intros H. rewrite <- (app_nil_r ws). apply trimStart_app_space, H. Qed.

Lemma trimStart_head l :
  trimStart l = [] \/ exists c r, trimStart l = c :: r /\ isSpace c = false.
Proof.
  induction l as [|c l IH]; simpl; [auto|].
  destruct (isSpace c) eqn:Hc; [exact IH | right; eauto].
Qed.

Lemma trim_idempotent l : trim (trim l) = trim l.
Proof.
  unfold trim. destruct (trimStart_head l) as [-> | (c & r & -> & Hc)]; [reflexivity|].
  rewrite trimEnd_cons_notSpace by exact Hc. cbn [trimStart]. rewrite Hc.
  rewrite <- trimEnd_cons_notSpace by exact Hc. apply trimEnd_idempotent.
Qed.

Lemma trim_app_space l ws :
  Forall (fun c => isSpace c = true) ws -> trim (l ++ ws) = trim l.
Proof.
  intros Hws. unfold trim.
  destruct (trimStart_suffix l) as (ws0 & E & Hws0).
  destruct (trimStart_head l) as [H0 | (c & r & Hr & Hc)].
  - rewrite H0 in *. rewrite app_nil_r in E. subst ws0.
    rewrite trimStart_app_space by exact Hws0.
    rewrite trimStart_spaces by exact Hws. reflexivity.
  - rewrite Hr in *. rewrite E at 1. rewrite <- app_assoc. cbn [app].
    rewrite trimStart_app_notSpace by exact Hc.
    rewrite trimStart_spaces by exact Hws0. cbn [app].
    change (c :: r ++ ws) with ((c :: r) ++ ws).
    apply trimEnd_app_space, Hws.
Qed.

Lemma Second_lineStep_trim st l : Second.lineStep st (trim l) = Second.lineStep st l.
Proof. unfold Second.lineStep. rewrite trim_idempotent. reflexivity. Qed.

Lemma Second_forOf_trimmed ls1 : forall ls2 st,
  trim <$> ls1 = trim <$> ls2 ->
  forOf Second.lineStep ls1 st = forOf Second.lineStep ls2 st.
Proof.
  induction ls1 as [|l1 ls1 IH]; intros [|l2 ls2] st E; try discriminate; [reflexivity|].
  rewrite !fmap_cons in E. injection E as E1 E2.
  rewrite !forOf_cons.
  rewrite <- (Second_lineStep_trim st l1), E1, Second_lineStep_trim.
  destruct (Second.lineStep st l2) as [st'| |]; cbn [bind]; auto.
Qed.

(** X17.  The second declaration reads its lines trimmed: two texts whose
    lines are the same up to white space at their ends parse to the same
    channels. *)
Theorem parser_reads_trimmed_lines (a b : jsstring) :
  trim <$> split LF a = trim <$> split LF b ->
  parseM3U a = parseM3U b.
Proof.
  intros E. unfold parseM3U, Second.parseM3U, Second.run.
  rewrite (Second_forOf_trimmed _ _ _ E). reflexivity.
Qed.

Lemma parser_reads_trimmed_lines_witness :
  parseM3U (str "  #EXTINF:-1,One  " ++ LF :: str " http://x/1 ")
  = parseM3U (str "#EXTINF:-1,One" ++ LF :: str "http://x/1").
Proof. apply parser_reads_trimmed_lines. reflexivity. Defined.

Lemma split_crlf s :
  Forall2 (fun l' l => l' = l \/ l' = l ++ [CR]) (split LF (crlf s)) (split LF s).
Proof.
  induction s as [|c s IH].
  - repeat constructor.
  - cbn [crlf flat_map]. fold (crlf s).
    destruct (c =? LF)%N eqn:Hc.
    + cbn [app split]. change (CR =? LF)%N with false. cbn [N.eqb].
      rewrite N.eqb_refl. rewrite Hc. constructor; [right; reflexivity | exact IH].
    + cbn [app split]. rewrite Hc.
      destruct IH as [|l' l ls' ls Hl Hls]; [repeat constructor|].
      constructor; [|exact Hls]. destruct Hl as [-> | ->]; [left | right]; reflexivity.
Qed.

(** X18.  Carriage returns before the line feeds make no difference: the
    text with [\r\n] line ends parses to the same channels as the text
    with [\n] line ends. *)
Theorem carriage_returns_tolerated (m3uText : jsstring) :
  parseM3U (crlf m3uText) = parseM3U m3uText.
Proof.
  unfold parseM3U, Second.parseM3U, Second.run.
  rewrite (Second_forOf_trimmed (split LF (crlf m3uText)) (split LF m3uText)); [reflexivity|].
  pose proof (split_crlf m3uText) as H.
  induction H as [|l' l ls' ls Hl _ IH]; [reflexivity|].
  rewrite !fmap_cons, IH. f_equal.
  destruct Hl as [-> | ->]; [reflexivity|].
  apply trim_app_space. repeat constructor.
Qed.

Lemma Second_lineStep_skipped st l : relevant l = false -> Second.lineStep st l = Ok st.
Proof.
  unfold relevant. intros [Hm Hu]%orb_false_iff. unfold Second.lineStep.
  rewrite Hm, Hu.
  destruct (negb (truthy (Str (trim l)))); [reflexivity|].
  destruct (startsWith (trim l) (str "#EXTM3U")); [reflexivity|].
  destruct (currentChannel st); reflexivity.
Qed.

Lemma Second_forOf_relevant ls : forall st,
  forOf Second.lineStep (filter (fun l => relevant l = true) ls) st
  = forOf Second.lineStep ls st.
Proof.
  induction ls as [|l ls IH]; intros st; [reflexivity|].
  rewrite filter_cons, forOf_cons. destruct (decide (relevant l = true)) as [Hl|Hl].
  - rewrite forOf_cons. destruct (Second.lineStep st l); cbn [bind]; auto.
  - apply not_true_is_false in Hl.
    rewrite Second_lineStep_skipped by exact Hl. cbn [bind]. apply IH.
Qed.

(** X19.  The lines that count.  The second declaration skips every line
    that, trimmed, starts neither with [#EXTINF] nor with [http], wherever
    it stands: the text without these lines parses to the same channels.
    So such a line between a metadata line and its URL line does not part
    them. *)
Theorem other_lines_skipped (ls : list jsstring) :
  Forall (fun l => singleLine l = true) ls ->
  parseM3U (unlines (filter (fun l => relevant l = true) ls)) = parseM3U (unlines ls).
Proof.
  intros Hls. unfold parseM3U, Second.parseM3U.
  rewrite !Second_run_unlines; [| exact Hls |].
  2: { apply Forall_forall. intros l [_ Hl]%list_elem_of_filter.
       rewrite Forall_forall in Hls. auto. }
  rewrite Second_forOf_relevant. reflexivity.
Qed.

Lemma other_lines_skipped_witness :
  parseM3U (unlines [str "#EXTINF:-1,One"; str "http://x/1"])
  = parseM3U (unlines [str "#EXTM3U"; str "#EXTINF:-1,One"; str "ftp://x/0"; [];
                       str "http://x/1"]).
Proof.
  apply (other_lines_skipped [str "#EXTM3U"; str "#EXTINF:-1,One"; str "ftp://x/0"; [];
                              str "http://x/1"]).
  repeat constructor.
Defined.

Lemma Second_lineStep_http st u :
  startsWith (trim u) (str "http") = true ->
  exists st', Second.lineStep st u = Ok st' /\ currentChannel st' = None
    /\ (validUrl (trim u) = false -> channels st' = channels st).
Proof.
  intros Hu. unfold Second.lineStep.
  destruct (startsWith_http _ Hu) as (-> & -> & ->). rewrite Hu.
  destruct (currentChannel st) as [c|] eqn:Hcur.
  - rewrite completeChannel_eq. destruct (validUrl (trim u)).
    + eexists. split_and!; [reflexivity | reflexivity | discriminate].
    + eexists. split_and!; reflexivity.
  - exists st. split_and!; auto.
Qed.

Lemma Second_lineStep_no_pending st l :
  currentChannel st = None -> startsWith (trim l) (str "#EXTINF") = false ->
  Second.lineStep st l = Ok st.
Proof.
  intros Hcur Hm. unfold Second.lineStep. rewrite Hm, Hcur.
  destruct (negb (truthy (Str (trim l)))); [reflexivity|].
  destruct (startsWith (trim l) (str "#EXTM3U")); reflexivity.
Qed.

Lemma Second_forOf_no_pending ls : forall st,
  currentChannel st = None ->
  Forall (fun l => startsWith (trim l) (str "#EXTINF") = false) ls ->
  forOf Second.lineStep ls st = Ok st.
Proof.
  induction ls as [|l ls IH]; intros st Hcur Hls; [reflexivity|].
  apply Forall_cons in Hls as [Hl Hls]. rewrite forOf_cons.
  rewrite Second_lineStep_no_pending by assumption. cbn [bind]. apply IH; assumption.
Qed.

(** X20.  One URL line for one metadata line.  A line that, trimmed,
    starts with [http] leaves no pending entry, whether it completed one
    or not; so every line from there to the next metadata line is
    skipped, a second URL line as well. *)
Theorem lines_after_url_skipped (pre skipped post : list jsstring) (u : jsstring) :
  Forall (fun l => singleLine l = true) (pre ++ u :: skipped ++ post) ->
  startsWith (trim u) (str "http") = true ->
  Forall (fun l => startsWith (trim l) (str "#EXTINF") = false) skipped ->
  parseM3U (unlines (pre ++ u :: skipped ++ post)) = parseM3U (unlines (pre ++ u :: post)).
Proof.
  intros Hls Hu Hsk. unfold parseM3U, Second.parseM3U.
  assert (Forall (fun l => singleLine l = true) (pre ++ u :: post)) as Hls'.
  { apply Forall_app in Hls as [H1 H2]. apply Forall_cons in H2 as [H2 H3].
    apply Forall_app in H3 as [_ H3]. apply Forall_app. split; [assumption|].
    constructor; assumption. }
  rewrite !Second_run_unlines by assumption.
  rewrite !forOf_app.
  destruct (forOf Second.lineStep pre initial) as [st| |]; cbn [bind]; try reflexivity.
  rewrite !forOf_cons.
  destruct (Second_lineStep_http st u Hu) as (st' & -> & Hcur & _). cbn [bind].
  rewrite forOf_app, Second_forOf_no_pending by assumption. reflexivity.
Qed.

Lemma lines_after_url_skipped_witness :
  parseM3U (unlines ([str "#EXTINF:-1,One"] ++ str "http://x/1"
                     :: [str "http://x/2"; str "stray"] ++ [str "#EXTINF:-1,Two"]))
  = parseM3U (unlines ([str "#EXTINF:-1,One"] ++ str "http://x/1"
                       :: [str "#EXTINF:-1,Two"])).
Proof.
  apply (lines_after_url_skipped [str "#EXTINF:-1,One"] [str "http://x/2"; str "stray"]
           [str "#EXTINF:-1,Two"] (str "http://x/1")).
  - repeat constructor.
  - reflexivity.
  - repeat constructor.
Defined.

(** X21.  A pending entry is lost to a line that starts with [http] but
    not with [http://] or [https://]: after any lines, a metadata line and
    such a line add no channel and leave no pending entry, so that a URL
    line that follows completes nothing. *)
Theorem bad_scheme_drops_entry (pre : list jsstring) (m u : jsstring) :
  Forall (fun l => singleLine l = true) (pre ++ [m; u]) ->
  startsWith (trim m) (str "#EXTINF") = true ->
  startsWith (trim u) (str "http") = true ->
  validUrl (trim u) = false ->
  exists st st2,
    Second.run (unlines pre) = Ok st
    /\ Second.run (unlines (pre ++ [m; u])) = Ok st2
    /\ channels st2 = channels st
    /\ currentChannel st2 = None
    /\ parseM3U (unlines (pre ++ [m; u])) = parseM3U (unlines pre).
Proof.
  intros Hls Hm Hu Hv.
  assert (Forall (fun l => singleLine l = true) pre) as Hpre.
  { apply Forall_app in Hls as [H _]. exact H. }
  unfold parseM3U, Second.parseM3U.
  rewrite !Second_run_unlines by assumption.
  destruct (Second_runLines_total pre) as (st & Hst & Hli).
  rewrite forOf_app, Hst. cbn [bind forOf].
  assert (exists st1, Second.lineStep st m = Ok st1 /\ channels st1 = channels st) as
    (st1 & -> & Hch1).
  { unfold Second.lineStep. destruct (startsWith_EXTINF _ Hm) as (-> & -> & _). rewrite Hm.
    destruct (matchRegExp (trim m) extinfRegex) as [em|]; [|eauto].
    destruct (Second_parseExtinf_total em (lastIndex st)) as (c & -> & _).
    cbn [bind]. eauto. }
  cbn [bind].
  destruct (Second_lineStep_http st1 u Hu) as (st2 & -> & Hcur & Hch2). cbn [bind].
  specialize (Hch2 Hv).
  exists st, st2. split_and!; [reflexivity | reflexivity | congruence | exact Hcur |].
  rewrite Hch2, Hch1. reflexivity.
Qed.

Lemma bad_scheme_drops_entry_witness :
  parseM3U (unlines ([] ++ [str "#EXTINF:-1,One"; str "httpx://x/1"])) = parseM3U (unlines []).
Proof.
  destruct (bad_scheme_drops_entry [] (str "#EXTINF:-1,One") (str "httpx://x/1"))
    as (st & st2 & _ & _ & _ & _ & H); [repeat constructor | reflexivity.. | exact H].
Defined.

(** ** What the parser stores *)

Lemma attributeValue_match_shape st st' :
  Matches (pattern attributeValueRegex) st st' ->
  exists k v,
    k <> [] /\ Forall (fun c => isWordOrDash c = true) k
    /\ Forall (fun c => isNot quote c = true) v
    /\ captures st' = <[2 := Str v]> (<[1 := Str k]> (captures st)).
Proof.
  intros H. cbn in H. unfold plus, star in H. inv_matches.
  unfold capture; simpl.
  match goal with H : 1 <= length ?k, H0 : Forall (fun c => isNot quote c = true) ?v0 |- _ =>
    exists k, v0; destruct k; [simpl in H; lia|] end.
  split_and!; [discriminate | assumption | assumption |].
  f_equal; [|f_equal]; f_equal; apply take_app_length'; simpl; lia.
Qed.

Lemma exec_attributeValue_shape li s m li' :
  exec attributeValueRegex li s = (Some m, li') ->
  exists whole k v, m = [whole; Str k; Str v] /\ k <> []
    /\ Forall (fun c => isWordOrDash c = true) k
    /\ Forall (fun c => isNot quote c = true) v.
Proof.
  unfold exec. simpl global. cbv iota.
  destruct (length s <? li) eqn:Hlen; [discriminate|].
  destruct (search attributeValueRegex (drop li s) li) as [[[j sj] st]|] eqn:Hs;
    [|discriminate].
  intros [= <- _].
  apply search_Some in Hs as (pre & Hpre & -> & Hm).
  apply rmatch_sound in Hm as (st' & HM & [= <-]).
  apply attributeValue_match_shape in HM as (k & v & Hk & Hword & Hv & Hcaps).
  simpl in Hcaps. rewrite Hcaps. simpl. eauto 10.
Qed.

Section ChannelInvariant.

Variable P : Channel -> Prop.
Hypothesis P_new : P newChannel.
Hypothesis P_title : forall v c, P c -> P (setTitle v c).
Hypothesis P_url : forall v c, P c -> P (setStreamUrl v c).
Hypothesis P_step : forall whole k v c c',
  k <> [] -> Forall (fun x => isWordOrDash x = true) k ->
  Forall (fun x => isNot quote x = true) v ->
  P c -> attributeStep [whole; Str k; Str v] c = Ok c' -> P c'.

Lemma attributeLoop_invariant fuel : forall li s c c' li',
  attributeLoop fuel li s c = Ok (c', li') -> P c -> P c'.
Proof.
  induction fuel as [|fuel IH]; intros li s c c' li' H Hc; [discriminate|].
  simpl in H. destruct (exec attributeValueRegex li s) as [[m|] l1] eqn:He.
  - destruct (attributeStep m c) as [c1| |] eqn:Hstep; try discriminate.
    cbn [bind] in H. eapply IH; [exact H|].
    apply exec_attributeValue_shape in He as (whole & k & v & -> & Hk & Hw & Hv).
    eapply P_step; eassumption.
  - injection H as <- <-. exact Hc.
Qed.

Lemma titleFallback_invariant v c : P c -> P (titleFallback v c).
Proof. unfold titleFallback. destruct (truthy (title c)); auto. Qed.

Lemma Second_parseExtinf_invariant em li c li' :
  Second.parseExtinf em li = Ok (c, li') -> P c.
Proof.
  unfold Second.parseExtinf. intros H.
  destruct (trimmedGroup em 2) as [t| |]; try discriminate. cbn [bind] in H.
  destruct (parseAttributes li (Second.orEmpty (at_ em 1)) newChannel)
    as [[c0 l0]| |] eqn:Hp; try discriminate.
  cbn [bind fst snd] in H. injection H as <- <-.
  apply titleFallback_invariant, titleFallback_invariant.
  eapply attributeLoop_invariant; [exact Hp | exact P_new].
Qed.

Lemma First_parseExtinf_invariant line li c li' :
  First.parseExtinf line li = Ok (c, li') -> P c.
Proof.
  unfold First.parseExtinf. intros H.
  destruct (matchRegExp line attributeRegex) as [em|].
  - destruct (trimmedGroup em 2) as [t| |]; try discriminate. cbn [bind] in H.
    destruct (parseAttributes li (at_ em 1) newChannel) as [[c0 l0]| |] eqn:Hp;
      try discriminate.
    cbn [bind fst snd] in H. injection H as <- <-.
    apply titleFallback_invariant.
    eapply attributeLoop_invariant; [exact Hp | exact P_new].
  - destruct (matchRegExp line titleRegex) as [tm|].
    + destruct (truthy (at_ tm 1)).
      * destruct (trimOf (at_ tm 1)) as [t| |]; try discriminate.
        cbn [bind] in H. injection H as <- <-. apply P_title, P_new.
      * injection H as <- <-. exact P_new.
    + injection H as <- <-. exact P_new.
Qed.

(** What holds of the channels and of the pending entry. *)
Lemma completeChannel_invariant url c st st' :
  Forall P (channels st) -> P c ->
  completeChannel url c st = Ok st' ->
  Forall P (channels st') /\ currentChannel st' = None.
Proof.
  intros Hcs Hc. rewrite completeChannel_eq. intros [= <-].
  destruct (validUrl url); cbn [channels currentChannel]; split; auto.
  apply Forall_app. split; [assumption|]. constructor; [apply P_url, Hc | constructor].
Qed.

Lemma Second_lineStep_invariant st line st' :
  Forall P (channels st) /\ (forall c, currentChannel st = Some c -> P c) ->
  Second.lineStep st line = Ok st' ->
  Forall P (channels st') /\ (forall c, currentChannel st' = Some c -> P c).
Proof.
  intros [Hcs Hcur]. unfold Second.lineStep.
  destruct (negb (truthy (Str (trim line)))); [intros [= <-]; split; assumption|].
  destruct (startsWith (trim line) (str "#EXTM3U")); [intros [= <-]; split; assumption|].
  destruct (startsWith (trim line) (str "#EXTINF")).
  - destruct (matchRegExp (trim line) extinfRegex) as [em|].
    + destruct (Second.parseExtinf em (lastIndex st)) as [[c li']| |] eqn:Hp;
        try discriminate.
      cbn [bind fst snd]. intros [= <-]. cbn [channels currentChannel].
      split; [assumption|]. intros c' [= <-].
      eapply Second_parseExtinf_invariant, Hp.
    + intros [= <-]. cbn [channels currentChannel]. split; [assumption | discriminate].
  - destruct (currentChannel st) as [c|] eqn:Hc;
      [|intros [= <-]; split; [assumption | rewrite Hc; discriminate]].
    destruct (startsWith (trim line) (str "http"));
      [|intros [= <-]; split;
        [assumption | rewrite Hc; intros c' [= <-]; apply Hcur; reflexivity]].
    intros H. eapply completeChannel_invariant in H as [H1 H2]; eauto.
    split; [assumption|]. rewrite H2. discriminate.
Qed.

Lemma First_lineStep_invariant st line st' :
  Forall P (channels st) /\ (forall c, currentChannel st = Some c -> P c) ->
  First.lineStep st line = Ok st' ->
  Forall P (channels st') /\ (forall c, currentChannel st' = Some c -> P c).
Proof.
  intros [Hcs Hcur]. unfold First.lineStep.
  destruct (decide (trim line = [])); [intros [= <-]; split; assumption|].
  destruct (startsWith line (str "#EXTM3U")); [intros [= <-]; split; assumption|].
  destruct (startsWith line (str "#EXTINF")).
  - destruct (First.parseExtinf line (lastIndex st)) as [[c li']| |] eqn:Hp;
      try discriminate.
    cbn [bind fst snd]. intros [= <-]. cbn [channels currentChannel].
    split; [assumption|]. intros c' [= <-].
    eapply First_parseExtinf_invariant, Hp.
  - destruct (currentChannel st) as [c|] eqn:Hc;
      [|intros [= <-]; split; [assumption | rewrite Hc; discriminate]].
    destruct (startsWith line (str "http"));
      [|intros [= <-]; split;
        [assumption | rewrite Hc; intros c' [= <-]; apply Hcur; reflexivity]].
    intros H. eapply completeChannel_invariant in H as [H1 H2]; eauto.
    split; [assumption|]. rewrite H2. discriminate.
Qed.

Lemma forOf_preserves (body : pstate -> jsstring -> outcome pstate) (I : pstate -> Prop) :
  (forall st x st', I st -> body st x = Ok st' -> I st') ->
  forall l st st', I st -> forOf body l st = Ok st' -> I st'.
Proof.
  intros Hbody l. induction l as [|x l IH]; intros st st' Hst; simpl.
  - intros [= <-]. exact Hst.
  - destruct (body st x) as [st1| |] eqn:Hx; try discriminate. cbn [bind].
    apply IH. eapply Hbody; eassumption.
Qed.

Lemma parseM3U_invariant m3uText :
  exists cs cs1,
    parseM3U m3uText = Ok cs /\ First.parseM3U m3uText = Ok cs1
    /\ Forall P cs /\ Forall P cs1.
Proof.
  destruct (Second_parseM3U_returns m3uText) as [cs Hcs].
  destruct (First_parseM3U_returns m3uText) as [cs1 Hcs1].
  exists cs, cs1. split_and!; [exact Hcs | exact Hcs1 | |].
  - unfold Second.parseM3U, Second.run in Hcs.
    destruct (forOf Second.lineStep (split LF m3uText) initial) as [st| |] eqn:Hrun;
      try discriminate.
    cbn [bind] in Hcs. injection Hcs as <-.
    eapply (forOf_preserves Second.lineStep
              (fun st => Forall P (channels st)
                         /\ (forall c, currentChannel st = Some c -> P c))) in Hrun as [H _].
    + exact H.
    + intros st0 x st' H0 Hx. eapply Second_lineStep_invariant; eassumption.
    + split; [constructor | discriminate].
  - unfold First.parseM3U, First.run in Hcs1.
    destruct (forOf First.lineStep (split LF m3uText) initial) as [st| |] eqn:Hrun;
      try discriminate.
    cbn [bind] in Hcs1. injection Hcs1 as <-.
    eapply (forOf_preserves First.lineStep
              (fun st => Forall P (channels st)
                         /\ (forall c, currentChannel st = Some c -> P c))) in Hrun as [H _].
    + exact H.
    + intros st0 x st' H0 Hx. eapply First_lineStep_invariant; eassumption.
    + split; [constructor | discriminate].
Qed.

End ChannelInvariant.

Lemma attributeStep_raw whole k v c c' :
  attributeStep [whole; Str k; Str v] c = Ok c' ->
  rawAttributes c' = setProperty (toLowerCase k) (Str v) (rawAttributes c).
Proof.
  unfold attributeStep. change (at_ [whole; Str k; Str v] 1) with (Str k).
  change (at_ [whole; Str k; Str v] 2) with (Str v). cbn [toLowerCaseOf bind].
  intros [= <-]. unfold whenKey.
  repeat match goal with |- context [decide (?a = ?b)] => destruct (decide (a = b)) end;
    reflexivity.
Qed.

Lemma lowerChar_word x :
  isWordOrDash x = true -> isWordOrDash (lowerChar x) = true /\ isUpper (lowerChar x) = false.
Proof.
  unfold lowerChar. destruct (isUpper x) eqn:Hu.
  - intros _. unfold isUpper in Hu. apply andb_true_iff in Hu as [H1 H2].
    apply N.leb_le in H1, H2. split.
    + unfold isWordOrDash, isWord, isLower.
      assert ((97 <=? x + 32)%N && (x + 32 <=? 122)%N = true) as ->.
      { apply andb_true_iff. split; apply N.leb_le; lia. }
      rewrite orb_true_r. reflexivity.
    + unfold isUpper. apply andb_false_iff. right. apply N.leb_gt. lia.
  - auto.
Qed.

Lemma toLowerCase_key k :
  k <> [] -> Forall (fun x => isWordOrDash x = true) k ->
  toLowerCase k <> []
  /\ Forall (fun c => isWordOrDash c = true /\ isUpper c = false) (toLowerCase k).
Proof.
  intros Hk Hw. split.
  - destruct k; [congruence | discriminate].
  - unfold toLowerCase. clear Hk. induction Hw as [|x k Hx _ IH]; [constructor|].
    simpl. constructor; [apply lowerChar_word, Hx | exact IH].
Qed.

Lemma attributesShaped_step whole k v c c' :
  k <> [] -> Forall (fun x => isWordOrDash x = true) k ->
  Forall (fun x => isNot quote x = true) v ->
  attributesShaped c -> attributeStep [whole; Str k; Str v] c = Ok c' ->
  attributesShaped c'.
Proof.
  intros Hk Hw Hv Hc Hstep k' v'. rewrite (attributeStep_raw _ _ _ _ _ Hstep).
  unfold setProperty. destruct (decide (toLowerCase k = str "__proto__")) as [_|Hp];
    [apply Hc|].
  destruct (decide (toLowerCase k = k')) as [<-|Hne].
  - rewrite lookup_insert_eq. intros [= <-]. split.
    + destruct (toLowerCase_key k Hk Hw) as [H1 H2]. split_and!; assumption.
    + exists v. split; [reflexivity|].
      eapply Forall_impl; [exact Hv|]. intros x Hx ->. discriminate Hx.
  - rewrite lookup_insert_ne by exact Hne. apply Hc.
Qed.

(** X22.  What [rawAttributes] holds, for every channel that either
    declaration returns on any text: the keys are not empty, consist of
    lower-case letters, digits, [_] and [-], and are never [__proto__],
    whose assignment sets no property; the values are strings without a
    double quote. *)
Theorem attributes_shaped (m3uText : jsstring) :
  exists cs cs1,
    parseM3U m3uText = Ok cs /\ First.parseM3U m3uText = Ok cs1
    /\ Forall attributesShaped cs /\ Forall attributesShaped cs1.
Proof.
  apply parseM3U_invariant.
  - intros k v H. unfold newChannel in H. cbn [rawAttributes] in H.
    rewrite lookup_empty in H. discriminate.
  - intros v c H. exact H.
  - intros v c H. exact H.
  - intros whole k v c c'. apply attributesShaped_step.
Qed.

Lemma fieldsMirrorAttributes_step whole k v c c' :
  fieldsMirrorAttributes c -> attributeStep [whole; Str k; Str v] c = Ok c' ->
  fieldsMirrorAttributes c'.
Proof.
  unfold attributeStep, fieldsMirrorAttributes.
  change (at_ [whole; Str k; Str v] 1) with (Str k).
  change (at_ [whole; Str k; Str v] 2) with (Str v). cbn [toLowerCaseOf bind].
  intros (H1 & H2 & H3) [= <-]. unfold whenKey.
  destruct (decide (toLowerCase k = str "tvg-id")) as [->|Hid];
    [|destruct (decide (toLowerCase k = str "tvg-name")) as [->|Hname];
      [|destruct (decide (toLowerCase k = str "tvg-logo")) as [->|Hlogo];
        [|destruct (decide (toLowerCase k = str "group-title")) as [->|Hgroup]]]];
    repeat match goal with
           | |- context [decide (str ?a = str ?b)] =>
               destruct (decide (str a = str b)) as [E|_]; [discriminate E|]
           end;
    cbn [tvgId logo groupTitle rawAttributes setTitle setRawAttribute setTvgId setLogo
         setGroupTitle];
    repeat first [rewrite setProperty_lookup_eq by discriminate
                 | rewrite setProperty_lookup_ne by (first [discriminate | assumption])];
    auto.
Qed.

(** X23.  The typed fields mirror [rawAttributes], for every channel that
    either declaration returns on any text: [tvgId], [logo] and
    [groupTitle] are the values stored under [tvg-id], [tvg-logo] and
    [group-title], and [null], [null] and [Uncategorized] where the
    metadata line had no such attribute. *)
Theorem typed_fields_mirror_attributes (m3uText : jsstring) :
  exists cs cs1,
    parseM3U m3uText = Ok cs /\ First.parseM3U m3uText = Ok cs1
    /\ Forall fieldsMirrorAttributes cs /\ Forall fieldsMirrorAttributes cs1.
Proof.
  apply parseM3U_invariant.
  - split_and!; reflexivity.
  - intros v c H. exact H.
  - intros v c H. exact H.
  - intros whole k v c c' _ _ _. apply fieldsMirrorAttributes_step.
Qed.

(** ** Where the stream URLs come from *)

Lemma sublist_snoc_r {A} (l k : list A) x : l `sublist_of` k -> l `sublist_of` k ++ [x].
Proof. intros H. rewrite <- (app_nil_r l). apply sublist_app; [exact H | apply sublist_nil_l]. Qed.

Lemma sublist_snoc {A} (l k : list A) x : l `sublist_of` k -> l ++ [x] `sublist_of` k ++ [x].
Proof. intros H. apply sublist_app; [exact H | reflexivity]. Qed.

Lemma Second_lineStep_urls seen st line :
  (streamUrl <$> channels st) `sublist_of` ((fun l => Str (trim l)) <$> seen) ->
  exists st', Second.lineStep st line = Ok st'
    /\ (streamUrl <$> channels st') `sublist_of` ((fun l => Str (trim l)) <$> seen ++ [line]).
Proof.
  intros H. rewrite fmap_app. cbn [fmap list_fmap].
  destruct (Second_lineStep_cases st line)
    as [E|[(_ & em & c & _ & _ & _ & E)|[(_ & _ & E)|[(c & _ & _ & E)|(c & _ & _ & E)]]]];
    rewrite E; eexists; (split; [reflexivity|]); cbn [channels];
    try (apply sublist_snoc_r, H).
  rewrite fmap_app. apply sublist_snoc, H.
Qed.

Lemma First_lineStep_urls seen st line :
  lastIndex st = 0 ->
  (streamUrl <$> channels st) `sublist_of` ((fun l => Str (trim l)) <$> seen) ->
  exists st', First.lineStep st line = Ok st' /\ lastIndex st' = 0
    /\ (streamUrl <$> channels st') `sublist_of` ((fun l => Str (trim l)) <$> seen ++ [line]).
Proof.
  intros Hli H. rewrite fmap_app. cbn [fmap list_fmap]. unfold First.lineStep.
  destruct (decide (trim line = []));
    [eexists; split_and!; [reflexivity | assumption | apply sublist_snoc_r, H]|].
  destruct (startsWith line (str "#EXTM3U"));
    [eexists; split_and!; [reflexivity | assumption | apply sublist_snoc_r, H]|].
  destruct (startsWith line (str "#EXTINF")).
  - destruct (First_parseExtinf_total line (lastIndex st) Hli) as (c & ->). cbn [bind].
    eexists; split_and!; [reflexivity | reflexivity | apply sublist_snoc_r, H].
  - destruct (currentChannel st) as [c|];
      [|eexists; split_and!; [reflexivity | assumption | apply sublist_snoc_r, H]].
    destruct (startsWith line (str "http"));
      [|eexists; split_and!; [reflexivity | assumption | apply sublist_snoc_r, H]].
    rewrite completeChannel_eq. destruct (validUrl (trim line)).
    + eexists; split_and!; [reflexivity | assumption |]. cbn [channels].
      rewrite fmap_app. apply sublist_snoc, H.
    + eexists; split_and!; [reflexivity | assumption | apply sublist_snoc_r, H].
Qed.

(** X24.  The parser invents no URL and reorders none: the stream URLs of
    the channels that either declaration returns are, in their order,
    among the trimmed lines of the text, in the order of the lines. *)
Theorem stream_urls_from_lines (m3uText : jsstring) :
  exists cs cs1,
    parseM3U m3uText = Ok cs /\ First.parseM3U m3uText = Ok cs1
    /\ (streamUrl <$> cs) `sublist_of` ((fun l => Str (trim l)) <$> split LF m3uText)
    /\ (streamUrl <$> cs1) `sublist_of` ((fun l => Str (trim l)) <$> split LF m3uText).
Proof.
  unfold parseM3U, Second.parseM3U, First.parseM3U, Second.run, First.run.
  destruct (forOf_invariant_prefix Second.lineStep
              (fun seen st => (streamUrl <$> channels st)
                                `sublist_of` ((fun l => Str (trim l)) <$> seen)))
    with (l := split LF m3uText) (seen := @nil jsstring) (st := initial) as (st & -> & H).
  { intros seen st x Hst. apply Second_lineStep_urls, Hst. }
  { constructor. }
  destruct (forOf_invariant_prefix First.lineStep
              (fun seen st => lastIndex st = 0
                 /\ (streamUrl <$> channels st)
                      `sublist_of` ((fun l => Str (trim l)) <$> seen)))
    with (l := split LF m3uText) (seen := @nil jsstring) (st := initial)
    as (st1 & -> & _ & H1).
  { intros seen st0 x [Hli Hst].
    destruct (First_lineStep_urls seen st0 x Hli Hst) as (st' & E & Hli' & Hs). eauto. }
  { split; [reflexivity | constructor]. }
  cbn [bind]. exists (channels st), (channels st1). split_and!; auto.
Qed.
